(** * spectree: control-flow graph construction and layered layout

    A shallow embedding of the algorithms of the repository:
    - the CFG builder ([buildCfg] and its helpers, lib/cfg.ts),
    - the layered layout with back-edge classification ([layoutCfg],
      [backEdges], components/CfgView.tsx), and
    - the geometry of the view: the bounds of the layout, hit testing and
      the camera of [CfgView], and the snap points of [BottomSheet].

    Conventions of the embedding.
    - JavaScript strings are Rocq [string]s (sequences of 8-bit characters).
    - The mutable build context and the module-level counter [nextBlockId]
      are threaded explicitly through the builder as one record.
    - The mutually recursive [buildNode] / [buildChildren] descend along
      children found by searches ([findBody], [findElse], [findArms]); the
      recursion is driven by a depth budget, [None] meaning that the budget
      ran out.  [buildNode_total] shows that the depth of the tree is
      always enough, and [buildCfg] uses exactly that budget.
    - Pixel quantities are exact rationals ([Q]); text measurement is a
      parameter of the layout, as it is an external capability. *)

From Stdlib Require Import ZArith QArith Qminmax Qabs Qround Lqa Ascii.
From stdpp Require Import base tactics option list strings pretty gmap sorting.

Local Open Scope stdpp_scope.

(* ================================================================== *)
(** * Syntax tree (lib/parser.ts) *)
(* ================================================================== *)

(** [{ row, column }] of the parser; the fields are prefixed because
    [LayoutBlock] has fields of the same names. *)
Record Position := { pos_row : nat; pos_column : nat }.

Module Ast.
#[local] Unset Elimination Schemes.
Inductive AstNode := mk {
  kind : string;
  start : nat;
  end_ : nat;
  startPosition : Position;
  endPosition : Position;
  text : option string;
  isNamed : bool;
  children : list AstNode;
}.
End Ast.
Abbreviation AstNode := Ast.AstNode.

(** Height of a tree: a childless node has depth 1. *)
Fixpoint depth (n : AstNode) : nat :=
  S (foldr (λ c acc, Nat.max (depth c) acc) 0%nat (Ast.children n)).

(* ================================================================== *)
(** * CFG types (lib/cfg.ts) *)
(* ================================================================== *)

Inductive CfgBlockKind :=
  | entry_kind | exit_kind | statement | branch | loop | return_kind | match_kind.

Global Instance CfgBlockKind_eq_dec : EqDecision CfgBlockKind.
Proof. solve_decision. Defined.

Record CfgBlock := {
  id : string;
  label : string;
  statements : list string;
  start : nat;
  end_ : nat;
  startPosition : Position;
  endPosition : Position;
  kind : CfgBlockKind;
  astPath : string;
}.

(** [label] is optional in the source: [None] is JavaScript's [undefined]. *)
Record CfgEdge := {
  from : string;
  to : string;
  edge_label : option string;
}.

Record Cfg := {
  blocks : list CfgBlock;
  edges : list CfgEdge;
}.

(* ================================================================== *)
(** * Node-kind tables *)
(* ================================================================== *)

Definition IF_TYPES : list string :=
  ["if_statement"; "if_expression"; "if_let_expression";
   "conditional_expression"; "ternary_expression"].

Definition LOOP_TYPES : list string :=
  ["for_statement"; "for_expression"; "for_in_statement";
   "while_statement"; "while_expression"; "loop_expression";
   "do_statement"; "for_range_statement"].

Definition MATCH_TYPES : list string :=
  ["match_expression"; "switch_statement"; "switch_expression"].

Definition RETURN_TYPES : list string :=
  ["return_statement"; "return_expression";
   "break_statement"; "break_expression";
   "continue_statement"; "continue_expression";
   "throw_statement"; "raise_statement"].

Definition FUNCTION_TYPES : list string :=
  ["function_declaration"; "function_definition"; "function_item";
   "method_definition"; "method_declaration";
   "arrow_function"; "lambda"; "lambda_expression";
   "closure_expression";
   "let_declaration";
   "value_definition"].

Definition CONTAINER_TYPES : list string :=
  ["program"; "source_file"; "source";
   "block"; "statement_block"; "compound_statement";
   "declaration_list"; "field_declaration_list";
   "expression_statement"; "lexical_declaration";
   "variable_declaration"; "short_var_declaration";
   "assignment_statement"; "assignment_expression";
   "call_expression"; "module"] ++ FUNCTION_TYPES.

(** [S.has(k)] for the tables above. *)
Definition has (S : list string) (k : string) : bool := bool_decide (k ∈ S).

(* ================================================================== *)
(** * Text helpers *)
(* ================================================================== *)

Definition makeId (n : nat) : string := "cfg_" +:+ pretty n.

(** [s.slice(a, b)] for non-negative integer bounds. *)
Definition slice (s : string) (a b : nat) : string :=
  String.substring a (b - a) s.

(** [s.split('\n')[0]]: the text before the first line feed. *)
Fixpoint firstLine (s : string) : string :=
  match s with
  | EmptyString => EmptyString
  | String c r => if Ascii.eqb c "010" then EmptyString else String c (firstLine r)
  end.

(** [s.trim()], on the white space characters of ASCII. *)
Fixpoint trimStart (s : string) : string :=
  match s with
  | EmptyString => EmptyString
  | String c r => if Ascii.is_space c then trimStart r else s
  end.

Definition trimEnd (s : string) : string := String.rev (trimStart (String.rev s)).

Definition trim (s : string) : string := trimEnd (trimStart s).

Definition truncate (s : string) (max : nat) : string :=
  let line := trim (firstLine s) in
  if bool_decide (max < String.length line)%nat
  then slice line 0 (max - 2) +:+ ".."
  else line.

Definition nodeText (node : AstNode) (code : string) : string :=
  slice code (Ast.start node) (Ast.end_ node).

Definition summary (node : AstNode) (code : string) (max : nat) : string :=
  truncate (nodeText node code) max.

(** [Array.prototype.find]. *)
Definition find {A} (p : A → bool) (l : list A) : option A := head (filter (λ x, p x = true) l).

Definition findCondition (node : AstNode) : option AstNode :=
  match find (λ child, has ["condition"; "parenthesized_expression";
                             "binary_expression"; "comparison_operator"]
                            (Ast.kind child)) (Ast.children node) with
  | Some child => Some child
  | None =>
      let named := filter (λ c, Ast.isNamed c = true) (Ast.children node) in
      if bool_decide (2 ≤ length named)%nat then named !! 1%nat else None
  end.

Definition findBody (node : AstNode) : option AstNode :=
  find (λ child, has ["block"; "statement_block"; "compound_statement";
                      "consequence"; "body"] (Ast.kind child))
       (Ast.children node).

Definition findElse (node : AstNode) : option AstNode :=
  find (λ child, has ["else_clause"; "else"; "alternative"] (Ast.kind child))
       (Ast.children node).

Fixpoint findArms (node : AstNode) : list AstNode :=
  flat_map (λ child,
      (if has ["match_arm"; "switch_case"; "switch_default";
               "case_clause"; "default_clause"; "match_case"] (Ast.kind child)
       then [child] else [])
      ++ (if has ["match_block"; "switch_body"] (Ast.kind child)
          then findArms child else []))
    (Ast.children node).

(* ================================================================== *)
(** * Builder state *)
(* ================================================================== *)

(** The build context [ctx] together with the module-level counter
    [nextBlockId]; both are mutated in place by the source. *)
Record BuildCtx := {
  ctx_blocks : list CfgBlock;
  ctx_edges : list CfgEdge;
  ctx_code : string;
  nextBlockId : nat;
}.

(** What [buildNode] and [buildChildren] return when they are not [null]. *)
Record Result := { entry : string; exits : list string }.

Definition makeBlock (ctx : BuildCtx) (lbl : string) (k : CfgBlockKind)
    (node : AstNode) (path : string) (stmts : list string) : CfgBlock * BuildCtx :=
  let block := {| id := makeId (nextBlockId ctx);
                  label := lbl;
                  statements := stmts;
                  start := Ast.start node;
                  end_ := Ast.end_ node;
                  startPosition := Ast.startPosition node;
                  endPosition := Ast.endPosition node;
                  kind := k;
                  astPath := path |} in
  (block, {| ctx_blocks := ctx_blocks ctx ++ [block];
             ctx_edges := ctx_edges ctx;
             ctx_code := ctx_code ctx;
             nextBlockId := S (nextBlockId ctx) |}).

Definition addEdge (ctx : BuildCtx) (f t : string) (lbl : option string) : BuildCtx :=
  {| ctx_blocks := ctx_blocks ctx;
     ctx_edges := ctx_edges ctx ++ [{| from := f; to := t; edge_label := lbl |}];
     ctx_code := ctx_code ctx;
     nextBlockId := nextBlockId ctx |}.

(** [for (const ex of exits) addEdge(ctx, ex, target, lbl)]. *)
Definition addEdgesFrom (ctx : BuildCtx) (exs : list string) (t : string)
    (lbl : option string) : BuildCtx :=
  foldl (λ c ex, addEdge c ex t lbl) ctx exs.

Definition isContainerLike (node : AstNode) : bool :=
  if Ast.isNamed node then
    existsb (λ c, has IF_TYPES (Ast.kind c) || has LOOP_TYPES (Ast.kind c)
                  || has MATCH_TYPES (Ast.kind c) || has RETURN_TYPES (Ast.kind c)
                  || has FUNCTION_TYPES (Ast.kind c))
            (Ast.children node)
  else false.

(** A computation of the builder: it may exhaust the depth budget ([None]),
    otherwise it returns a value and the updated context. *)
Definition Build (A : Type) : Type := BuildCtx → option (A * BuildCtx).

(** The named children of a node with their indices among all children. *)
Definition childIndices (node : AstNode) : list (AstNode * nat) :=
  filter (λ ci, Ast.isNamed ci.1 = true)
         (imap (λ i c, (c, i)) (Ast.children node)).

(** The loop of [buildChildren] that builds every named child in order and
    keeps the non-null results. *)
Fixpoint buildEach (bn : AstNode → string → Build (option Result))
    (cis : list (AstNode * nat)) (path : string) (acc : list Result)
    : Build (list Result) :=
  λ ctx,
  match cis with
  | [] => Some (acc, ctx)
  | (child, index) :: rest =>
      '(result, ctx) ← bn child (path +:+ "-" +:+ pretty index) ctx;
      buildEach bn rest path
        (match result with Some r => acc ++ [r] | None => acc end) ctx
  end.

(** The chaining loop of [buildChildren]: the exits of each result are wired
    to the entry of the next one. *)
Fixpoint chain (ctx : BuildCtx) (prev : Result) (rest : list Result) : BuildCtx :=
  match rest with
  | [] => ctx
  | r :: rest' => chain (addEdgesFrom ctx (exits prev) (entry r) None) r rest'
  end.

Definition buildChildrenWith (bn : AstNode → string → Build (option Result))
    (node : AstNode) (path : string) : Build (option Result) :=
  λ ctx,
  let namedChildren := filter (λ c, Ast.isNamed c = true) (Ast.children node) in
  if bool_decide (length namedChildren = 0%nat) then Some (None, ctx) else
  '(results, ctx) ← buildEach bn (childIndices node) path [] ctx;
  match results with
  | [] => Some (None, ctx)
  | r0 :: rs =>
      let ctx := chain ctx r0 rs in
      Some (Some {| entry := entry r0; exits := exits (List.last rs r0) |}, ctx)
  end.

(** [parts.join(sep)]. *)
Fixpoint join (sep : string) (parts : list string) : string :=
  match parts with
  | [] => ""
  | [p] => p
  | p :: rest => p +:+ sep +:+ join sep rest
  end.

(** JavaScript truthiness of a string: the empty string is falsy. *)
Definition truthy (s : string) : bool := negb (bool_decide (s = "")).

Definition armLabel (arm : AstNode) (i : nat) (code : string) : string :=
  let joined := join " " (map (λ c, summary c code 20)
                   (filter (λ c, Ast.isNamed c = true) (Ast.children arm))) in
  truncate (if truthy joined then joined else "arm " +:+ pretty i) 24.

(** The loop over the arms of a match node. *)
Fixpoint buildArms (bc : AstNode → string → Build (option Result))
    (matchId : string) (arms : list AstNode) (i : nat) (path code : string)
    (exs : list string) : Build (list string) :=
  λ ctx,
  match arms with
  | [] => Some (exs, ctx)
  | arm :: rest =>
      let lbl := armLabel arm i code in
      '(armResult, ctx) ← bc arm (path +:+ "-arm" +:+ pretty i) ctx;
      match armResult with
      | Some r =>
          let ctx := addEdge ctx matchId (entry r) (Some lbl) in
          buildArms bc matchId rest (S i) path code (exs ++ exits r) ctx
      | None => buildArms bc matchId rest (S i) path code exs ctx
      end
  end.

(** [body ? buildChildren(ctx, body, astPath, code) : null]. *)
Definition buildOpt (bc : AstNode → string → Build (option Result))
    (body : option AstNode) (path : string) : Build (option Result) :=
  λ ctx,
  match body with
  | Some b => bc b path ctx
  | None => Some (None, ctx)
  end.

Fixpoint buildNode (fuel : nat) (code : string) (node : AstNode) (path : string)
    : Build (option Result) :=
  λ ctx,
  match fuel with
  | O => None
  | S fuel =>
    let buildChildren := buildChildrenWith (buildNode fuel code) in
    (* --- If / conditional --- *)
    if has IF_TYPES (Ast.kind node) then
      let condText := match findCondition node with
                      | Some c => summary c code 48
                      | None => "condition"
                      end in
      let '(branchBlock, ctx) :=
        makeBlock ctx ("if " +:+ condText) branch node path ["if " +:+ condText] in
      '(trueResult, ctx) ← buildOpt buildChildren (findBody node) path ctx;
      let ctx := match trueResult with
                 | Some t => addEdge ctx (id branchBlock) (entry t) (Some "true")
                 | None => ctx
                 end in
      let elseNode := findElse node in
      '(falseResult, ctx) ← buildOpt buildChildren elseNode path ctx;
      let ctx := match falseResult with
                 | Some f => addEdge ctx (id branchBlock) (entry f) (Some "false")
                 | None => ctx
                 end in
      let exs1 := match trueResult with
                  | Some t => exits t
                  | None => [id branchBlock]
                  end in
      let exs2 := match falseResult with
                  | Some f => exits f
                  | None => match elseNode with
                            | Some _ => []
                            | None => [id branchBlock]
                            end
                  end in
      Some (Some {| entry := id branchBlock; exits := exs1 ++ exs2 |}, ctx)
    (* --- Loops --- *)
    else if has LOOP_TYPES (Ast.kind node) then
      let condText := match findCondition node with
                      | Some c => summary c code 48
                      | None => ""
                      end in
      let keyword := if String.prefix "for" (Ast.kind node) then "for" else "while" in
      let loopLabel := if truthy condText then keyword +:+ " " +:+ condText else keyword in
      let '(loopBlock, ctx) := makeBlock ctx loopLabel loop node path [loopLabel] in
      '(bodyResult, ctx) ← buildOpt buildChildren (findBody node) path ctx;
      let ctx := match bodyResult with
                 | Some b =>
                     let ctx := addEdge ctx (id loopBlock) (entry b) (Some "body") in
                     addEdgesFrom ctx (exits b) (id loopBlock) (Some "next")
                 | None => ctx
                 end in
      Some (Some {| entry := id loopBlock; exits := [id loopBlock] |}, ctx)
    (* --- Match / switch --- *)
    else if has MATCH_TYPES (Ast.kind node) then
      let '(matchBlock, ctx) :=
        makeBlock ctx "match" match_kind node path [summary node code 32] in
      '(exs, ctx) ← buildArms buildChildren (id matchBlock) (findArms node) 0 path code [] ctx;
      let exs := if bool_decide (length exs = 0%nat) then [id matchBlock] else exs in
      Some (Some {| entry := id matchBlock; exits := exs |}, ctx)
    (* --- Return / break / continue --- *)
    else if has RETURN_TYPES (Ast.kind node) then
      let '(block, ctx) :=
        makeBlock ctx (summary node code 48) return_kind node path [summary node code 48] in
      Some (Some {| entry := id block; exits := [] |}, ctx)
    (* --- Function declarations: create a sub-CFG --- *)
    else if has FUNCTION_TYPES (Ast.kind node) then
      let fnName := find (λ c, bool_decide (Ast.kind c = "identifier")
                               || bool_decide (Ast.kind c = "name"))
                         (Ast.children node) in
      let lbl := match fnName with
                 | Some f => "fn " +:+ summary f code 24
                 | None => "fn"
                 end in
      let '(entryBlock, ctx) := makeBlock ctx lbl entry_kind node path [lbl] in
      '(bodyResult, ctx) ← buildOpt buildChildren (findBody node) path ctx;
      match bodyResult with
      | Some b =>
          let ctx := addEdge ctx (id entryBlock) (entry b) None in
          let '(exitBlock, ctx) := makeBlock ctx "end" exit_kind node path ["end"] in
          let ctx := addEdgesFrom ctx (exits b) (id exitBlock) None in
          Some (Some {| entry := id entryBlock; exits := [id exitBlock] |}, ctx)
      | None =>
          Some (Some {| entry := id entryBlock; exits := [id entryBlock] |}, ctx)
      end
    (* --- Container nodes: recurse into children --- *)
    else if has CONTAINER_TYPES (Ast.kind node) || isContainerLike node then
      buildChildren node path ctx
    (* --- Default: treat as a simple statement --- *)
    else if Ast.isNamed node && negb (bool_decide (Ast.kind node = "comment")) then
      let '(block, ctx) :=
        makeBlock ctx (summary node code 48) statement node path [summary node code 48] in
      Some (Some {| entry := id block; exits := [id block] |}, ctx)
    else Some (None, ctx)
  end.

Definition buildChildren (fuel : nat) (code : string) (node : AstNode) (path : string)
    : Build (option Result) :=
  buildChildrenWith (buildNode fuel code) node path.

(** The key of an edge used for deduplication:
    [`${e.from}->${e.to}:${e.label || ''}`]. *)
Definition edgeKey (e : CfgEdge) : string :=
  from e +:+ "->" +:+ to e +:+ ":" +:+ default "" (edge_label e).

(** [ctx.edges.filter(...)] with the set of keys seen so far. *)
Fixpoint dedup (seen : gset string) (es : list CfgEdge) : list CfgEdge :=
  match es with
  | [] => []
  | e :: rest =>
      if bool_decide (edgeKey e ∈ seen) then dedup seen rest
      else e :: dedup ({[edgeKey e]} ∪ seen) rest
  end.

Definition initCtx (code : string) : BuildCtx :=
  {| ctx_blocks := []; ctx_edges := []; ctx_code := code; nextBlockId := 0 |}.

(** The sentinel step of [buildCfg]: add a leading entry block when the tree
    produced blocks but none of kind [entry]. *)
Definition addSentinel (ast : AstNode) (result : option Result) (ctx : BuildCtx)
    : BuildCtx :=
  match result with
  | Some r =>
      if bool_decide (0 < length (ctx_blocks ctx))%nat then
        let hasEntry := existsb (λ b, bool_decide (kind b = entry_kind)) (ctx_blocks ctx) in
        if hasEntry then ctx else
          let '(e, ctx) := makeBlock ctx "entry" entry_kind ast "root" ["entry"] in
          let ctx := addEdge ctx (id e) (entry r) None in
          (* Move entry to front: pop, then unshift *)
          {| ctx_blocks := e :: removelast (ctx_blocks ctx);
             ctx_edges := ctx_edges ctx;
             ctx_code := ctx_code ctx;
             nextBlockId := nextBlockId ctx |}
      else ctx
  | None => ctx
  end.

(** [buildChildren(ctx, ast, 'root', code)] on the fresh context, with the
    depth of the tree as budget. *)
Definition buildRoot (ast : AstNode) (code : string)
    : option (option Result * BuildCtx) :=
  buildChildren (depth ast) code ast "root" (initCtx code).

Definition buildCfg (ast : AstNode) (code : string) : option Cfg :=
  '(result, ctx) ← buildRoot ast code;
  let ctx := addSentinel ast result ctx in
  Some {| blocks := ctx_blocks ctx; edges := dedup ∅ (ctx_edges ctx) |}.

(* ================================================================== *)
(** * Layered layout (components/CfgView.tsx) *)
(* ================================================================== *)

Local Open Scope Z_scope.

Record LayoutBlock := {
  block : CfgBlock;
  x : Q;
  y : Q;
  width : Q;
  height : Q;
  column : nat;
  row : Z;
}.

(** The font descriptors are opaque to the layout (they are only handed to
    [measureText]); the quotation marks around the family names are left
    out. *)
Definition BLOCK_FONT : string :=
  "12px SF Mono, Cascadia Code, Fira Code, Consolas, monospace".
Definition BLOCK_FONT_SMALL : string :=
  "10px SF Mono, Cascadia Code, Fira Code, Consolas, monospace".
Definition BLOCK_PADDING_X : Q := 16.
Definition BLOCK_PADDING_Y : Q := 10.
Definition BLOCK_MIN_W : Q := 100.
Definition BLOCK_MAX_W : Q := 280.
Definition BLOCK_GAP_X : Q := 60.
Definition BLOCK_GAP_Y : Q := 56.

(** ** Adjacency *)

Record Adjacency := {
  successors : gmap string (list string);
  predecessors : gmap string (list string);
}.

Definition initAdjacency (bs : list CfgBlock) : Adjacency :=
  foldl (λ adj b, {| successors := <[id b := []]> (successors adj);
                     predecessors := <[id b := []]> (predecessors adj) |})
        {| successors := ∅; predecessors := ∅ |} bs.

(** [m.get(k)!.push(v)]. *)
Definition push (k v : string) (m : gmap string (list string))
    : gmap string (list string) :=
  alter (λ l, l ++ [v]) k m.

Definition addAdjacency (adj : Adjacency) (e : CfgEdge) : Adjacency :=
  if bool_decide (is_Some (successors adj !! from e))
     && bool_decide (is_Some (predecessors adj !! to e))
  then {| successors := push (from e) (to e) (successors adj);
          predecessors := push (to e) (from e) (predecessors adj) |}
  else adj.

Definition buildAdjacency (cfg : Cfg) : Adjacency :=
  foldl addAdjacency (initAdjacency (blocks cfg)) (edges cfg).

(** [predecessors.get(id) || []]. *)
Definition predsOf (preds : gmap string (list string)) (i : string) : list string :=
  default [] (preds !! i).

(** ** Layering *)

(** The two collections [assignLayer] mutates. *)
Record LayerState := {
  layer : gmap string Z;
  visited : gset string;
}.

(** The loop over the predecessors inside [assignLayer]. *)
Fixpoint maxPredLayer (al : string → LayerState → option (Z * LayerState))
    (ps : list string) (m : Z) (st : LayerState) : option (Z * LayerState) :=
  match ps with
  | [] => Some (m, st)
  | p :: rest =>
      '(l, st) ← al p st;
      maxPredLayer al rest (Z.max m l) st
  end.

(** [assignLayer]; the recursion is bounded by a budget, [None] meaning that
    the budget ran out ([assignLayer_total] shows it never does with the
    budget [layoutCfg] uses). *)
Fixpoint assignLayer (fuel : nat) (preds : gmap string (list string))
    (i : string) (st : LayerState) : option (Z * LayerState) :=
  match fuel with
  | O => None
  | S fuel =>
      match layer st !! i with
      | Some l => Some (l, st)
      | None =>
          if bool_decide (i ∈ visited st) then Some (0, st) (* cycle *)
          else
            let st := {| layer := layer st; visited := {[i]} ∪ visited st |} in
            '(m, st) ← maxPredLayer (assignLayer fuel preds) (predsOf preds i) (-1) st;
            let l := m + 1 in
            Some (l, {| layer := <[i := l]> (layer st); visited := visited st |})
      end
  end.

(** [for (const b of cfg.blocks) assignLayer(b.id)]. *)
Fixpoint assignAll (fuel : nat) (preds : gmap string (list string))
    (bs : list CfgBlock) (st : LayerState) : option LayerState :=
  match bs with
  | [] => Some st
  | b :: rest =>
      '(_, st) ← assignLayer fuel preds (id b) st;
      assignAll fuel preds rest st
  end.

(** The layer map computed by [layoutCfg]. *)
Definition assignLayers (cfg : Cfg) : option (gmap string Z) :=
  st ← assignAll (S (length (blocks cfg))) (predecessors (buildAdjacency cfg))
                 (blocks cfg) {| layer := ∅; visited := ∅ |};
  Some (layer st).

(** [layer.get(id) || 0]. *)
Definition layerOf (lay : gmap string Z) (i : string) : Z := default 0 (lay !! i).

(** ** The layering as the specification words it *)

(** The predecessors of a block read off the edges: the sources of the edges
    into it whose two ends are ids of blocks, in edge order. *)
Definition edgePreds (cfg : Cfg) (i : string) : list string :=
  from <$> filter (λ e, to e = i ∧ from e ∈ id <$> blocks cfg
                        ∧ to e ∈ id <$> blocks cfg) (edges cfg).

(** The largest layer reported by the predecessors [ps], resolved in turn. *)
Fixpoint resolvePreds (rl : string → gmap string Z → option (Z * gmap string Z))
    (ps : list string) (m : Z) (memo : gmap string Z)
    : option (Z * gmap string Z) :=
  match ps with
  | [] => Some (m, memo)
  | p :: rest =>
      '(l, memo) ← rl p memo;
      resolvePreds rl rest (Z.max m l) memo
  end.

(** Memoized recursive resolution: a block already resolved reports its
    layer; a block met again while it is on the active recursion path
    [path] reports 0; any other block gets one more than the largest layer
    reported by its predecessors, resolved with the block on the path. *)
Fixpoint resolveLayer (fuel : nat) (preds : string → list string)
    (path : list string) (i : string) (memo : gmap string Z)
    : option (Z * gmap string Z) :=
  match fuel with
  | O => None
  | S fuel =>
      match memo !! i with
      | Some l => Some (l, memo)
      | None =>
          if bool_decide (i ∈ path) then Some (0, memo)
          else
            '(m, memo) ← resolvePreds (resolveLayer fuel preds (i :: path))
                                      (preds i) (-1) memo;
            Some (m + 1, <[i := m + 1]> memo)
      end
  end.

Fixpoint resolveAll (fuel : nat) (preds : string → list string)
    (bs : list CfgBlock) (memo : gmap string Z) : option (gmap string Z) :=
  match bs with
  | [] => Some memo
  | b :: rest =>
      '(_, memo) ← resolveLayer fuel preds [] (id b) memo;
      resolveAll fuel preds rest memo
  end.

(** The layers of the specification: every block is resolved in turn, over
    the predecessors given by the edges. *)
Definition resolveLayers (cfg : Cfg) : option (gmap string Z) :=
  resolveAll (S (length (blocks cfg))) (edgePreds cfg) (blocks cfg) ∅.

(** What the predecessor [p] counts for in the layer of [i], given the
    layers [lay]: its layer when that is below the layer of [i], and 0
    otherwise. *)
Definition report (lay : gmap string Z) (i p : string) : Z :=
  if bool_decide (layerOf lay p < layerOf lay i) then layerOf lay p else 0.

(** ** Grouping and ordering *)

Definition groupByLayer (lay : gmap string Z) (bs : list CfgBlock)
    : gmap Z (list CfgBlock) :=
  foldl (λ layers b,
           let l := layerOf lay (id b) in
           <[l := default [] (layers !! l) ++ [b]]> layers)
        ∅ bs.

Definition sortedLayerKeys (layers : gmap Z (list CfgBlock)) : list Z :=
  merge_sort Z.le (map_to_list layers).*1.

(** [prevBlocks.forEach((b, i) => prevPos.set(b.id, i))]. *)
Definition prevPosOf (prevBlocks : list CfgBlock) : gmap string nat :=
  foldl (λ m bi, <[id bi.1 := bi.2]> m) ∅ (imap (λ i b, (b, i)) prevBlocks).

(** The average position of the predecessors of a block in the previous layer. *)
Definition barycenter (preds : gmap string (list string)) (prevPos : gmap string nat)
    (b : CfgBlock) : Q :=
  let ps := predsOf preds (id b) in
  if bool_decide (0 < length ps)%nat
  then Qdiv (inject_Z (foldl (λ s p, s + Z.of_nat (default 0%nat (prevPos !! p))) 0 ps))
            (inject_Z (Z.of_nat (length ps)))
  else 0%Q.

(** [Array.prototype.sort] with the comparator [key a - key b]: a stable
    sort by ascending key. *)
Fixpoint insertByKey {A} (key : A → Q) (a : A) (l : list A) : list A :=
  match l with
  | [] => [a]
  | b :: rest =>
      if Qle_bool (key b) (key a) then b :: insertByKey key a rest
      else a :: l
  end.

Definition sortByKey {A} (key : A → Q) (l : list A) : list A :=
  foldl (λ acc a, insertByKey key a acc) [] l.

(** The loop [for (li = 1; li < sortedLayerKeys.length; li++)], which sorts
    each layer in place after the previous one has been sorted. *)
Fixpoint orderLayers (preds : gmap string (list string)) (prevKey : Z)
    (keys : list Z) (layers : gmap Z (list CfgBlock)) : gmap Z (list CfgBlock) :=
  match keys with
  | [] => layers
  | k :: rest =>
      let blocks := default [] (layers !! k) in
      let prevPos := prevPosOf (default [] (layers !! prevKey)) in
      orderLayers preds k rest
        (<[k := sortByKey (barycenter preds prevPos) blocks]> layers)
  end.

Definition orderAll (preds : gmap string (list string)) (keys : list Z)
    (layers : gmap Z (list CfgBlock)) : gmap Z (list CfgBlock) :=
  match keys with
  | [] => layers
  | k0 :: rest => orderLayers preds k0 rest layers
  end.

(** ** Sizing and positioning *)

Section layout.
(** The text-measurement capability: the rendered width of a text in a font. *)
Variable measureText : string → string → Q.

(** [Math.max(first, ...rest)] and [Math.min(first, ...rest)]. *)
Definition maxOf (first : Q) (rest : list Q) : Q := foldl Qmax first rest.
Definition minOf (first : Q) (rest : list Q) : Q := foldl Qmin first rest.

Definition blockWidth (b : CfgBlock) : Q :=
  let labelW := measureText (label b) BLOCK_FONT in
  let stmtWidths := map (λ s, measureText s BLOCK_FONT_SMALL) (statements b) in
  let maxTextW := maxOf labelW stmtWidths in
  Qmin BLOCK_MAX_W (Qmax BLOCK_MIN_W (maxTextW + BLOCK_PADDING_X * 2)%Q).

Definition blockHeight (b : CfgBlock) : Q :=
  let lineH := 16%Q in
  let n := length (statements b) in
  let stmtH := if bool_decide (0 < n)%nat
               then (inject_Z (Z.of_nat n) * lineH + 4)%Q else 0%Q in
  (BLOCK_PADDING_Y * 2 + 14 + stmtH)%Q.

(** [getBlockDimensions]: the pair (width, height). *)
Definition getBlockDimensions (b : CfgBlock) : Q * Q := (blockWidth b, blockHeight b).

(** The inner loop that places the blocks of one layer from left to right. *)
Fixpoint placeRow (bs : list CfgBlock) (i : nat) (currentX currentY : Q)
    (layerKey : Z) : list LayoutBlock :=
  match bs with
  | [] => []
  | b :: rest =>
      let d := getBlockDimensions b in
      {| block := b; x := currentX; y := currentY;
         width := d.1; height := d.2; column := i; row := layerKey |}
      :: placeRow rest (S i) (currentX + d.1 + BLOCK_GAP_X)%Q currentY layerKey
  end.

(** [Math.max(...heights)] of a layer; every layer holds at least one block. *)
Definition maxHeight (dims : list (Q * Q)) : Q :=
  match dims with
  | [] => 0%Q
  | d :: rest => maxOf d.2 (rest.*2)
  end.

Definition totalWidth (dims : list (Q * Q)) : Q :=
  (foldl (λ s d, s + d.1) 0 dims
   + inject_Z (Z.of_nat (length dims) - 1) * BLOCK_GAP_X)%Q.

Fixpoint placeLayers (keys : list Z) (layers : gmap Z (list CfgBlock))
    (currentY : Q) : list LayoutBlock :=
  match keys with
  | [] => []
  | layerKey :: rest =>
      let blocks := default [] (layers !! layerKey) in
      let dims := map getBlockDimensions blocks in
      let maxH := maxHeight dims in
      let totalW := totalWidth dims in
      placeRow blocks 0 (- totalW / 2)%Q currentY layerKey
      ++ placeLayers rest layers (currentY + maxH + BLOCK_GAP_Y)%Q
  end.

Definition shiftX (d : Q) (lb : LayoutBlock) : LayoutBlock :=
  {| block := block lb; x := (x lb - d)%Q; y := y lb;
     width := width lb; height := height lb;
     column := column lb; row := row lb |}.

(** Normalize so that the minimum [x] is 0. *)
Definition normalize (lbs : list LayoutBlock) : list LayoutBlock :=
  match lbs with
  | [] => []
  | lb :: rest =>
      let minX := minOf (x lb) (x <$> rest) in
      if Qlt_le_dec minX 0%Q then shiftX minX <$> lbs else lbs
  end.

Definition layoutCfg (cfg : Cfg) : option (list LayoutBlock) :=
  if bool_decide (length (blocks cfg) = 0%nat) then Some [] else
  let preds := predecessors (buildAdjacency cfg) in
  lay ← assignLayers cfg;
  let layers := groupByLayer lay (blocks cfg) in
  let keys := sortedLayerKeys layers in
  let layers := orderAll preds keys layers in
  Some (normalize (placeLayers keys layers 0%Q)).

End layout.

(** ** Back edges (the [backEdges] memo of [CfgView]) *)

Definition blockMapOf (lbs : list LayoutBlock) : gmap string LayoutBlock :=
  foldl (λ m lb, <[id (block lb) := lb]> m) ∅ lbs.

(** The key under which an edge is recorded: [`${e.from}->${e.to}`]. *)
Definition backKey (e : CfgEdge) : string := from e +:+ "->" +:+ to e.

Definition backEdges (es : list CfgEdge) (blockMap : gmap string LayoutBlock)
    : gset string :=
  foldl (λ set e,
           match blockMap !! from e, blockMap !! to e with
           | Some fromLb, Some toLb =>
               if bool_decide (row toLb ≤ row fromLb) then {[backKey e]} ∪ set
               else set
           | _, _ => set
           end)
        ∅ es.

(** [backEdges.has(`${edge.from}->${edge.to}`)], as the renderer asks. *)
Definition isBack (set : gset string) (e : CfgEdge) : bool :=
  bool_decide (backKey e ∈ set).

(** ** Bounds of the layout (the [layoutBlocks] / [bounds] memo of [CfgView]) *)

(** [{ width, height }] of the bounds and of the canvas size; the fields
    are prefixed because [LayoutBlock] has fields of the same names. *)
Record Bounds := { bounds_width : Q; bounds_height : Q }.

Record Size := { size_width : Q; size_height : Q }.

Definition boundsOf (lbs : list LayoutBlock) : Bounds :=
  let m :=
    foldl (λ (m : Q * Q) b,
             let r := (x b + width b)%Q in
             let bot := (y b + height b)%Q in
             (if Qlt_le_dec m.1 r then r else m.1,
              if Qlt_le_dec m.2 bot then bot else m.2))
          (0%Q, 0%Q) lbs in
  {| bounds_width := m.1; bounds_height := m.2 |}.

(** ** Hit testing *)

(** The test of [hitTest]: the point lies in the rectangle of the block,
    borders included. *)
Definition inside (b : LayoutBlock) (worldX worldY : Q) : bool :=
  Qle_bool (x b) worldX && Qle_bool worldX (x b + width b)%Q
  && Qle_bool (y b) worldY && Qle_bool worldY (y b + height b)%Q.

(** The loop runs from the last block of the list down to the first. *)
Definition hitTest (blocks : list LayoutBlock) (worldX worldY : Q)
    : option LayoutBlock :=
  find (λ b, inside b worldX worldY) (reverse blocks).

(** ** Camera *)

Record Camera := { cam_x : Q; cam_y : Q; zoom : Q }.

Definition screenToWorld (cam : Camera) (sx sy : Q) : Q * Q :=
  (((sx - cam_x cam) / zoom cam)%Q, ((sy - cam_y cam) / zoom cam)%Q).

(** The camera set by [fitToView] and by the auto-fit effect. *)
Definition fitCamera (size : Size) (bounds : Bounds) : Camera :=
  let pad := 60%Q in
  let scaleX := ((size_width size - pad * 2) / Qmax 1 (bounds_width bounds))%Q in
  let scaleY := ((size_height size - pad * 2) / Qmax 1 (bounds_height bounds))%Q in
  let zoom := Qmin 1 (Qmin scaleX scaleY) in
  {| cam_x := ((size_width size - bounds_width bounds * zoom) / 2)%Q;
     cam_y := pad;
     zoom := zoom |}.

(** [fitToView]: nothing happens while the canvas has no size. *)
Definition fitToView (size : Size) (bounds : Bounds) (cam : Camera) : Camera :=
  if Qeq_bool (size_width size) 0 || Qeq_bool (size_height size) 0 then cam
  else fitCamera size bounds.

(** The wheel handler: zoom by a tenth about the pointer position
    [(sx, sy)], the zoom being kept between 0.1 and 3. *)
Definition onWheel (cam : Camera) (sx sy deltaY : Q) : Camera :=
  let factor := if Qlt_le_dec 0 deltaY then (9 # 10)%Q else (11 # 10)%Q in
  let newZoom := Qmin 3 (Qmax (1 # 10) (zoom cam * factor)%Q) in
  let worldX := ((sx - cam_x cam) / zoom cam)%Q in
  let worldY := ((sy - cam_y cam) / zoom cam)%Q in
  {| cam_x := (sx - worldX * newZoom)%Q;
     cam_y := (sy - worldY * newZoom)%Q;
     zoom := newZoom |}.

(** The zoom buttons: zoom about the centre of the canvas. *)
Definition zoomIn (size : Size) (cam : Camera) : Camera :=
  let cx := (size_width size / 2)%Q in
  let cy := (size_height size / 2)%Q in
  let worldX := ((cx - cam_x cam) / zoom cam)%Q in
  let worldY := ((cy - cam_y cam) / zoom cam)%Q in
  let newZoom := Qmin 3 (zoom cam * (13 # 10))%Q in
  {| cam_x := (cx - worldX * newZoom)%Q;
     cam_y := (cy - worldY * newZoom)%Q;
     zoom := newZoom |}.

Definition zoomOut (size : Size) (cam : Camera) : Camera :=
  let cx := (size_width size / 2)%Q in
  let cy := (size_height size / 2)%Q in
  let worldX := ((cx - cam_x cam) / zoom cam)%Q in
  let worldY := ((cy - cam_y cam) / zoom cam)%Q in
  let newZoom := Qmax (1 # 10) (zoom cam / (13 # 10))%Q in
  {| cam_x := (cx - worldX * newZoom)%Q;
     cam_y := (cy - worldY * newZoom)%Q;
     zoom := newZoom |}.




(** ** Bottom sheet snapping (the helpers of [BottomSheet]) *)

Inductive SnapPoint := collapsed | half | full.

Definition COLLAPSED_HEIGHT : Q := 48.
Definition HALF_RATIO : Q := (5 # 10)%Q.
Definition FULL_RATIO : Q := (92 # 100)%Q.

(** [Math.round]: the nearest integer, a half being rounded up. *)
Definition round (q : Q) : Z := Qfloor (q + (1 # 2))%Q.

Definition getSnapHeight (snap : SnapPoint) (windowHeight : Q) : Q :=
  match snap with
  | collapsed => COLLAPSED_HEIGHT
  | half => inject_Z (round (windowHeight * HALF_RATIO)%Q)
  | full => inject_Z (round (windowHeight * FULL_RATIO)%Q)
  end.

Definition nearestSnap (height windowHeight : Q) : SnapPoint :=
  let collapsed_ := COLLAPSED_HEIGHT in
  let half_ := (windowHeight * HALF_RATIO)%Q in
  let full_ := (windowHeight * FULL_RATIO)%Q in
  let distCollapsed := Qabs (height - collapsed_)%Q in
  let distHalf := Qabs (height - half_)%Q in
  let distFull := Qabs (height - full_)%Q in
  if Qle_bool distCollapsed distHalf && Qle_bool distCollapsed distFull then collapsed
  else if Qle_bool distHalf distFull then half
  else full.

Local Close Scope Z_scope.

(* ================================================================== *)
(** * The depth budget is always enough *)
(* ================================================================== *)

Lemma AstNode_ind (P : AstNode → Prop) :
  (∀ k s e sp ep t n cs, Forall P cs → P (Ast.mk k s e sp ep t n cs)) →
  ∀ n, P n.
Proof.
  intros step. fix IH 1. intros [k s e sp ep t n cs]. apply step.
  induction cs as [|c cs IHcs]; constructor; [apply IH | exact IHcs].
Qed.

Lemma depth_child (c n : AstNode) :
  c ∈ Ast.children n → depth c < depth n.
Proof.
  destruct n as [k s e sp ep t nm cs]; simpl.
  induction cs as [|c' cs IH]; intros Hin; [by apply elem_of_nil in Hin|].
  apply elem_of_cons in Hin as [->|Hin]; simpl; [lia|].
  specialize (IH Hin). lia.
Qed.

Lemma find_Some {A} (p : A → bool) (l : list A) (x : A) :
  find p l = Some x → x ∈ l ∧ p x = true.
Proof.
  unfold find. intros Hh. apply head_Some_elem_of in Hh.
  by apply list_elem_of_filter in Hh as [? ?].
Qed.

Lemma findBody_child (n b : AstNode) : findBody n = Some b → b ∈ Ast.children n.
Proof. intros H. by apply find_Some in H as [? _]. Qed.

Lemma findElse_child (n b : AstNode) : findElse n = Some b → b ∈ Ast.children n.
Proof. intros H. by apply find_Some in H as [? _]. Qed.

Lemma findArms_depth (n arm : AstNode) :
  arm ∈ findArms n → depth arm < depth n.
Proof.
  revert arm. induction n as [k s e sp ep t nm cs IH] using AstNode_ind.
  intros arm Hin. simpl in Hin.
  apply list_elem_of_In, in_flat_map in Hin as (c & Hc & Hin).
  apply list_elem_of_In in Hc.
  assert (depth c < depth (Ast.mk k s e sp ep t nm cs)) as Hlt
    by (by apply depth_child).
  apply in_app_or in Hin as [Hin|Hin].
  - destruct (has _ _); [|done]. destruct Hin as [<-|[]]. done.
  - destruct (has _ (Ast.kind c)); [|done].
    rewrite Forall_forall in IH. apply list_elem_of_In in Hin.
    specialize (IH c Hc arm Hin). lia.
Qed.

Lemma childIndices_child (n c : AstNode) (i : nat) :
  (c, i) ∈ childIndices n → c ∈ Ast.children n.
Proof.
  unfold childIndices. intros Hin.
  apply list_elem_of_filter in Hin as [_ Hin].
  apply elem_of_lookup_imap in Hin as (j & y & Heq & Hl).
  inversion Heq; subst. by eapply list_elem_of_lookup_2.
Qed.

Section totality.
Context (bn : AstNode → string → Build (option Result)).

Lemma buildEach_total (cis : list (AstNode * nat)) path acc ctx :
  (∀ c i p s, (c, i) ∈ cis → is_Some (bn c p s)) →
  is_Some (buildEach bn cis path acc ctx).
Proof.
  revert acc ctx. induction cis as [|[c i] cis IH]; intros acc ctx Hbn; simpl.
  - by eexists.
  - destruct (Hbn c i (path +:+ "-" +:+ pretty i) ctx) as [[r s] ->];
      [by left|]. simpl.
    apply IH. intros c' i' p' s' Hin. apply (Hbn c' i'). by right.
Qed.

Lemma buildChildrenWith_total (n : AstNode) path ctx :
  (∀ c p s, c ∈ Ast.children n → is_Some (bn c p s)) →
  is_Some (buildChildrenWith bn n path ctx).
Proof.
  intros Hbn. unfold buildChildrenWith.
  case_bool_decide; [by eexists|].
  destruct (buildEach_total (childIndices n) path [] ctx) as [[rs s] ->].
  { intros c i p s Hin. apply Hbn. exact (childIndices_child _ _ _ Hin). }
  simpl. destruct rs; by eexists.
Qed.

Lemma buildArms_total (bc : AstNode → string → Build (option Result))
    mid (arms : list AstNode) i path code exs ctx :
  (∀ a p s, a ∈ arms → is_Some (bc a p s)) →
  is_Some (buildArms bc mid arms i path code exs ctx).
Proof.
  revert i exs ctx. induction arms as [|a arms IH]; intros i exs ctx Hbc; simpl.
  - by eexists.
  - destruct (Hbc a (path +:+ "-arm" +:+ pretty i) ctx) as [[r s] ->];
      [by left|]. simpl.
    destruct r; apply IH; intros; apply Hbc; by right.
Qed.
End totality.

Lemma buildNode_total (fuel : nat) code (n : AstNode) path ctx :
  depth n ≤ fuel → is_Some (buildNode fuel code n path ctx).
Proof.
  revert n path ctx. induction fuel as [|fuel IH]; intros n path ctx Hd.
  { destruct n; simpl in Hd; lia. }
  assert (∀ x p s, depth x ≤ S fuel →
            is_Some (buildChildrenWith (buildNode fuel code) x p s)) as Hbc.
  { intros x p s Hx. apply buildChildrenWith_total.
    intros c p' s' Hc. apply IH. apply depth_child in Hc. lia. }
  assert (∀ o p s, (∀ b, o = Some b → b ∈ Ast.children n) →
            is_Some (buildOpt (buildChildrenWith (buildNode fuel code)) o p s))
    as Hopt.
  { intros [b|] p s Hb; simpl; [|by eexists].
    apply Hbc. specialize (Hb b eq_refl). apply depth_child in Hb. lia. }
  simpl.
  destruct (has IF_TYPES _).
  { destruct (Hopt (findBody n) path
        (makeBlock ctx ("if " +:+ match findCondition n with
                                  | Some c => summary c code 48
                                  | None => "condition" end) branch n path
           ["if " +:+ match findCondition n with
                      | Some c => summary c code 48
                      | None => "condition" end]).2) as [[tr s1] Ht];
      [apply findBody_child|].
    simpl in *. rewrite Ht. simpl.
    match goal with |- context [buildOpt ?bc (findElse n) path ?s] =>
      destruct (Hopt (findElse n) path s) as [[fr s2] Hf];
        [apply findElse_child|]; rewrite Hf end.
    simpl. by eexists. }
  destruct (has LOOP_TYPES _).
  { match goal with |- context [buildOpt ?bc (findBody n) path ?s] =>
      destruct (Hopt (findBody n) path s) as [[br s1] Hb];
        [apply findBody_child|]; rewrite Hb end.
    simpl. by eexists. }
  destruct (has MATCH_TYPES _).
  { match goal with |- context [buildArms ?bc ?m ?a ?i ?p ?c ?e ?s] =>
      destruct (buildArms_total bc m a i p c e s) as [[exs s1] Ha];
        [|rewrite Ha] end.
    { intros a p s Ha. apply Hbc. apply findArms_depth in Ha. lia. }
    simpl. by eexists. }
  destruct (has RETURN_TYPES _); [by eexists|].
  destruct (has FUNCTION_TYPES _).
  { match goal with |- context [buildOpt ?bc (findBody n) path ?s] =>
      destruct (Hopt (findBody n) path s) as [[br s1] Hb];
        [apply findBody_child|]; rewrite Hb end.
    simpl. destruct br; by eexists. }
  destruct (_ || _); [apply Hbc; lia|].
  destruct (_ && _); by eexists.
Qed.

Lemma buildChildren_total code (n : AstNode) path ctx :
  is_Some (buildChildren (depth n) code n path ctx).
Proof.
  apply buildChildrenWith_total. intros c p s Hc.
  apply buildNode_total. apply depth_child in Hc. lia.
Qed.

Lemma buildCfg_total (ast : AstNode) (code : string) :
  is_Some (buildCfg ast code).
Proof.
  unfold buildCfg, buildRoot.
  destruct (buildChildren_total code ast "root" (initCtx code)) as [[r s] ->].
  by eexists.
Qed.

(* ================================================================== *)
(** * What a build step adds to the context *)
(* ================================================================== *)

Lemma makeId_inj (n m : nat) : makeId n = makeId m → n = m.
Proof.
  unfold makeId. intros H.
  assert (pretty n = pretty m) as Hp by (by injection H).
  by apply (inj pretty) in Hp.
Qed.

(** [i] is the id of a block of [bs] that is not a terminator. *)
Definition Live (bs : list CfgBlock) (i : string) : Prop :=
  ∃ b, b ∈ bs ∧ id b = i ∧ kind b ≠ return_kind.

Definition EdgeOk (bs : list CfgBlock) (e : CfgEdge) : Prop :=
  Live bs (from e) ∧ to e ∈ (id <$> bs).

(** [Ext s s' bs es]: going from [s] to [s'] appended the blocks [bs], with
    the next sequential ids, and the edges [es], all between blocks of [bs]
    and none leaving a terminator. *)
Record Ext (s s' : BuildCtx) (bs : list CfgBlock) (es : list CfgEdge) : Prop := {
  ext_blocks : ctx_blocks s' = ctx_blocks s ++ bs;
  ext_edges : ctx_edges s' = ctx_edges s ++ es;
  ext_code : ctx_code s' = ctx_code s;
  ext_next : nextBlockId s' = nextBlockId s + length bs;
  ext_ids : id <$> bs = makeId <$> seq (nextBlockId s) (length bs);
  ext_ok : Forall (EdgeOk bs) es;
}.

Definition ResOk1 (bs : list CfgBlock) (r : Result) : Prop :=
  entry r ∈ (id <$> bs) ∧ Forall (Live bs) (exits r).

Definition ResOk (bs : list CfgBlock) (es : list CfgEdge) (r : option Result) : Prop :=
  match r with
  | Some r => ResOk1 bs r
  | None => bs = [] ∧ es = []
  end.

(** No node of the subtree is a branch node. *)
Fixpoint noBranch (n : AstNode) : bool :=
  negb (has IF_TYPES (Ast.kind n)) && forallb noBranch (Ast.children n).

Definition NoBranchBlocks (c : AstNode) (bs : list CfgBlock) : Prop :=
  noBranch c = true → Forall (λ b, kind b ≠ branch) bs.

Definition NodeSpec (bn : AstNode → string → Build (option Result)) : Prop :=
  ∀ c p s r s', bn c p s = Some (r, s') →
    ∃ bs es, Ext s s' bs es ∧ ResOk bs es r ∧ NoBranchBlocks c bs.

Lemma Live_app_l bs1 bs2 i : Live bs1 i → Live (bs1 ++ bs2) i.
Proof.
  intros (b & ? & ? & ?). exists b. split; [|done]. apply elem_of_app. by left.
Qed.

Lemma Live_app_r bs1 bs2 i : Live bs2 i → Live (bs1 ++ bs2) i.
Proof.
  intros (b & ? & ? & ?). exists b. split; [|done]. apply elem_of_app. by right.
Qed.

Lemma Live_id bs i : Live bs i → i ∈ (id <$> bs).
Proof. intros (b & ? & <- & ?). by apply list_elem_of_fmap_2. Qed.

Lemma EdgeOk_app_l bs1 bs2 e : EdgeOk bs1 e → EdgeOk (bs1 ++ bs2) e.
Proof.
  intros [? ?]. split; [by apply Live_app_l|].
  rewrite fmap_app. apply elem_of_app. by left.
Qed.

Lemma EdgeOk_app_r bs1 bs2 e : EdgeOk bs2 e → EdgeOk (bs1 ++ bs2) e.
Proof.
  intros [? ?]. split; [by apply Live_app_r|].
  rewrite fmap_app. apply elem_of_app. by right.
Qed.

Lemma ResOk1_app_l bs1 bs2 r : ResOk1 bs1 r → ResOk1 (bs1 ++ bs2) r.
Proof.
  intros [He Hx]. split; [rewrite fmap_app; apply elem_of_app; by left|].
  eapply Forall_impl; [exact Hx|]. intros; by apply Live_app_l.
Qed.

Lemma ResOk1_app_r bs1 bs2 r : ResOk1 bs2 r → ResOk1 (bs1 ++ bs2) r.
Proof.
  intros [He Hx]. split; [rewrite fmap_app; apply elem_of_app; by right|].
  eapply Forall_impl; [exact Hx|]. intros; by apply Live_app_r.
Qed.

Lemma Ext_refl s : Ext s s [] [].
Proof. split; simpl; rewrite ?app_nil_r; auto. Qed.

Lemma Ext_trans s s1 s2 bs1 es1 bs2 es2 :
  Ext s s1 bs1 es1 → Ext s1 s2 bs2 es2 → Ext s s2 (bs1 ++ bs2) (es1 ++ es2).
Proof.
  intros [Hb1 He1 Hc1 Hn1 Hi1 Ho1] [Hb2 He2 Hc2 Hn2 Hi2 Ho2]. split.
  - by rewrite Hb2, Hb1, app_assoc.
  - by rewrite He2, He1, app_assoc.
  - congruence.
  - rewrite length_app. lia.
  - rewrite fmap_app, length_app, seq_app, fmap_app, Hi1, Hi2, Hn1. done.
  - apply Forall_app. split.
    + eapply Forall_impl; [exact Ho1|]. intros; by apply EdgeOk_app_l.
    + eapply Forall_impl; [exact Ho2|]. intros; by apply EdgeOk_app_r.
Qed.

Lemma Ext_makeBlock s lbl k node path stmts :
  Ext s (makeBlock s lbl k node path stmts).2
      [(makeBlock s lbl k node path stmts).1] [].
Proof. split; simpl; rewrite ?app_nil_r; auto. lia. Qed.

Lemma Ext_addEdge s s1 bs es f t l :
  Ext s s1 bs es → Live bs f → t ∈ (id <$> bs) →
  Ext s (addEdge s1 f t l) bs (es ++ [{| from := f; to := t; edge_label := l |}]).
Proof.
  intros [Hb He Hc Hn Hi Ho] Hf Ht. split; simpl; auto.
  - by rewrite He, app_assoc.
  - apply Forall_app. split; [done|]. by repeat constructor.
Qed.

Lemma Ext_addEdgesFrom s s1 bs es exs t l :
  Ext s s1 bs es → Forall (Live bs) exs → t ∈ (id <$> bs) →
  Ext s (addEdgesFrom s1 exs t l) bs
      (es ++ ((λ ex, {| from := ex; to := t; edge_label := l |}) <$> exs)).
Proof.
  intros Hext Hx Ht. revert s1 es Hext.
  induction Hx as [|ex exs Hex Hx IH]; intros s1 es Hext; simpl.
  - by rewrite app_nil_r.
  - rewrite cons_middle, app_assoc. apply IH. by apply Ext_addEdge.
Qed.

Lemma makeBlock_inv s lbl k node path stmts b s1 :
  makeBlock s lbl k node path stmts = (b, s1) →
  Ext s s1 [b] [] ∧ id b = makeId (nextBlockId s) ∧ kind b = k ∧ label b = lbl.
Proof.
  intros H. pose proof (Ext_makeBlock s lbl k node path stmts) as He.
  rewrite H in He. split; [exact He|]. unfold makeBlock in H.
  by inversion H.
Qed.

Lemma noBranch_child (n c : AstNode) :
  noBranch n = true → c ∈ Ast.children n → noBranch c = true.
Proof.
  destruct n; simpl. intros [_ H]%andb_prop Hc.
  rewrite forallb_forall in H. apply H. by apply list_elem_of_In.
Qed.

Lemma noBranch_arm (n arm : AstNode) :
  noBranch n = true → arm ∈ findArms n → noBranch arm = true.
Proof.
  revert arm. induction n as [k s e sp ep t nm cs IH] using AstNode_ind.
  intros arm Hn Hin. simpl in Hin.
  apply list_elem_of_In, in_flat_map in Hin as (c & Hc & Hin).
  apply list_elem_of_In in Hc.
  pose proof (noBranch_child _ c Hn Hc) as Hcn.
  apply in_app_or in Hin as [Hin|Hin].
  - destruct (has _ _); [|done]. by destruct Hin as [<-|[]].
  - destruct (has _ (Ast.kind c)); [|done].
    rewrite Forall_forall in IH. apply list_elem_of_In in Hin.
    by apply (IH c Hc arm).
Qed.

Section build_spec.
Context (bn : AstNode → string → Build (option Result)).
Context (Hbn : NodeSpec bn).

Lemma buildEach_spec (cis : list (AstNode * nat)) path acc s rs s' :
  buildEach bn cis path acc s = Some (rs, s') →
  ∃ bs es news, Ext s s' bs es ∧ rs = acc ++ news ∧
    Forall (ResOk1 bs) news ∧ (news = [] → bs = [] ∧ es = []) ∧
    ((∀ c i, (c, i) ∈ cis → noBranch c = true) → Forall (λ b, kind b ≠ branch) bs).
Proof.
  revert acc s. induction cis as [|[c i] cis IH]; intros acc s H; simpl in H.
  - inversion H; subst. exists [], [], []. rewrite app_nil_r.
    split_and!; auto using Ext_refl.
  - destruct (bn c _ s) as [[r s1]|] eqn:Hc; simpl in H; [|done].
    apply Hbn in Hc as (bs1 & es1 & Hx1 & Hr1 & Hk1).
    apply IH in H as (bs2 & es2 & news & Hx2 & -> & Hn2 & Hnil & Hk2).
    assert ((∀ c0 i0, (c0, i0) ∈ (c, i) :: cis → noBranch c0 = true) →
            Forall (λ b, kind b ≠ branch) (bs1 ++ bs2)) as Hk.
    { intros Hnb. apply Forall_app. split.
      - apply Hk1. apply (Hnb c i). by left.
      - apply Hk2. intros c0 i0 ?. apply (Hnb c0 i0). by right. }
    destruct r as [r|]; simpl in Hr1.
    + exists (bs1 ++ bs2), (es1 ++ es2), (r :: news).
      split_and!; [by eapply Ext_trans|by rewrite <-app_assoc| |done|done].
      constructor; [by apply ResOk1_app_l|].
      eapply Forall_impl; [exact Hn2|]. intros; by apply ResOk1_app_r.
    + destruct Hr1 as [-> ->]. exists bs2, es2, news.
      split_and!; [by eapply (Ext_trans _ _ _ [] [])|done|done|done|done].
Qed.

Lemma chain_spec s s1 bs es prev rest :
  Ext s s1 bs es → ResOk1 bs prev → Forall (ResOk1 bs) rest →
  ∃ es', Ext s (chain s1 prev rest) bs (es ++ es').
Proof.
  intros Hx Hp Hr. revert s1 es prev Hx Hp.
  induction Hr as [|r rest Hr Hrest IH]; intros s1 es prev Hx Hp; simpl.
  - exists []. by rewrite app_nil_r.
  - destruct (IH (addEdgesFrom s1 (exits prev) (entry r) None)
                (es ++ ((λ ex, {| from := ex; to := entry r; edge_label := None |})
                          <$> exits prev)) r) as [es' He'].
    + apply Ext_addEdgesFrom; [done|apply Hp|apply Hr].
    + done.
    + eexists. rewrite <-app_assoc in He'. exact He'.
Qed.

Lemma buildChildrenWith_spec : NodeSpec (buildChildrenWith bn).
Proof.
  intros n p s r s' H. unfold buildChildrenWith in H.
  case_bool_decide.
  { inversion H; subst. exists [], []. split_and!; [apply Ext_refl|done|].
    intros _. constructor. }
  destruct (buildEach _ _ _ _ _) as [[rs s1]|] eqn:He; simpl in H; [|done].
  apply buildEach_spec in He as (bs & es & news & Hx & -> & Hn & Hnil & Hk).
  assert (NoBranchBlocks n bs) as Hnb.
  { intros Hn'. apply Hk. intros c i Hci.
    eapply noBranch_child; [exact Hn'|]. exact (childIndices_child _ _ _ Hci). }
  simpl in H. destruct news as [|r0 news].
  - inversion H; subst. destruct Hnil as [-> ->]; [done|].
    exists [], []. by split_and!.
  - inversion H; subst; clear H.
    apply Forall_cons in Hn as [Hr0 Hn].
    destruct (chain_spec s s1 bs es r0 news Hx Hr0 Hn) as [es' Hc].
    exists bs, (es ++ es'). split_and!; [done| |done].
    split; simpl; [apply Hr0|].
    assert (ResOk1 bs (List.last news r0)) as Hl.
    { clear -Hr0 Hn. revert r0 Hr0. induction Hn as [|r news Hr Hn IH];
        intros r0 Hr0; simpl; [done|].
      destruct news; [done|]. apply (IH r0 Hr0). }
    apply Hl.
Qed.

Lemma buildArms_spec s0 bs es mid arms i path code exs s exs' s' :
  Ext s0 s bs es → Live bs mid → Forall (Live bs) exs →
  buildArms (buildChildrenWith bn) mid arms i path code exs s = Some (exs', s') →
  ∃ bs' es', Ext s0 s' (bs ++ bs') (es ++ es') ∧ Forall (Live (bs ++ bs')) exs' ∧
    ((∀ a, a ∈ arms → noBranch a = true) → Forall (λ b, kind b ≠ branch) bs').
Proof.
  revert bs es i exs s. induction arms as [|a arms IH];
    intros bs es i exs s Hx Hm Hexs H; simpl in H.
  - inversion H; subst. exists [], []. rewrite !app_nil_r. by split_and!.
  - destruct (buildChildrenWith bn a _ s) as [[r s1]|] eqn:Ha; simpl in H; [|done].
    apply buildChildrenWith_spec in Ha as (bs1 & es1 & Hx1 & Hr1 & Hk1).
    pose proof (Ext_trans _ _ _ _ _ _ _ Hx Hx1) as Hx2.
    destruct r as [r|]; simpl in Hr1.
    + destruct Hr1 as [Hen Hex].
      eapply (IH (bs ++ bs1)) in H as (bs' & es' & Hx' & Hl' & Hk').
      * exists (bs1 ++ bs'), (es1 ++ [{| from := mid; to := entry r;
                                        edge_label := Some (armLabel a i code) |}] ++ es').
        rewrite !app_assoc in *. split_and!; [exact Hx'|exact Hl'|].
        intros Hnb. apply Forall_app. split.
        -- apply Hk1. apply Hnb. by left.
        -- apply Hk'. intros a' ?. apply Hnb. by right.
      * apply Ext_addEdge; [exact Hx2|by apply Live_app_l|].
        rewrite fmap_app. apply elem_of_app. by right.
      * by apply Live_app_l.
      * apply Forall_app. split.
        -- eapply Forall_impl; [exact Hexs|]. intros; by apply Live_app_l.
        -- eapply Forall_impl; [exact Hex|]. intros; by apply Live_app_r.
    + destruct Hr1 as [-> ->]. rewrite !app_nil_r in Hx2.
      eapply (IH bs) in H as (bs' & es' & Hx' & Hl' & Hk'); [|done..].
      exists bs', es'. split_and!; [done..|].
      intros Hnb. apply Hk'. intros a' ?. apply Hnb. by right.
Qed.

Lemma buildOpt_spec (o : option AstNode) p s r s' :
  buildOpt (buildChildrenWith bn) o p s = Some (r, s') →
  ∃ bs es, Ext s s' bs es ∧ ResOk bs es r ∧
    ((∀ b, o = Some b → noBranch b = true) → Forall (λ b, kind b ≠ branch) bs).
Proof.
  destruct o as [b|]; simpl; intros H.
  - apply buildChildrenWith_spec in H as (bs & es & Hx & Hr & Hk).
    exists bs, es. split_and!; [done..|]. intros Hb. apply Hk. by apply Hb.
  - inversion H; subst. exists [], []. split_and!; [apply Ext_refl|done|].
    intros _. constructor.
Qed.
End build_spec.

Lemma Ext_edge_opt s s1 bs es f (tr : option Result) l :
  Ext s s1 bs es → Live bs f → (∀ t, tr = Some t → entry t ∈ (id <$> bs)) →
  ∃ es', Ext s (match tr with
                | Some t => addEdge s1 f (entry t) l
                | None => s1
                end) bs (es ++ es').
Proof.
  intros Hx Hf Ht. destruct tr as [t|].
  - eexists. apply Ext_addEdge; [done..|]. by apply Ht.
  - exists []. by rewrite app_nil_r.
Qed.

Lemma noBranch_kind (c : AstNode) :
  noBranch c = true → has IF_TYPES (Ast.kind c) = false.
Proof. destruct c; simpl. intros [H _]%andb_prop. by apply negb_true_iff. Qed.

#[local] Opaque makeBlock addEdge addEdgesFrom.

Lemma buildNode_spec (fuel : nat) (code : string) : NodeSpec (buildNode fuel code).
Proof.
  induction fuel as [|fuel IH]; intros c p s r s' H; [done|].
  cbn [buildNode] in H.
  assert (∀ b, findBody c = Some b → noBranch c = true → noBranch b = true) as Hbody.
  { intros b Hb Hc. eapply noBranch_child; [exact Hc|by apply findBody_child]. }
  destruct (has IF_TYPES (Ast.kind c)) eqn:Hif.
  { destruct (makeBlock s _ branch c p _) as [bb s1] eqn:Hmb.
    apply makeBlock_inv in Hmb as (Hx0 & Hid & Hkind & _).
    destruct (buildOpt _ (findBody c) p s1) as [[tr s2]|] eqn:Ht; simpl in H; [|done].
    apply (buildOpt_spec _ IH) in Ht as (bs1 & es1 & Hx1 & Hr1 & _).
    pose proof (Ext_trans _ _ _ _ _ _ _ Hx0 Hx1) as Hx2. simpl in Hx2.
    assert (Live (bb :: bs1) (id bb)) as Hlive.
    { exists bb. split_and!; [by left|done|by rewrite Hkind]. }
    destruct (Ext_edge_opt s s2 (bb :: bs1) es1 (id bb) tr (Some "true") Hx2 Hlive)
      as [es1' Hx3].
    { intros t ->. destruct Hr1 as [He _]. by right. }
    destruct (buildOpt _ (findElse c) p _) as [[fr s4]|] eqn:Hf; simpl in H; [|done].
    apply (buildOpt_spec _ IH) in Hf as (bs2 & es2 & Hx4 & Hr2 & _).
    pose proof (Ext_trans _ _ _ _ _ _ _ Hx3 Hx4) as Hx5.
    assert (Live ((bb :: bs1) ++ bs2) (id bb)) as Hlive' by (by apply Live_app_l).
    destruct (Ext_edge_opt s s4 _ _ (id bb) fr (Some "false") Hx5 Hlive')
      as [es2' Hx6].
    { intros t ->. destruct Hr2 as [He _]. rewrite fmap_app.
      apply elem_of_app. by right. }
    inversion H; subst; clear H.
    eexists _, _. split_and!; [exact Hx6| |].
    - split; simpl; [by left|]. apply Forall_app. split.
      + destruct tr as [t|]; [|by repeat constructor].
        destruct Hr1 as [_ Hr1]. eapply Forall_impl; [exact Hr1|].
        intros i Hi. apply (Live_app_l (bb :: bs1) bs2). by apply (Live_app_r [bb]).
      + destruct fr as [f|].
        * destruct Hr2 as [_ Hr2]. eapply Forall_impl; [exact Hr2|].
          intros i Hi. by apply (Live_app_r (bb :: bs1) bs2).
        * destruct (findElse c); by repeat constructor.
    - intros Hnb. apply noBranch_kind in Hnb. congruence. }
  destruct (has LOOP_TYPES (Ast.kind c)) eqn:Hloop.
  { destruct (makeBlock s _ loop c p _) as [lb s1] eqn:Hmb.
    apply makeBlock_inv in Hmb as (Hx0 & Hid & Hkind & _).
    destruct (buildOpt _ (findBody c) p s1) as [[br s2]|] eqn:Hb; simpl in H; [|done].
    apply (buildOpt_spec _ IH) in Hb as (bs1 & es1 & Hx1 & Hr1 & Hk1).
    pose proof (Ext_trans _ _ _ _ _ _ _ Hx0 Hx1) as Hx2. simpl in Hx2.
    assert (Live (lb :: bs1) (id lb)) as Hlive.
    { exists lb. split_and!; [by left|done|by rewrite Hkind]. }
    inversion H; subst; clear H.
    assert (Forall (λ b, kind b ≠ branch) (lb :: bs1) ∨ noBranch c = false) as Hk.
    { destruct (noBranch c) eqn:Hnb; [left|by right].
      constructor; [by rewrite Hkind|]. apply Hk1. intros b Hb. by apply Hbody. }
    destruct br as [b|].
    - destruct Hr1 as [Hen Hex].
      eexists _, _. split_and!.
      + apply Ext_addEdgesFrom; [apply Ext_addEdge; [exact Hx2|exact Hlive|by right]| |].
        * eapply Forall_impl; [exact Hex|]. intros i Hi. by apply (Live_app_r [lb]).
        * by apply Live_id.
      + split; simpl; [by left|by repeat constructor].
      + intros Hnb. destruct Hk; congruence.
    - eexists _, _. split_and!; [exact Hx2| |].
      + split; simpl; [by left|by repeat constructor].
      + intros Hnb. destruct Hk; congruence. }
  destruct (has MATCH_TYPES (Ast.kind c)) eqn:Hmatch.
  { destruct (makeBlock s _ match_kind c p _) as [mb s1] eqn:Hmb.
    apply makeBlock_inv in Hmb as (Hx0 & Hid & Hkind & _).
    destruct (buildArms _ _ _ _ _ _ _ s1) as [[exs s2]|] eqn:Ha; simpl in H; [|done].
    assert (Live [mb] (id mb)) as Hlive.
    { exists mb. split_and!; [by left|done|by rewrite Hkind]. }
    eapply (buildArms_spec _ IH s [mb] []) in Ha as (bs' & es' & Hx' & Hl' & Hk');
      [|done..].
    inversion H; subst; clear H.
    eexists _, _. split_and!; [exact Hx'| |].
    - split; simpl; [by left|]. case_bool_decide; [|done].
      repeat constructor. by apply (Live_app_l [mb] bs').
    - intros Hnb. constructor; [by rewrite Hkind|]. apply Hk'.
      intros a Ha. by eapply noBranch_arm. }
  destruct (has RETURN_TYPES (Ast.kind c)) eqn:Hret.
  { destruct (makeBlock s _ return_kind c p _) as [rb s1] eqn:Hmb.
    apply makeBlock_inv in Hmb as (Hx0 & Hid & Hkind & _).
    inversion H; subst; clear H.
    eexists _, _. split_and!; [exact Hx0| |].
    - split; simpl; [by left|constructor].
    - intros _. constructor; [by rewrite Hkind|constructor]. }
  destruct (has FUNCTION_TYPES (Ast.kind c)) eqn:Hfn.
  { destruct (makeBlock s _ entry_kind c p _) as [eb s1] eqn:Hmb.
    apply makeBlock_inv in Hmb as (Hx0 & Hid & Hkind & _).
    destruct (buildOpt _ (findBody c) p s1) as [[br s2]|] eqn:Hb; simpl in H; [|done].
    apply (buildOpt_spec _ IH) in Hb as (bs1 & es1 & Hx1 & Hr1 & Hk1).
    pose proof (Ext_trans _ _ _ _ _ _ _ Hx0 Hx1) as Hx2. simpl in Hx2.
    assert (Live (eb :: bs1) (id eb)) as Hlive.
    { exists eb. split_and!; [by left|done|by rewrite Hkind]. }
    assert (Forall (λ b, kind b ≠ branch) (eb :: bs1) ∨ noBranch c = false) as Hk.
    { destruct (noBranch c) eqn:Hnb; [left|by right].
      constructor; [by rewrite Hkind|]. apply Hk1. intros b Hb. by apply Hbody. }
    destruct br as [b|].
    - destruct Hr1 as [Hen Hex].
      destruct (makeBlock _ _ exit_kind c p _) as [xb s3] eqn:Hmx.
      apply makeBlock_inv in Hmx as (Hx3 & Hidx & Hkindx & _).
      inversion H; subst; clear H.
      assert (Ext s s3 ((eb :: bs1) ++ [xb])
                ((es1 ++ [{| from := id eb; to := entry b; edge_label := None |}]) ++ []))
        as Hx4.
      { eapply Ext_trans; [|exact Hx3].
        apply Ext_addEdge; [exact Hx2|exact Hlive|by right]. }
      assert (Live ((eb :: bs1) ++ [xb]) (id xb)) as Hlx.
      { apply Live_app_r. exists xb. split_and!; [by left|done|by rewrite Hkindx]. }
      eexists _, _. split_and!.
      + apply Ext_addEdgesFrom; [exact Hx4| |by apply Live_id].
        eapply Forall_impl; [exact Hex|]. intros i Hi.
        apply (Live_app_l (eb :: bs1) [xb]). by apply (Live_app_r [eb]).
      + split; simpl; [by left|]. by repeat constructor.
      + intros Hnb. destruct Hk as [Hk|]; [|congruence].
        apply Forall_app. split; [done|]. constructor; [by rewrite Hkindx|constructor].
    - inversion H; subst; clear H.
      eexists _, _. split_and!; [exact Hx2| |].
      + split; simpl; [by left|by repeat constructor].
      + intros Hnb. destruct Hk; congruence. }
  destruct (_ || _).
  { by apply (buildChildrenWith_spec _ IH) in H. }
  destruct (_ && _).
  { destruct (makeBlock s _ statement c p _) as [sb s1] eqn:Hmb.
    apply makeBlock_inv in Hmb as (Hx0 & Hid & Hkind & _).
    inversion H; subst; clear H.
    eexists _, _. split_and!; [exact Hx0| |].
    - split; simpl; [by left|]. repeat constructor.
      exists sb. split_and!; [by left|done|by rewrite Hkind].
    - intros _. constructor; [by rewrite Hkind|constructor]. }
  inversion H; subst. exists [], []. split_and!; [apply Ext_refl|done|].
  intros _. constructor.
Qed.

Lemma buildChildren_spec (fuel : nat) (code : string) :
  NodeSpec (buildChildren fuel code).
Proof. apply buildChildrenWith_spec, buildNode_spec. Qed.

#[local] Transparent makeBlock addEdge addEdgesFrom.

(* ================================================================== *)
(** * The result of [buildCfg] *)
(* ================================================================== *)

Lemma buildRoot_spec (ast : AstNode) (code : string) :
  ∃ r s, buildRoot ast code = Some (r, s) ∧
    Ext (initCtx code) s (ctx_blocks s) (ctx_edges s) ∧
    ResOk (ctx_blocks s) (ctx_edges s) r ∧
    NoBranchBlocks ast (ctx_blocks s).
Proof.
  destruct (buildChildren_total code ast "root" (initCtx code)) as [[r s] H].
  exists r, s. split; [exact H|].
  apply buildChildren_spec in H as (bs & es & Hx & Hr & Hk).
  pose proof (ext_blocks _ _ _ _ Hx) as Hb.
  pose proof (ext_edges _ _ _ _ Hx) as He.
  simpl in Hb, He. by rewrite Hb, He.
Qed.

Lemma dedup_elem_of (seen : gset string) (es : list CfgEdge) (e : CfgEdge) :
  e ∈ dedup seen es → e ∈ es.
Proof.
  revert seen. induction es as [|e' es IH]; intros seen; simpl; [done|].
  case_bool_decide.
  - intros H'. right. by eapply IH.
  - intros [->|H']%elem_of_cons; [by left|]. right. by eapply IH.
Qed.

(** The [entry] block that [buildCfg] adds when no block has that kind. *)
Definition sentinelOf (ast : AstNode) (s : BuildCtx) : CfgBlock :=
  (makeBlock s "entry" entry_kind ast "root" ["entry"]).1.

Lemma addSentinel_spec (ast : AstNode) (r : option Result) (s : BuildCtx) :
  (addSentinel ast r s = s ∧
     (r = None ∨ ctx_blocks s = [] ∨ ∃ b, b ∈ ctx_blocks s ∧ kind b = entry_kind))
  ∨ (∃ r0, r = Some r0 ∧ ctx_blocks s ≠ [] ∧
       (∀ b, b ∈ ctx_blocks s → kind b ≠ entry_kind) ∧
       ctx_blocks (addSentinel ast r s) = sentinelOf ast s :: ctx_blocks s ∧
       ctx_edges (addSentinel ast r s) =
         ctx_edges s ++ [{| from := id (sentinelOf ast s); to := entry r0;
                            edge_label := None |}]).
Proof.
  unfold addSentinel. destruct r as [r0|]; [|left; auto].
  case_bool_decide as Hlen.
  - destruct (existsb _ _) eqn:Hex.
    + left. split; [done|]. right; right.
      apply existsb_exists in Hex as (b & Hb & Hk).
      exists b. split; [by apply list_elem_of_In|].
      by apply bool_decide_eq_true in Hk.
    + right. exists r0. split_and!; [done| | |simpl..].
      * intros Hnil. rewrite Hnil in Hlen. simpl in Hlen. lia.
      * intros b Hb Hk.
        assert (existsb (λ b, bool_decide (kind b = entry_kind)) (ctx_blocks s) = true)
          as Ht; [|congruence].
        apply existsb_exists. exists b. split; [by apply list_elem_of_In|].
        by apply bool_decide_eq_true.
      * by rewrite removelast_last.
      * done.
  - left. split; [done|]. right; left.
    destruct (ctx_blocks s); [done|]. simpl in Hlen. lia.
Qed.

Lemma NoDup_makeId (a n : nat) : NoDup (makeId <$> seq a n).
Proof.
  apply NoDup_fmap_2; [|apply NoDup_seq].
  intros x y. apply makeId_inj.
Qed.

Lemma makeId_not_in_seq (a n k : nat) :
  makeId k ∈ (makeId <$> seq a n) → a ≤ k < a + n.
Proof.
  intros (j & Hj & Hin)%list_elem_of_fmap. apply makeId_inj in Hj as ->.
  by apply elem_of_seq in Hin.
Qed.

Lemma buildCfg_wf (ast : AstNode) (code : string) :
  ∃ cfg, buildCfg ast code = Some cfg ∧
    NoDup (id <$> blocks cfg) ∧ Forall (EdgeOk (blocks cfg)) (edges cfg).
Proof.
  destruct (buildRoot_spec ast code) as (r & s & Hroot & Hx & Hr & _).
  unfold buildCfg. rewrite Hroot. simpl. eexists. split; [done|]. simpl.
  pose proof (ext_ids _ _ _ _ Hx) as Hids. simpl in Hids.
  pose proof (ext_next _ _ _ _ Hx) as Hnext. simpl in Hnext.
  destruct (addSentinel_spec ast r s) as [[-> _]|(r0 & -> & Hne & Hnoentry & Hb & He)].
  - split; [rewrite Hids; apply NoDup_makeId|].
    apply Forall_forall. intros e He%dedup_elem_of.
    pose proof (ext_ok _ _ _ _ Hx) as Hok. rewrite Forall_forall in Hok. by apply Hok.
  - rewrite Hb, He. split.
    + rewrite fmap_cons. apply NoDup_cons. split; [|rewrite Hids; apply NoDup_makeId].
      rewrite Hids. unfold sentinelOf. simpl. intros Hin%makeId_not_in_seq. lia.
    + apply Forall_forall. intros e [Hin|Hin]%dedup_elem_of%elem_of_app.
      * apply (EdgeOk_app_r [sentinelOf ast s]).
        pose proof (ext_ok _ _ _ _ Hx) as Hok. rewrite Forall_forall in Hok. by apply Hok.
      * apply list_elem_of_singleton in Hin as ->. split; simpl.
        -- exists (sentinelOf ast s). split_and!; [by left|done|done].
        -- right. apply Hr.
Qed.

(** C1. Every edge of the graph returned by [buildCfg] starts and ends at the
    id of a block of that graph: no edge dangles. *)
Theorem buildCfg_no_dangling_edges (ast : AstNode) (code : string) :
  ∃ cfg, buildCfg ast code = Some cfg ∧
    ∀ e, e ∈ edges cfg →
      from e ∈ (id <$> blocks cfg) ∧ to e ∈ (id <$> blocks cfg).
Proof.
  destruct (buildCfg_wf ast code) as (cfg & Hcfg & _ & Hok).
  exists cfg. split; [done|]. intros e He.
  rewrite Forall_forall in Hok. destruct (Hok e He) as [Hf Ht].
  split; [by apply Live_id|done].
Qed.

(* ================================================================== *)
(** * Edge keys of builder-made ids are unambiguous *)
(* ================================================================== *)

(** [ch] does not occur in [s]. *)
Fixpoint charFree (ch : ascii) (s : string) : Prop :=
  match s with
  | EmptyString => True
  | String c r => c ≠ ch ∧ charFree ch r
  end.

Lemma append_nil_l (s : string) : "" +:+ s = s.
Proof. reflexivity. Qed.

Lemma append_cons (c : ascii) (s t : string) :
  String c s +:+ t = String c (s +:+ t).
Proof. reflexivity. Qed.

Lemma append_assoc (s t u : string) : (s +:+ t) +:+ u = s +:+ (t +:+ u).
Proof. induction s as [|c s IH]; [done|]. by rewrite !append_cons, IH. Qed.

Lemma append_split (ch : ascii) (s1 s2 r1 r2 : string) :
  charFree ch s1 → charFree ch s2 →
  s1 +:+ String ch r1 = s2 +:+ String ch r2 → s1 = s2 ∧ r1 = r2.
Proof.
  revert s2. induction s1 as [|c s1 IH]; intros [|c' s2] H1 H2 Heq;
    rewrite ?append_nil_l, ?append_cons in Heq.
  - by inversion Heq.
  - inversion Heq; subst. by destruct H2.
  - inversion Heq; subst. by destruct H1.
  - inversion Heq; subst. destruct H1 as [_ H1], H2 as [_ H2].
    destruct (IH s2 H1 H2) as [-> ->]; done.
Qed.

Lemma pretty_N_go_charFree (ch : ascii) (x : N) (s : string) :
  (∀ d, pretty_N_char d ≠ ch) → charFree ch s → charFree ch (pretty_N_go x s).
Proof.
  intros Hch. revert s. induction (N.lt_wf_0 x) as [x _ IH]; intros s Hs.
  destruct (decide (x = 0)%N) as [->|Hx]; [by rewrite pretty_N_go_0|].
  rewrite pretty_N_go_step by lia. apply IH.
  - apply N.div_lt; lia.
  - split; [apply Hch|done].
Qed.

Lemma pretty_nat_charFree (ch : ascii) (n : nat) :
  (∀ d, pretty_N_char d ≠ ch) → charFree ch (pretty n).
Proof.
  intros Hch. unfold pretty, pretty_nat, pretty, pretty_N.
  case_decide; [|by apply pretty_N_go_charFree].
  split; [|done]. apply (Hch 0%N).
Qed.

Lemma digit_not_dash (d : N) : pretty_N_char d ≠ "-"%char.
Proof. unfold pretty_N_char. by repeat case_match. Qed.

Lemma digit_not_colon (d : N) : pretty_N_char d ≠ ":"%char.
Proof. unfold pretty_N_char. by repeat case_match. Qed.

(** The key of an edge between two builder-made ids determines both ids and
    the label (an absent label and the empty label share a key). *)
Lemma edgeKey_inj (e1 e2 : CfgEdge) (a b c d : nat) :
  from e1 = makeId a → to e1 = makeId b →
  from e2 = makeId c → to e2 = makeId d →
  edgeKey e1 = edgeKey e2 →
  a = c ∧ b = d ∧ default "" (edge_label e1) = default "" (edge_label e2).
Proof.
  unfold edgeKey, makeId. intros -> -> -> -> Heq.
  assert (pretty a +:+ String "-" (">cfg_" +:+ pretty b +:+ ":"
                                     +:+ default "" (edge_label e1))
          = pretty c +:+ String "-" (">cfg_" +:+ pretty d +:+ ":"
                                     +:+ default "" (edge_label e2))) as Heq1.
  { rewrite !append_assoc in Heq. by injection Heq. }
  apply append_split in Heq1 as [Hac Heq2];
    [|apply pretty_nat_charFree, digit_not_dash..].
  assert (pretty b +:+ String ":" (default "" (edge_label e1))
          = pretty d +:+ String ":" (default "" (edge_label e2))) as Heq3.
  { by injection Heq2. }
  apply append_split in Heq3 as [Hbd Hl];
    [|apply pretty_nat_charFree, digit_not_colon..].
  split_and!; [by apply (inj pretty)|by apply (inj pretty)|done].
Qed.

Lemma dedup_filter (P : CfgEdge → Prop) `{!∀ e, Decision (P e)}
    (seen1 seen2 : gset string) (es : list CfgEdge) :
  (∀ e1 e2, e1 ∈ es → e2 ∈ es → edgeKey e1 = edgeKey e2 → P e1 → P e2) →
  (∀ e, e ∈ es → P e → (edgeKey e ∈ seen1 ↔ edgeKey e ∈ seen2)) →
  filter P (dedup seen1 es) = dedup seen2 (filter P es).
Proof.
  revert seen1 seen2. induction es as [|e es IH]; intros seen1 seen2 Hkey Hseen;
    simpl; [done|].
  assert (∀ e1 e2, e1 ∈ es → e2 ∈ es → edgeKey e1 = edgeKey e2 → P e1 → P e2)
    as Hkey' by (intros e1 e2 ? ?; apply Hkey; by right).
  rewrite filter_cons. destruct (decide (P e)) as [HP|HP].
  - simpl. pose proof (Hseen e ltac:(by left) HP) as Hiff.
    case_bool_decide as H1; case_bool_decide as H2; try tauto.
    + apply IH; [done|]. intros e' He' HP'. apply Hseen; [by right|done].
    + rewrite filter_cons_True by done. f_equal. apply IH; [done|].
      intros e' He' HP'. rewrite !elem_of_union, !elem_of_singleton.
      pose proof (Hseen e' ltac:(by right) HP'). tauto.
  - case_bool_decide as H1.
    + apply IH; [done|]. intros e' He' HP'. apply Hseen; [by right|done].
    + rewrite filter_cons_False by done. apply IH; [done|].
      intros e' He' HP'. rewrite elem_of_union, elem_of_singleton.
      pose proof (Hseen e' ltac:(by right) HP') as Hiff.
      split; [intros [Hk|Hk]|intros Hk].
      * exfalso. apply HP. apply (Hkey e' e); [by right|by left|done|done].
      * tauto.
      * right. tauto.
Qed.

(* ================================================================== *)
(** * Sample trees *)
(* ================================================================== *)

Definition origin : Position := {| pos_row := 0; pos_column := 0 |}.

(** A node spanning [s, e) of the source text. *)
Definition node (k : string) (s e : nat) (named : bool) (cs : list AstNode) : AstNode :=
  Ast.mk k s e origin origin None named cs.

(** [return;] as a program with one statement. *)
Definition returnNode : AstNode :=
  node "return_statement" 0 7 true
    [node "return" 0 6 false []; node ";" 6 7 false []].

Definition returnProgram : AstNode := node "program" 0 7 true [returnNode].

(** [x; function f(){}]: a statement followed by a function. *)
Definition stmtThenFunction : AstNode :=
  node "program" 0 17 true
    [node "expression_statement" 0 2 true
       [node "identifier" 0 1 true []; node ";" 1 2 false []];
     node "function_declaration" 3 17 true
       [node "function" 3 11 false [];
        node "identifier" 12 13 true [];
        node "formal_parameters" 13 15 true
          [node "(" 13 14 false []; node ")" 14 15 false []];
        node "statement_block" 15 17 true
          [node "{" 15 16 false []; node "}" 16 17 false []]]].

(* ================================================================== *)
(** * Named children *)
(* ================================================================== *)

Lemma childIndices_fst (n : AstNode) :
  (childIndices n).*1 = filter (λ c, Ast.isNamed c = true) (Ast.children n).
Proof.
  unfold childIndices.
  assert (∀ (l : list AstNode) (g : nat → nat),
    (filter (λ ci : AstNode * nat, Ast.isNamed ci.1 = true)
            (imap (λ i c, (c, g i)) l)).*1
    = filter (λ c, Ast.isNamed c = true) l) as H.
  { induction l as [|c l IH]; intros g; [done|]. simpl.
    rewrite !filter_cons. simpl.
    specialize (IH (g ∘ S)).
    destruct (decide (Ast.isNamed c = true)); simpl; rewrite <-IH; done. }
  apply (H _ (λ i, i)).
Qed.

Lemma childIndices_single (n t : AstNode) :
  filter (λ c, Ast.isNamed c = true) (Ast.children n) = [t] →
  ∃ i, childIndices n = [(t, i)].
Proof.
  intros H. rewrite <-childIndices_fst in H.
  destruct (childIndices n) as [|[c i] [|? ?]]; simplify_eq/=. by exists i.
Qed.

Lemma depth_S (n : AstNode) : ∃ k, depth n = S k.
Proof. destruct n. simpl. by eexists. Qed.

(** The node kinds of the tables are pairwise distinct where the order of
    the tests in [buildNode] matters. *)
Lemma RETURN_not_earlier (k : string) :
  has RETURN_TYPES k = true →
  has IF_TYPES k = false ∧ has LOOP_TYPES k = false ∧ has MATCH_TYPES k = false.
Proof.
  unfold has. intros H%bool_decide_eq_true.
  unfold RETURN_TYPES in H.
  repeat (apply elem_of_cons in H as [->|H]; [by vm_compute|]).
  by apply elem_of_nil in H.
Qed.

Lemma buildChildren_single (n t : AstNode) :
  filter (λ c, Ast.isNamed c = true) (Ast.children n) = [t] →
  ∃ i : nat, ∀ fuel code path s,
    buildChildren fuel code n path s =
    buildNode fuel code t (path +:+ "-" +:+ pretty i) s.
Proof.
  intros Hn. destruct (childIndices_single n t Hn) as [i Hi]. exists i.
  intros fuel code path s.
  unfold buildChildren, buildChildrenWith. rewrite Hn, Hi. simpl.
  destruct (buildNode fuel code t _ s) as [[[[en ex]|] s']|]; done.
Qed.

(** C2, as amended. A tree whose only named child is a terminator node yields
    two blocks, the synthetic entry block followed by one block of kind
    [return], and exactly one edge: the unlabeled edge from the entry block
    to the terminator. *)
Theorem buildCfg_single_terminator (ast t : AstNode) (code : string) :
  filter (λ c, Ast.isNamed c = true) (Ast.children ast) = [t] →
  has RETURN_TYPES (Ast.kind t) = true →
  ∃ e rb,
    buildCfg ast code =
      Some {| blocks := [e; rb];
              edges := [{| from := id e; to := id rb; edge_label := None |}] |} ∧
    kind e = entry_kind ∧ label e = "entry" ∧ id e = "cfg_1" ∧
    kind rb = return_kind ∧ id rb = "cfg_0".
Proof.
  intros Hn Hret.
  destruct (RETURN_not_earlier _ Hret) as (Hif & Hloop & Hmatch).
  destruct (buildChildren_single ast t Hn) as [i Hb].
  destruct (depth_S ast) as [k Hk].
  unfold buildCfg, buildRoot. rewrite Hb, Hk. cbn [buildNode].
  rewrite Hif, Hloop, Hmatch, Hret.
  eexists _, _. split; [reflexivity|]. by split_and!.
Qed.

Lemma buildCfg_single_terminator_witness :
  ∃ e rb,
    buildCfg returnProgram "return;" =
      Some {| blocks := [e; rb];
              edges := [{| from := id e; to := id rb; edge_label := None |}] |} ∧
    kind e = entry_kind ∧ label e = "entry" ∧ id e = "cfg_1" ∧
    kind rb = return_kind ∧ id rb = "cfg_0".
Proof.
  apply (buildCfg_single_terminator returnProgram returnNode).
  - reflexivity.
  - reflexivity.
Defined.

(** C2, as stated, fails: for the program [return;] the graph has one edge
    (from the synthetic entry block to the terminator), not zero; and when
    the terminator node itself is given as the tree, the graph has no block
    at all. *)
Lemma buildCfg_single_terminator_counterexample :
  ¬ (∃ cfg, buildCfg returnProgram "return;" = Some cfg ∧
        length (filter (λ b, kind b = return_kind) (blocks cfg)) = 1 ∧
        length (edges cfg) = 0)
  ∧ ¬ (∃ cfg, buildCfg returnNode "return;" = Some cfg ∧
        length (filter (λ b, kind b = return_kind) (blocks cfg)) = 1 ∧
        length (edges cfg) = 0).
Proof.
  split; intros (cfg & H & Hb & He); vm_compute in H; inversion H; subst;
    vm_compute in Hb, He; discriminate.
Qed.

(** The terminator rule: one block of kind [return], and no exits. *)
Lemma buildNode_terminator (fuel : nat) (code : string) (n : AstNode) (path : string)
    (s : BuildCtx) :
  has RETURN_TYPES (Ast.kind n) = true →
  ∃ rb s', buildNode (S fuel) code n path s =
             Some (Some {| entry := id rb; exits := [] |}, s') ∧
    kind rb = return_kind ∧ id rb = makeId (nextBlockId s) ∧
    ctx_blocks s' = ctx_blocks s ++ [rb] ∧ ctx_edges s' = ctx_edges s.
Proof.
  intros Hret. destruct (RETURN_not_earlier _ Hret) as (Hif & Hloop & Hmatch).
  cbn [buildNode]. rewrite Hif, Hloop, Hmatch, Hret.
  eexists _, _. split; [reflexivity|]. by split_and!.
Qed.

(** C8. In the graph returned by [buildCfg] no edge leaves a block of kind
    [return]: whenever a block's id is the [from] of an edge, the block is
    not a terminator.  This holds by construction: a terminator node yields
    one [return] block with an empty list of exits and adds no edge. *)
Theorem buildCfg_return_no_out_edges (ast : AstNode) (code : string) :
  (∃ cfg, buildCfg ast code = Some cfg ∧
     ∀ e b, e ∈ edges cfg → b ∈ blocks cfg → id b = from e →
       kind b ≠ return_kind) ∧
  (∀ fuel n path s, has RETURN_TYPES (Ast.kind n) = true →
     ∃ rb s', buildNode (S fuel) code n path s =
                Some (Some {| entry := id rb; exits := [] |}, s') ∧
       kind rb = return_kind ∧ ctx_edges s' = ctx_edges s).
Proof.
  split.
  - destruct (buildCfg_wf ast code) as (cfg & Hcfg & Hnd & Hok).
    exists cfg. split; [done|]. intros e b He Hb Hid.
    rewrite Forall_forall in Hok. destruct (Hok e He) as [(b' & Hb' & Hid' & Hk) _].
    assert (b = b') as ->; [|done].
    apply list_elem_of_lookup in Hb as [i Hi].
    apply list_elem_of_lookup in Hb' as [j Hj].
    assert (i = j) as ->.
    { eapply NoDup_lookup; [exact Hnd| |]; rewrite list_lookup_fmap.
      - by rewrite Hi.
      - rewrite Hj. simpl. congruence. }
    congruence.
  - intros fuel n path s Hret.
    destruct (buildNode_terminator fuel code n path s Hret)
      as (rb & s' & Hb & Hk & _ & _ & He).
    by exists rb, s'.
Qed.

Lemma filter_none {A} (P : A → Prop) `{!∀ x, Decision (P x)} (l : list A) :
  Forall (λ x, ¬ P x) l → filter P l = [].
Proof.
  induction 1 as [|x l Hx Hl IH]; [done|]. by rewrite filter_cons_False.
Qed.

Lemma dedup_keeps (seen : gset string) (es : list CfgEdge) (e : CfgEdge) :
  e ∈ es → (∀ e', e' ∈ es → edgeKey e' = edgeKey e → e' = e) →
  edgeKey e ∉ seen → e ∈ dedup seen es.
Proof.
  revert seen. induction es as [|e' es IH]; intros seen Hin Huniq Hseen; simpl.
  { by apply elem_of_nil in Hin. }
  assert (∀ e'', e'' ∈ es → edgeKey e'' = edgeKey e → e'' = e) as Huniq'
    by (intros; apply Huniq; [by right|done]).
  destruct (decide (edgeKey e' = edgeKey e)) as [Hk|Hk].
  - rewrite (Huniq e') by (by left || done).
    rewrite bool_decide_eq_false_2 by done. by left.
  - apply elem_of_cons in Hin as [->|Hin]; [done|].
    case_bool_decide.
    + by apply IH.
    + right. apply IH; [done..|].
      rewrite elem_of_union, elem_of_singleton. intros [?|?]; congruence.
Qed.

(** The ids of the blocks of a root build are [cfg_0 .. cfg_(n-1)], in order. *)
Lemma buildRoot_ids (ast : AstNode) (code : string) r s :
  buildRoot ast code = Some (r, s) →
  id <$> ctx_blocks s = makeId <$> seq 0 (length (ctx_blocks s)) ∧
  nextBlockId s = length (ctx_blocks s) ∧
  Forall (EdgeOk (ctx_blocks s)) (ctx_edges s) ∧
  ResOk (ctx_blocks s) (ctx_edges s) r.
Proof.
  intros H. destruct (buildRoot_spec ast code) as (r' & s' & H' & Hx & Hr & _).
  rewrite H in H'. inversion H'; subst r' s'; clear H'.
  split_and!; [apply (ext_ids _ _ _ _ Hx)|apply (ext_next _ _ _ _ Hx)
              |apply (ext_ok _ _ _ _ Hx)|done].
Qed.

Lemma seq_ids_elem (bs : list CfgBlock) (i : string) :
  id <$> bs = makeId <$> seq 0 (length bs) →
  i ∈ (id <$> bs) → ∃ a, i = makeId a ∧ a < length bs.
Proof.
  intros -> (a & -> & Ha)%list_elem_of_fmap. exists a. split; [done|].
  apply elem_of_seq in Ha. lia.
Qed.

(** C3, as amended. When the tree yields at least one block: if none of the
    blocks built from the tree is of kind [entry], a synthetic block labeled
    "entry" is created, wired to the entry of the root result, and placed at
    index 0, and it is then the only [entry] block; if some block was
    classified as [entry], no block is added and the blocks stay in
    construction order. *)
Theorem buildCfg_entry_sentinel (ast : AstNode) (code : string)
    (r : option Result) (s : BuildCtx) :
  buildRoot ast code = Some (r, s) →
  ctx_blocks s ≠ [] →
  ∃ cfg, buildCfg ast code = Some cfg ∧
    ((∀ b, b ∈ ctx_blocks s → kind b ≠ entry_kind) →
       ∃ e r0, r = Some r0 ∧
         blocks cfg = e :: ctx_blocks s ∧
         kind e = entry_kind ∧ label e = "entry" ∧
         {| from := id e; to := entry r0; edge_label := None |} ∈ edges cfg ∧
         filter (λ b, kind b = entry_kind) (blocks cfg) = [e]) ∧
    ((∃ b, b ∈ ctx_blocks s ∧ kind b = entry_kind) →
       blocks cfg = ctx_blocks s).
Proof.
  intros Hroot Hne.
  destruct (buildRoot_ids ast code r s Hroot) as (Hids & Hnext & Hok & Hr).
  unfold buildCfg. rewrite Hroot. simpl. eexists. split; [done|]. simpl.
  destruct (addSentinel_spec ast r s)
    as [[-> Hcase]|(r0 & -> & _ & Hnoentry & Hb & He)].
  - split.
    + intros Hno. exfalso. destruct Hcase as [->|[?|(b & Hb & Hk)]]; [|done|].
      * destruct Hr as [Hnil _]. done.
      * by apply (Hno b).
    + done.
  - split.
    + intros _. exists (sentinelOf ast s), r0.
      split_and!; [done|done|done|done| |].
      * rewrite He. apply dedup_keeps.
        -- apply elem_of_app. right. by left.
        -- intros e' [Hin|Hin]%elem_of_app Hkey.
           ++ exfalso. rewrite Forall_forall in Hok.
              destruct (Hok e' Hin) as [Hf Ht].
              apply Live_id in Hf.
              apply (seq_ids_elem _ _ Hids) in Hf as (a & Hfa & Ha).
              apply (seq_ids_elem _ _ Hids) in Ht as (b & Htb & _).
              destruct Hr as [Hen _].
              apply (seq_ids_elem _ _ Hids) in Hen as (d & Hd & _).
              eapply (edgeKey_inj e' _ a b (nextBlockId s) d) in Hkey
                as (Han & _); [|done|done|done|simpl; done].
              lia.
           ++ by apply list_elem_of_singleton in Hin.
        -- apply not_elem_of_empty.
      * rewrite Hb. rewrite filter_cons_True by done. f_equal.
        apply filter_none. apply Forall_forall. intros b Hin. by apply Hnoentry.
    + intros (b & Hin & Hk). exfalso. by apply (Hnoentry b).
Qed.

Lemma buildCfg_entry_sentinel_witness :
  ∃ cfg, buildCfg returnProgram "return;" = Some cfg ∧
    ∃ e, blocks cfg !! 0 = Some e ∧ kind e = entry_kind ∧ label e = "entry".
Proof.
  destruct (buildRoot returnProgram "return;") as [[r s]|] eqn:Hroot;
    [|by vm_compute in Hroot].
  assert (ctx_blocks s ≠ []) as Hne.
  { vm_compute in Hroot. by inversion Hroot. }
  destruct (buildCfg_entry_sentinel returnProgram "return;" r s Hroot Hne)
    as (cfg & Hcfg & Hsyn & _).
  exists cfg. split; [exact Hcfg|].
  destruct Hsyn as (e & r0 & _ & Hb & Hk & Hl & _).
  { vm_compute in Hroot. inversion Hroot; subst.
    intros b [->|[]%elem_of_nil]%elem_of_cons. done. }
  exists e. by rewrite Hb.
Defined.

(** C3, as stated, fails: for [x; function f(){}] the function node yields an
    [entry] block, so no synthetic one is added, and the block at index 0 is
    the statement block of [x]. *)
Lemma buildCfg_entry_sentinel_counterexample :
  ¬ (∃ cfg b, buildCfg stmtThenFunction "x; function f(){}" = Some cfg ∧
        blocks cfg ≠ [] ∧ blocks cfg !! 0 = Some b ∧ kind b = entry_kind).
Proof.
  intros (cfg & b & H & _ & Hb & Hk). vm_compute in H. inversion H; subst.
  simpl in Hb. inversion Hb; subst. discriminate.
Qed.

(** The block ids increase along the list. *)
Definition ascendingIds (bs : list CfgBlock) : Prop :=
  ∃ ns : list nat, id <$> bs = makeId <$> ns ∧
    ∀ i j a b, i < j → ns !! i = Some a → ns !! j = Some b → a < b.

(** C10. Whenever [buildCfg] synthesizes the entry block (the tree yields
    blocks, none of kind [entry]), that block carries the largest id of the
    build, [cfg_n] for [n] other blocks, yet it is the first block of the
    graph; the other blocks follow in construction order with ids
    [cfg_0 .. cfg_(n-1)].  The blocks are then not in ascending id order. *)
Theorem buildCfg_blocks_not_in_id_order (ast : AstNode) (code : string)
    (r : option Result) (s : BuildCtx) :
  buildRoot ast code = Some (r, s) →
  ctx_blocks s ≠ [] →
  (∀ b, b ∈ ctx_blocks s → kind b ≠ entry_kind) →
  ∃ cfg e n, buildCfg ast code = Some cfg ∧
    blocks cfg = e :: ctx_blocks s ∧
    n = length (ctx_blocks s) ∧ 0 < n ∧
    id e = makeId n ∧
    id <$> ctx_blocks s = makeId <$> seq 0 n ∧
    ¬ ascendingIds (blocks cfg).
Proof.
  intros Hroot Hne Hno.
  destruct (buildRoot_ids ast code r s Hroot) as (Hids & Hnext & Hok & Hr).
  unfold buildCfg. rewrite Hroot. simpl.
  destruct (addSentinel_spec ast r s)
    as [[_ Hcase]|(r0 & -> & _ & _ & Hb & He)].
  { exfalso. destruct Hcase as [->|[?|(b & Hb & Hk)]]; [|done|].
    - destruct Hr as [? _]. done.
    - by apply (Hno b). }
  assert (0 < length (ctx_blocks s)) as Hlen.
  { destruct (ctx_blocks s); [done|simpl; lia]. }
  remember (addSentinel ast (Some r0) s) as s2 eqn:Hs2. clear Hs2.
  eexists _, (sentinelOf ast s), (length (ctx_blocks s)). split; [done|]. simpl.
  split_and!; [exact Hb|done|exact Hlen|by rewrite <-Hnext|exact Hids|].
  intros (ns & Hns & Hasc). rewrite Hb in Hns.
  rewrite fmap_cons, Hids in Hns.
  destruct ns as [|a [|b ns]]; simpl in Hns.
  - done.
  - destruct (ctx_blocks s); simpl in *; [lia|done].
  - destruct (length (ctx_blocks s)) as [|m] eqn:Hm; [lia|].
    simpl in Hns.
    assert (makeId (nextBlockId s) = makeId a) as Ha by congruence.
    assert (makeId 0 = makeId b) as Hb0 by congruence.
    apply makeId_inj in Ha. apply makeId_inj in Hb0.
    specialize (Hasc 0 1 a b). simpl in Hasc.
    specialize (Hasc ltac:(lia) eq_refl eq_refl). lia.
Qed.

Lemma buildCfg_blocks_not_in_id_order_witness :
  ∃ cfg, buildCfg returnProgram "return;" = Some cfg ∧
    ¬ ascendingIds (blocks cfg).
Proof.
  destruct (buildRoot returnProgram "return;") as [[r s]|] eqn:Hroot;
    [|by vm_compute in Hroot].
  assert (ctx_blocks s ≠ []) as Hne.
  { vm_compute in Hroot. by inversion Hroot. }
  assert (∀ b, b ∈ ctx_blocks s → kind b ≠ entry_kind) as Hno.
  { vm_compute in Hroot. inversion Hroot; subst.
    intros b [->|[]%elem_of_nil]%elem_of_cons. done. }
  destruct (buildCfg_blocks_not_in_id_order returnProgram "return;" r s
              Hroot Hne Hno) as (cfg & e & n & Hcfg & _ & _ & _ & _ & _ & Hasc).
  exists cfg. by split.
Defined.

(* ================================================================== *)
(** * Loops *)
(* ================================================================== *)

(** A node that falls through to the default rule of [buildNode]: its kind is
    in none of the tables, it is not container-like, it is named and it is
    not a comment. *)
Definition leafStatement (n : AstNode) : bool :=
  negb (has IF_TYPES (Ast.kind n)) && negb (has LOOP_TYPES (Ast.kind n))
  && negb (has MATCH_TYPES (Ast.kind n)) && negb (has RETURN_TYPES (Ast.kind n))
  && negb (has FUNCTION_TYPES (Ast.kind n))
  && negb (has CONTAINER_TYPES (Ast.kind n) || isContainerLike n)
  && (Ast.isNamed n && negb (bool_decide (Ast.kind n = "comment"))).

(** [while (x) { debugger; }]. *)
Definition debuggerNode : AstNode :=
  node "debugger_statement" 12 21 true
    [node "debugger" 12 20 false []; node ";" 20 21 false []].

Definition whileBody : AstNode :=
  node "statement_block" 10 23 true
    [node "{" 10 11 false []; debuggerNode; node "}" 22 23 false []].

Definition whileNode : AstNode :=
  node "while_statement" 0 23 true
    [node "while" 0 5 false [];
     node "parenthesized_expression" 6 9 true
       [node "(" 6 7 false []; node "identifier" 7 8 true []; node ")" 8 9 false []];
     whileBody].

Definition whileProgram : AstNode := node "program" 0 23 true [whileNode].

Lemma LOOP_not_IF (k : string) :
  has LOOP_TYPES k = true → has IF_TYPES k = false.
Proof.
  unfold has. intros H%bool_decide_eq_true.
  unfold LOOP_TYPES in H.
  repeat (apply elem_of_cons in H as [->|H]; [by vm_compute|]).
  by apply elem_of_nil in H.
Qed.

Lemma named_child (n c : AstNode) :
  filter (λ c, Ast.isNamed c = true) (Ast.children n) = [c] → c ∈ Ast.children n.
Proof.
  intros H. assert (c ∈ filter (λ c, Ast.isNamed c = true) (Ast.children n)) as Hin
    by (rewrite H; by left).
  by apply list_elem_of_filter in Hin as [_ ?].
Qed.

Lemma addEdgesFrom_blocks (s : BuildCtx) exs t l :
  ctx_blocks (addEdgesFrom s exs t l) = ctx_blocks s.
Proof. revert s. induction exs as [|ex exs IH]; intros s; simpl; [done|by rewrite IH]. Qed.

Lemma addEdgesFrom_edges (s : BuildCtx) exs t l :
  ctx_edges (addEdgesFrom s exs t l) =
  ctx_edges s ++ ((λ ex, {| from := ex; to := t; edge_label := l |}) <$> exs).
Proof.
  revert s. induction exs as [|ex exs IH]; intros s; simpl.
  - by rewrite app_nil_r.
  - rewrite IH. simpl. by rewrite <-app_assoc.
Qed.

(** Unfolding equations of [buildNode] for the rules used below. *)
Lemma buildNode_loop_eq (fuel : nat) (code : string) (n : AstNode) (path : string)
    (s : BuildCtx) :
  has LOOP_TYPES (Ast.kind n) = true →
  buildNode (S fuel) code n path s =
    let condText := match findCondition n with
                    | Some c => summary c code 48
                    | None => ""
                    end in
    let keyword := if String.prefix "for" (Ast.kind n) then "for" else "while" in
    let loopLabel := if truthy condText then keyword +:+ " " +:+ condText else keyword in
    let '(loopBlock, ctx) := makeBlock s loopLabel loop n path [loopLabel] in
    '(bodyResult, ctx) ← buildOpt (buildChildren fuel code) (findBody n) path ctx;
    let ctx := match bodyResult with
               | Some b =>
                   let ctx := addEdge ctx (id loopBlock) (entry b) (Some "body") in
                   addEdgesFrom ctx (exits b) (id loopBlock) (Some "next")
               | None => ctx
               end in
    Some (Some {| entry := id loopBlock; exits := [id loopBlock] |}, ctx).
Proof.
  intros Hloop. pose proof (LOOP_not_IF _ Hloop) as Hif.
  cbn [buildNode]. by rewrite Hif, Hloop.
Qed.

Lemma buildNode_leaf_eq (fuel : nat) (code : string) (n : AstNode) (path : string)
    (s : BuildCtx) :
  leafStatement n = true →
  buildNode (S fuel) code n path s =
    let '(block, ctx) :=
      makeBlock s (summary n code 48) statement n path [summary n code 48] in
    Some (Some {| entry := id block; exits := [id block] |}, ctx).
Proof.
  intros Hleaf. unfold leafStatement in Hleaf.
  repeat (apply andb_prop in Hleaf as [Hleaf ?]).
  repeat match goal with H : negb _ = true |- _ => apply negb_true_iff in H end.
  cbn [buildNode].
  repeat match goal with H : _ = false |- _ => rewrite H end.
  by match goal with H : _ && _ = true |- _ => rewrite H end.
Qed.

(** The loop rule: the construct's exits are the loop header alone. *)
Lemma buildNode_loop (fuel : nat) (code : string) (n : AstNode) (path : string)
    (s : BuildCtx) :
  has LOOP_TYPES (Ast.kind n) = true → depth n ≤ fuel →
  ∃ lb s', buildNode fuel code n path s =
             Some (Some {| entry := id lb; exits := [id lb] |}, s') ∧
    id lb = makeId (nextBlockId s) ∧ kind lb = loop ∧ lb ∈ ctx_blocks s'.
Proof.
  intros Hloop Hd. pose proof (LOOP_not_IF _ Hloop) as Hif.
  destruct (buildNode_total fuel code n path s Hd) as [[r s'] H].
  destruct fuel as [|fuel]; [done|].
  rewrite H. cbn [buildNode] in H. rewrite Hif, Hloop in H.
  destruct (makeBlock s _ loop n path _) as [lb s1] eqn:Hmb.
  destruct (buildOpt _ (findBody n) path s1) as [[br s2]|] eqn:Hb; simpl in H; [|done].
  apply (buildOpt_spec _ (buildNode_spec fuel code)) in Hb as (bs & es & Hx & _).
  pose proof Hmb as Hmb'. apply makeBlock_inv in Hmb' as (Hx0 & Hid & Hk & _).
  inversion H; subst r s'; clear H. exists lb. eexists. split; [done|].
  split_and!; [done..|].
  assert (lb ∈ ctx_blocks s2) as Hin.
  { rewrite (ext_blocks _ _ _ _ Hx), (ext_blocks _ _ _ _ Hx0).
    apply elem_of_app. left. apply elem_of_app. right. by left. }
  destruct br as [b|]; [|done].
  by rewrite addEdgesFrom_blocks.
Qed.

#[local] Opaque dedup.

(** C7. A tree whose only statement is a loop whose body holds one leaf
    statement yields the synthetic entry block, one [loop] block and the
    statement block, with one edge labeled "body" from the loop block to the
    statement block and one edge labeled "next" back (and the edge from the
    entry block to the loop block).  And for every loop node the result of
    [buildNode] has the loop header as its only exit. *)
Theorem buildCfg_single_loop (ast lp body st : AstNode) (code : string) :
  filter (λ c, Ast.isNamed c = true) (Ast.children ast) = [lp] →
  has LOOP_TYPES (Ast.kind lp) = true →
  findBody lp = Some body →
  filter (λ c, Ast.isNamed c = true) (Ast.children body) = [st] →
  leafStatement st = true →
  (∃ cfg e lb sb,
     buildCfg ast code = Some cfg ∧
     blocks cfg = [e; lb; sb] ∧
     edges cfg = [{| from := id lb; to := id sb; edge_label := Some "body" |};
                  {| from := id sb; to := id lb; edge_label := Some "next" |};
                  {| from := id e; to := id lb; edge_label := None |}] ∧
     kind e = entry_kind ∧ kind lb = loop ∧ kind sb = statement) ∧
  (∀ fuel n path s,
     has LOOP_TYPES (Ast.kind n) = true → depth n ≤ fuel →
     ∃ lb s', buildNode fuel code n path s =
                Some (Some {| entry := id lb; exits := [id lb] |}, s') ∧
       id lb = makeId (nextBlockId s) ∧ kind lb = loop ∧ lb ∈ ctx_blocks s').
Proof.
  intros Hast Hloop Hbody Hst Hleaf.
  split; [|intros; by apply buildNode_loop].
  destruct (buildChildren_single ast lp Hast) as [i Hb].
  destruct (buildChildren_single body st Hst) as [j Hbs].
  assert (depth st < depth body) as Hd1 by (by apply depth_child, named_child).
  assert (depth body < depth lp) as Hd2 by (by apply depth_child, findBody_child).
  assert (depth lp < depth ast) as Hd3 by (by apply depth_child, named_child).
  unfold buildCfg, buildRoot.
  destruct (depth ast) as [|[|k]] eqn:Hk; [lia..|].
  rewrite Hb, buildNode_loop_eq, Hbody by done. simpl.
  rewrite Hbs, buildNode_leaf_eq by done.
  unfold makeBlock, addSentinel, addEdgesFrom, addEdge; simpl.
  match goal with |- context [dedup ∅ ?l] =>
    replace (dedup ∅ l) with l by (by vm_compute) end.
  eexists _, _, _, _. split; [reflexivity|]. split; [reflexivity|]. by split_and!.
Qed.

#[local] Transparent dedup.

Lemma buildCfg_single_loop_witness :
  ∃ cfg e lb sb,
     buildCfg whileProgram "while (x) { debugger; }" = Some cfg ∧
     blocks cfg = [e; lb; sb] ∧
     edges cfg = [{| from := id lb; to := id sb; edge_label := Some "body" |};
                  {| from := id sb; to := id lb; edge_label := Some "next" |};
                  {| from := id e; to := id lb; edge_label := None |}] ∧
     kind e = entry_kind ∧ kind lb = loop ∧ kind sb = statement.
Proof.
  refine (proj1 (buildCfg_single_loop whileProgram whileNode whileBody debuggerNode
                   "while (x) { debugger; }" _ _ _ _ _)); reflexivity.
Defined.

(* ================================================================== *)
(** * Which nodes yield blocks *)
(* ================================================================== *)

(** Whether [buildNode] returns a result for a node (rather than [null]);
    this depends on the shape of the tree only. *)
Fixpoint yields (n : AstNode) : bool :=
  has IF_TYPES (Ast.kind n) || has LOOP_TYPES (Ast.kind n)
  || has MATCH_TYPES (Ast.kind n) || has RETURN_TYPES (Ast.kind n)
  || has FUNCTION_TYPES (Ast.kind n)
  || (if has CONTAINER_TYPES (Ast.kind n) || isContainerLike n
      then existsb (λ c, Ast.isNamed c && yields c) (Ast.children n)
      else Ast.isNamed n && negb (bool_decide (Ast.kind n = "comment"))).

(** Whether [buildChildren] returns a result for a node. *)
Definition yieldsChildren (n : AstNode) : bool :=
  existsb (λ c, Ast.isNamed c && yields c) (Ast.children n).

Lemma yields_eq (n : AstNode) :
  yields n =
    (has IF_TYPES (Ast.kind n) || has LOOP_TYPES (Ast.kind n)
     || has MATCH_TYPES (Ast.kind n) || has RETURN_TYPES (Ast.kind n)
     || has FUNCTION_TYPES (Ast.kind n)
     || (if has CONTAINER_TYPES (Ast.kind n) || isContainerLike n
         then yieldsChildren n
         else Ast.isNamed n && negb (bool_decide (Ast.kind n = "comment")))).
Proof. by destruct n. Qed.

Definition YieldSpec (bn : AstNode → string → Build (option Result)) : Prop :=
  ∀ c p s r s', bn c p s = Some (r, s') → (is_Some r ↔ yields c = true).

Lemma existsb_childIndices (n : AstNode) :
  existsb (λ ci : AstNode * nat, yields ci.1) (childIndices n) = yieldsChildren n.
Proof.
  unfold yieldsChildren.
  transitivity (existsb yields (childIndices n).*1).
  { induction (childIndices n) as [|[c i] l IH]; [done|]. simpl. by rewrite IH. }
  rewrite childIndices_fst.
  induction (Ast.children n) as [|c l IH]; [done|].
  rewrite filter_cons. simpl. destruct (decide (Ast.isNamed c = true)) as [Hc|Hc].
  - simpl. by rewrite Hc, IH.
  - apply not_true_is_false in Hc. by rewrite Hc.
Qed.

Section yield_spec.
Context (bn : AstNode → string → Build (option Result)).
Context (Hbn : YieldSpec bn).

Lemma buildEach_yields (cis : list (AstNode * nat)) path acc s rs s' :
  buildEach bn cis path acc s = Some (rs, s') →
  ∃ news, rs = acc ++ news ∧
    (news ≠ [] ↔ existsb (λ ci : AstNode * nat, yields ci.1) cis = true).
Proof.
  revert acc s. induction cis as [|[c i] cis IH]; intros acc s H; simpl in H.
  - inversion H; subst. exists []. rewrite app_nil_r. split; [done|]. simpl.
    split; [done|discriminate].
  - destruct (bn c _ s) as [[r s1]|] eqn:Hc; simpl in H; [|done].
    apply Hbn in Hc. apply IH in H as (news & -> & Hnews). simpl.
    destruct r as [r|].
    + exists (r :: news). rewrite <-app_assoc. split; [done|].
      destruct Hc as [Hc _]. rewrite Hc by (by eexists). simpl. split; [done|].
      discriminate.
    + exists news. split; [done|].
      destruct (yields c) eqn:Hy; simpl; [|done].
      destruct Hc as [_ Hc]. destruct (Hc eq_refl) as [? ?]. done.
Qed.

Lemma buildChildrenWith_yields (n : AstNode) p s r s' :
  buildChildrenWith bn n p s = Some (r, s') →
  (is_Some r ↔ yieldsChildren n = true).
Proof.
  unfold buildChildrenWith. intros H.
  case_bool_decide as Hlen.
  - inversion H; subst.
    assert (yieldsChildren n = false) as ->.
    { rewrite <-existsb_childIndices.
      pose proof (childIndices_fst n) as Hf.
      apply nil_length_inv in Hlen. rewrite Hlen in Hf.
      destruct (childIndices n); [done|discriminate]. }
    split; [intros [? ?]; done|discriminate].
  - destruct (buildEach _ _ _ _ _) as [[rs s1]|] eqn:He; simpl in H; [|done].
    apply buildEach_yields in He as (news & -> & Hnews).
    rewrite existsb_childIndices in Hnews. simpl in H.
    destruct news as [|r0 news]; inversion H; subst.
    + split; [intros [? ?]; done|]. intros Hy. apply Hnews in Hy. done.
    + split; [intros _|by eexists]. by apply Hnews.
Qed.
End yield_spec.

Lemma buildNode_yields (fuel : nat) (code : string) : YieldSpec (buildNode fuel code).
Proof.
  induction fuel as [|fuel IH]; intros c p s r s' H; [done|].
  rewrite yields_eq. cbn [buildNode] in H.
  destruct (has IF_TYPES (Ast.kind c)).
  { destruct (makeBlock s _ branch c p _) as [bb s1].
    destruct (buildOpt _ (findBody c) p s1) as [[tr s2]|]; simpl in H; [|done].
    destruct (buildOpt _ (findElse c) p _) as [[fr s4]|]; simpl in H; [|done].
    inversion H; subst. split; [done|by eexists]. }
  destruct (has LOOP_TYPES (Ast.kind c)).
  { destruct (makeBlock s _ loop c p _) as [lb s1].
    destruct (buildOpt _ (findBody c) p s1) as [[br s2]|]; simpl in H; [|done].
    inversion H; subst. split; [done|by eexists]. }
  destruct (has MATCH_TYPES (Ast.kind c)).
  { destruct (makeBlock s _ match_kind c p _) as [mb s1].
    destruct (buildArms _ _ _ _ _ _ _ s1) as [[exs s2]|]; simpl in H; [|done].
    inversion H; subst. split; [done|by eexists]. }
  destruct (has RETURN_TYPES (Ast.kind c)).
  { destruct (makeBlock s _ return_kind c p _) as [rb s1].
    inversion H; subst. split; [done|by eexists]. }
  destruct (has FUNCTION_TYPES (Ast.kind c)).
  { destruct (makeBlock s _ entry_kind c p _) as [eb s1].
    destruct (buildOpt _ (findBody c) p s1) as [[[b|] s2]|]; simpl in H; [| |done].
    - inversion H; subst. split; [done|by eexists].
    - inversion H; subst. split; [done|by eexists]. }
  simpl. destruct (_ || _).
  { by apply (buildChildrenWith_yields _ IH) in H. }
  destruct (_ && _); inversion H; subst.
  - split; [done|by eexists].
  - split; [intros [? ?]; done|discriminate].
Qed.

Lemma buildChildren_yields (fuel : nat) (code : string) (n : AstNode) p s :
  depth n ≤ S fuel → yieldsChildren n = true →
  ∃ r s', buildChildren fuel code n p s = Some (Some r, s').
Proof.
  intros Hd Hy.
  destruct (buildChildrenWith_total (buildNode fuel code) n p s) as [[r s'] H].
  { intros c p' s0 Hc. apply buildNode_total. apply depth_child in Hc. lia. }
  pose proof H as H'.
  apply (buildChildrenWith_yields _ (buildNode_yields fuel code)) in H'.
  destruct H' as [_ H']. destruct (H' Hy) as [r0 ->]. by exists r0, s'.
Qed.

(* ================================================================== *)
(** * Branches *)
(* ================================================================== *)

(** [if (x) { a } else { b }]. *)
Definition ifElseBody : AstNode :=
  node "statement_block" 7 12 true
    [node "{" 7 8 false [];
     node "expression_statement" 9 10 true [node "identifier" 9 10 true []];
     node "}" 11 12 false []].

Definition ifElseAlt : AstNode :=
  node "else_clause" 13 23 true
    [node "else" 13 17 false [];
     node "statement_block" 18 23 true
       [node "{" 18 19 false [];
        node "expression_statement" 20 21 true [node "identifier" 20 21 true []];
        node "}" 22 23 false []]].

Definition ifElseNode : AstNode :=
  node "if_statement" 0 23 true
    [node "if" 0 2 false [];
     node "parenthesized_expression" 3 6 true
       [node "(" 3 4 false []; node "identifier" 4 5 true []; node ")" 5 6 false []];
     ifElseBody;
     ifElseAlt].

Definition ifElseProgram : AstNode := node "program" 0 23 true [ifElseNode].

(** [if (x) {} else {}]: both bodies are present and empty. *)
Definition emptyIfElseNode : AstNode :=
  node "if_statement" 0 17 true
    [node "if" 0 2 false [];
     node "parenthesized_expression" 3 6 true
       [node "(" 3 4 false []; node "identifier" 4 5 true []; node ")" 5 6 false []];
     node "statement_block" 7 9 true [node "{" 7 8 false []; node "}" 8 9 false []];
     node "else_clause" 10 17 true
       [node "else" 10 14 false [];
        node "statement_block" 15 17 true
          [node "{" 15 16 false []; node "}" 16 17 false []]]].

Definition emptyIfElseProgram : AstNode := node "program" 0 17 true [emptyIfElseNode].

Definition condTextOf (n : AstNode) (code : string) : string :=
  match findCondition n with
  | Some c => summary c code 48
  | None => "condition"
  end.

Lemma buildNode_branch_eq (fuel : nat) (code : string) (n : AstNode) (path : string)
    (s : BuildCtx) :
  has IF_TYPES (Ast.kind n) = true →
  buildNode (S fuel) code n path s =
    let '(branchBlock, ctx) :=
      makeBlock s ("if " +:+ condTextOf n code) branch n path
                ["if " +:+ condTextOf n code] in
    '(trueResult, ctx) ← buildOpt (buildChildren fuel code) (findBody n) path ctx;
    let ctx := match trueResult with
               | Some t => addEdge ctx (id branchBlock) (entry t) (Some "true")
               | None => ctx
               end in
    '(falseResult, ctx) ← buildOpt (buildChildren fuel code) (findElse n) path ctx;
    let ctx := match falseResult with
               | Some f => addEdge ctx (id branchBlock) (entry f) (Some "false")
               | None => ctx
               end in
    let exs1 := match trueResult with
                | Some t => exits t
                | None => [id branchBlock]
                end in
    let exs2 := match falseResult with
                | Some f => exits f
                | None => match findElse n with
                          | Some _ => []
                          | None => [id branchBlock]
                          end
                end in
    Some (Some {| entry := id branchBlock; exits := exs1 ++ exs2 |}, ctx).
Proof. intros Hif. cbn [buildNode]. by rewrite Hif. Qed.

(** The branch rule when both bodies are present and yield blocks. *)
Lemma buildNode_branch (fuel : nat) (code : string) (n body els : AstNode)
    (path : string) (s : BuildCtx) :
  has IF_TYPES (Ast.kind n) = true →
  findBody n = Some body → findElse n = Some els →
  yieldsChildren body = true → yieldsChildren els = true →
  depth n ≤ S fuel →
  ∃ bb s1 tr s2 fr s3,
    makeBlock s ("if " +:+ condTextOf n code) branch n path
              ["if " +:+ condTextOf n code] = (bb, s1) ∧
    buildChildren fuel code body path s1 = Some (Some tr, s2) ∧
    buildChildren fuel code els path
      (addEdge s2 (id bb) (entry tr) (Some "true")) = Some (Some fr, s3) ∧
    buildNode (S fuel) code n path s =
      Some (Some {| entry := id bb; exits := exits tr ++ exits fr |},
            addEdge s3 (id bb) (entry fr) (Some "false")).
Proof.
  intros Hif Hbody Hels Hyb Hye Hd.
  assert (depth body ≤ fuel) as Hdb.
  { apply findBody_child, depth_child in Hbody. lia. }
  assert (depth els ≤ fuel) as Hde.
  { apply findElse_child, depth_child in Hels. lia. }
  destruct (makeBlock s _ branch n path ["if " +:+ condTextOf n code])
    as [bb s1] eqn:Hmb.
  destruct (buildChildren_yields fuel code body path s1 ltac:(lia) Hyb)
    as (tr & s2 & Htr).
  destruct (buildChildren_yields fuel code els path
              (addEdge s2 (id bb) (entry tr) (Some "true")) ltac:(lia) Hye)
    as (fr & s3 & Hfr).
  exists bb, s1, tr, s2, fr, s3. split_and!; [done..|].
  rewrite buildNode_branch_eq by done. rewrite Hmb, Hbody, Hels. simpl.
  rewrite Htr. simpl. rewrite Hfr. done.
Qed.

Lemma final_edges_shape (ast : AstNode) (code : string) r s (e : CfgEdge) :
  buildRoot ast code = Some (r, s) →
  e ∈ ctx_edges (addSentinel ast r s) →
  ∃ a b, from e = makeId a ∧ to e = makeId b.
Proof.
  intros Hroot Hin.
  destruct (buildRoot_ids ast code r s Hroot) as (Hids & Hnext & Hok & Hr).
  assert (∀ e, e ∈ ctx_edges s → ∃ a b, from e = makeId a ∧ to e = makeId b) as Hraw.
  { intros e' He'. rewrite Forall_forall in Hok. destruct (Hok e' He') as [Hf Ht].
    apply Live_id in Hf.
    apply (seq_ids_elem _ _ Hids) in Hf as (a & Hfa & _).
    apply (seq_ids_elem _ _ Hids) in Ht as (b & Htb & _). by exists a, b. }
  destruct (addSentinel_spec ast r s)
    as [[Heq _]|(r0 & -> & _ & _ & _ & He)].
  - rewrite Heq in Hin. by apply Hraw.
  - rewrite He in Hin. apply elem_of_app in Hin as [Hin|Hin]; [by apply Hraw|].
    apply list_elem_of_singleton in Hin as ->. simpl.
    destruct Hr as [Hen _].
    apply (seq_ids_elem _ _ Hids) in Hen as (d & Hd & _).
    by exists (nextBlockId s), d.
Qed.

Lemma NoDup_ids_ne (bb b : CfgBlock) (l : list CfgBlock) :
  NoDup (id <$> (bb :: l)) → b ∈ l → id b ≠ id bb.
Proof.
  rewrite fmap_cons. intros [Hnin _]%NoDup_cons Hb Heq.
  apply Hnin. rewrite <-Heq. by apply list_elem_of_fmap_2.
Qed.

(** C6, as amended. For a tree whose only statement is a branch node with a
    true body and an else body that each yield at least one block (and with
    no other branch node below it), [buildCfg] emits exactly one [branch]
    block; exactly two edges leave it, labeled "true" and "false", to the
    entries of the two bodies; the result of the branch construct has as
    exits the exits of the true body followed by those of the else body; and
    the branch block is not among them. *)
Theorem buildCfg_single_branch (ast ifn body els : AstNode) (code : string) :
  filter (λ c, Ast.isNamed c = true) (Ast.children ast) = [ifn] →
  has IF_TYPES (Ast.kind ifn) = true →
  findBody ifn = Some body → findElse ifn = Some els →
  yieldsChildren body = true → yieldsChildren els = true →
  noBranch body = true → noBranch els = true →
  ∃ cfg bb tr fr,
    buildCfg ast code = Some cfg ∧
    filter (λ b, kind b = branch) (blocks cfg) = [bb] ∧
    filter (λ e, from e = id bb) (edges cfg) =
      [{| from := id bb; to := entry tr; edge_label := Some "true" |};
       {| from := id bb; to := entry fr; edge_label := Some "false" |}] ∧
    (∃ fuel path s1 s2 s3 s4 s5,
        buildChildren fuel code body path s1 = Some (Some tr, s2) ∧
        buildChildren fuel code els path s3 = Some (Some fr, s4) ∧
        buildNode (S fuel) code ifn path (initCtx code) =
          Some (Some {| entry := id bb; exits := exits tr ++ exits fr |}, s5)) ∧
    id bb ∉ exits tr ++ exits fr.
Proof.
  intros Hast Hif Hbody Hels Hyb Hye Hnb Hne.
  destruct (buildChildren_single ast ifn Hast) as [i Hb].
  assert (depth ifn < depth ast) as Hd by (by apply depth_child, named_child).
  destruct (depth ast) as [|k] eqn:Hk; [lia|].
  destruct (buildNode_branch k code ifn body els ("root" +:+ "-" +:+ pretty i)
              (initCtx code) Hif Hbody Hels Hyb Hye ltac:(lia))
    as (bb & s1 & tr & s2 & fr & s3 & Hmb & Htr & Hfr & Hnode).
  set (res := {| entry := id bb; exits := exits tr ++ exits fr |}) in *.
  set (raw := addEdge s3 (id bb) (entry fr) (Some "false")) in *.
  assert (buildRoot ast code = Some (Some res, raw)) as Hroot.
  { unfold buildRoot. by rewrite Hk, Hb. }
  (* what the three steps added *)
  apply makeBlock_inv in Hmb as (Hx0 & Hid & Hkind & _).
  pose proof Htr as Htr'.
  apply buildChildren_spec in Htr' as (bs1 & es1 & Hx1 & [Hen1 Hex1] & Hk1).
  pose proof Hfr as Hfr'.
  apply buildChildren_spec in Hfr' as (bs2 & es2 & Hx2 & [Hen2 Hex2] & Hk2).
  assert (ctx_blocks raw = bb :: bs1 ++ bs2) as HB.
  { unfold raw. simpl. rewrite (ext_blocks _ _ _ _ Hx2). simpl.
    rewrite (ext_blocks _ _ _ _ Hx1), (ext_blocks _ _ _ _ Hx0). simpl.
    done. }
  assert (ctx_edges raw =
            es1 ++ {| from := id bb; to := entry tr; edge_label := Some "true" |}
                :: es2 ++ [{| from := id bb; to := entry fr; edge_label := Some "false" |}])
    as HE.
  { unfold raw. simpl. rewrite (ext_edges _ _ _ _ Hx2). simpl.
    rewrite (ext_edges _ _ _ _ Hx1), (ext_edges _ _ _ _ Hx0). simpl.
    by rewrite <-!app_assoc. }
  destruct (buildRoot_ids ast code _ _ Hroot) as (Hids & Hnext & Hok & Hr).
  assert (NoDup (id <$> (bb :: bs1 ++ bs2))) as Hnd.
  { rewrite <-HB, Hids. apply NoDup_makeId. }
  assert (∀ i, Live bs1 i → i ≠ id bb) as Hl1.
  { intros j (b & Hin & <- & _). apply (NoDup_ids_ne _ _ _ Hnd).
    apply elem_of_app. by left. }
  assert (∀ i, Live bs2 i → i ≠ id bb) as Hl2.
  { intros j (b & Hin & <- & _). apply (NoDup_ids_ne _ _ _ Hnd).
    apply elem_of_app. by right. }
  assert (Forall (λ e, from e ≠ id bb) es1) as Hf1.
  { eapply Forall_impl; [exact (ext_ok _ _ _ _ Hx1)|]. intros e [Hf _]. by apply Hl1. }
  assert (Forall (λ e, from e ≠ id bb) es2) as Hf2.
  { eapply Forall_impl; [exact (ext_ok _ _ _ _ Hx2)|]. intros e [Hf _]. by apply Hl2. }
  assert (entry tr ∈ (id <$> ctx_blocks raw)) as Hent1.
  { rewrite HB, fmap_cons, fmap_app. right. apply elem_of_app. by left. }
  assert (entry fr ∈ (id <$> ctx_blocks raw)) as Hent2.
  { rewrite HB, fmap_cons, fmap_app. right. apply elem_of_app. by right. }
  assert (id bb ∉ exits tr ++ exits fr) as Hnotexit.
  { intros [Hin|Hin]%elem_of_app.
    - rewrite Forall_forall in Hex1. by apply (Hl1 _ (Hex1 _ Hin)).
    - rewrite Forall_forall in Hex2. by apply (Hl2 _ (Hex2 _ Hin)). }
  assert (buildCfg ast code =
            Some {| blocks := ctx_blocks (addSentinel ast (Some res) raw);
                    edges := dedup ∅ (ctx_edges (addSentinel ast (Some res) raw)) |})
    as Hcfg by (unfold buildCfg; by rewrite Hroot).
  eexists _, bb, tr, fr. split; [exact Hcfg|]. cbn [blocks edges].
  split_and!; [| | |done].
  3: { exists k, ("root" +:+ "-" +:+ pretty i), s1, s2,
         (addEdge s2 (id bb) (entry tr) (Some "true")), s3, raw. done. }
  - (* exactly one branch block *)
    assert (filter (λ b, kind b = branch) (ctx_blocks raw) = [bb]) as Hraw.
    { rewrite HB, filter_cons_True by done. f_equal.
      rewrite filter_app, !filter_none; [done|..].
      - eapply Forall_impl; [by apply Hk2|]. done.
      - eapply Forall_impl; [by apply Hk1|]. done. }
    destruct (addSentinel_spec ast (Some res) raw)
      as [[-> _]|(r0 & _ & _ & _ & -> & _)]; [done|].
    by rewrite filter_cons_False.
  - (* exactly two edges leave it *)
    rewrite (dedup_filter (λ e, from e = id bb) ∅ ∅).
    + assert (filter (λ e, from e = id bb) (ctx_edges (addSentinel ast (Some res) raw))
              = [{| from := id bb; to := entry tr; edge_label := Some "true" |};
                 {| from := id bb; to := entry fr; edge_label := Some "false" |}])
        as ->.
      { assert (filter (λ e, from e = id bb) (ctx_edges raw)
              = [{| from := id bb; to := entry tr; edge_label := Some "true" |};
                 {| from := id bb; to := entry fr; edge_label := Some "false" |}])
          as Hraw.
        { rewrite HE, filter_app, filter_cons_True, filter_app by done.
          rewrite filter_cons_True by done.
          by rewrite !filter_none. }
        destruct (addSentinel_spec ast (Some res) raw)
          as [[-> _]|(r0 & _ & _ & _ & _ & ->)]; [done|].
        rewrite filter_app, Hraw, filter_cons_False, filter_nil; [done|].
        cbn [from]. change (id (sentinelOf ast raw)) with (makeId (nextBlockId raw)).
        rewrite Hid, Hnext, HB. intros Heq%makeId_inj. simpl in Heq. lia. }
      simpl. rewrite bool_decide_eq_false_2 by apply not_elem_of_empty.
      rewrite bool_decide_eq_false_2; [done|].
      rewrite elem_of_union, elem_of_singleton. intros [Hkey|[]%not_elem_of_empty].
      destruct (seq_ids_elem _ _ Hids Hent1) as (a1 & Ha1 & _).
      destruct (seq_ids_elem _ _ Hids Hent2) as (a2 & Ha2 & _).
      destruct (edgeKey_inj
                  {| from := id bb; to := entry fr; edge_label := Some "false" |}
                  {| from := id bb; to := entry tr; edge_label := Some "true" |}
                  (nextBlockId (initCtx code)) a2 (nextBlockId (initCtx code)) a1)
        as (_ & _ & Hl); [done..|discriminate].
    + intros e1 e2 He1 He2 Hkey HP.
      destruct (final_edges_shape ast code _ _ e1 Hroot He1) as (a1 & b1 & Hf1' & Ht1').
      destruct (final_edges_shape ast code _ _ e2 Hroot He2) as (a2 & b2 & Hf2' & Ht2').
      destruct (edgeKey_inj e1 e2 a1 b1 a2 b2 Hf1' Ht1' Hf2' Ht2' Hkey) as (-> & _ & _).
      congruence.
    + done.
Qed.

Lemma buildCfg_single_branch_witness :
  ∃ cfg bb tr fr,
    buildCfg ifElseProgram "if (x) { a } else { b }" = Some cfg ∧
    filter (λ b, kind b = branch) (blocks cfg) = [bb] ∧
    filter (λ e, from e = id bb) (edges cfg) =
      [{| from := id bb; to := entry tr; edge_label := Some "true" |};
       {| from := id bb; to := entry fr; edge_label := Some "false" |}] ∧
    id bb ∉ exits tr ++ exits fr.
Proof.
  destruct (buildCfg_single_branch ifElseProgram ifElseNode ifElseBody ifElseAlt
              "if (x) { a } else { b }")
    as (cfg & bb & tr & fr & Hcfg & Hb & He & _ & Hx); try reflexivity.
  by exists cfg, bb, tr, fr.
Defined.

(** C6, as stated, fails: in [if (x) {} else {}] the branch node has a true
    body and an else body, but both are empty and yield no block, so no edge
    leaves the branch block (and the branch block is itself an exit). *)
Lemma buildCfg_single_branch_counterexample :
  is_Some (findBody emptyIfElseNode) ∧ is_Some (findElse emptyIfElseNode) ∧
  ¬ (∃ cfg bb,
       buildCfg emptyIfElseProgram "if (x) {} else {}" = Some cfg ∧
       filter (λ b, kind b = branch) (blocks cfg) = [bb] ∧
       length (filter (λ e, from e = id bb) (edges cfg)) = 2) ∧
  (∃ r s, buildNode 3 "if (x) {} else {}" emptyIfElseNode "root-0"
            (initCtx "if (x) {} else {}") = Some (Some r, s) ∧
          exits r = [entry r]).
Proof.
  split_and!.
  - by eexists.
  - by eexists.
  - intros (cfg & bb & H & Hb & He). vm_compute in H. inversion H; subst; clear H.
    vm_compute in Hb. inversion Hb; subst; clear Hb.
    vm_compute in He. discriminate.
  - eexists _, _. split; [by vm_compute|]. reflexivity.
Qed.

(* ================================================================== *)
(** * The graphs of the sample programs *)
(* ================================================================== *)

(** Ids, kinds, labels and paths of the blocks, and the edges. *)
Definition cfgView (cfg : Cfg)
    : list (string * CfgBlockKind * string * string) * list CfgEdge :=
  ((λ b, (id b, kind b, label b, astPath b)) <$> blocks cfg, edges cfg).

Example returnProgram_cfg :
  cfgView <$> buildCfg returnProgram "return;" =
  Some ([("cfg_1", entry_kind, "entry", "root");
         ("cfg_0", return_kind, "return;", "root-0")],
        [{| from := "cfg_1"; to := "cfg_0"; edge_label := None |}]).
Proof. vm_compute. reflexivity. Qed.

Example stmtThenFunction_cfg :
  cfgView <$> buildCfg stmtThenFunction "x; function f(){}" =
  Some ([("cfg_0", statement, "x", "root-0-0");
         ("cfg_1", entry_kind, "fn f", "root-1")],
        [{| from := "cfg_0"; to := "cfg_1"; edge_label := None |}]).
Proof. vm_compute. reflexivity. Qed.

Example whileProgram_cfg :
  cfgView <$> buildCfg whileProgram "while (x) { debugger; }" =
  Some ([("cfg_2", entry_kind, "entry", "root");
         ("cfg_0", loop, "while (x)", "root-0");
         ("cfg_1", statement, "debugger;", "root-0-1")],
        [{| from := "cfg_0"; to := "cfg_1"; edge_label := Some "body" |};
         {| from := "cfg_1"; to := "cfg_0"; edge_label := Some "next" |};
         {| from := "cfg_2"; to := "cfg_0"; edge_label := None |}]).
Proof. vm_compute. reflexivity. Qed.

Example ifElseProgram_cfg :
  cfgView <$> buildCfg ifElseProgram "if (x) { a } else { b }" =
  Some ([("cfg_3", entry_kind, "entry", "root");
         ("cfg_0", branch, "if (x)", "root-0");
         ("cfg_1", statement, "a", "root-0-1-0");
         ("cfg_2", statement, "b", "root-0-1-1-0")],
        [{| from := "cfg_0"; to := "cfg_1"; edge_label := Some "true" |};
         {| from := "cfg_0"; to := "cfg_2"; edge_label := Some "false" |};
         {| from := "cfg_3"; to := "cfg_0"; edge_label := None |}]).
Proof. vm_compute. reflexivity. Qed.

Example emptyIfElseProgram_cfg :
  cfgView <$> buildCfg emptyIfElseProgram "if (x) {} else {}" =
  Some ([("cfg_1", entry_kind, "entry", "root");
         ("cfg_0", branch, "if (x)", "root-0")],
        [{| from := "cfg_1"; to := "cfg_0"; edge_label := None |}]).
Proof. vm_compute. reflexivity. Qed.

(* ================================================================== *)
(** * Further properties of the builder *)
(* ================================================================== *)

(** X1. [buildCfg] always returns a graph whose block ids are pairwise
    distinct and are exactly [cfg_0], ..., [cfg_(n-1)] for its [n] blocks
    (in some order): the counter is reset at the start of every build and
    counted up once per block. *)
Theorem buildCfg_ids (ast : AstNode) (code : string) :
  ∃ cfg, buildCfg ast code = Some cfg ∧
    NoDup (id <$> blocks cfg) ∧
    id <$> blocks cfg ≡ₚ makeId <$> seq 0 (length (blocks cfg)).
Proof.
  destruct (buildRoot_spec ast code) as (r & s & Hroot & _).
  destruct (buildRoot_ids ast code r s Hroot) as (Hids & Hnext & _ & _).
  unfold buildCfg. rewrite Hroot. simpl. eexists. split; [done|]. simpl.
  assert (id <$> ctx_blocks (addSentinel ast r s)
            ≡ₚ makeId <$> seq 0 (length (ctx_blocks (addSentinel ast r s)))) as Hperm.
  { destruct (addSentinel_spec ast r s) as [[-> _]|(r0 & -> & _ & _ & Hb & _)].
    - by rewrite Hids.
    - rewrite Hb. simpl length. rewrite seq_S, fmap_app, fmap_cons, Hids. simpl.
      unfold sentinelOf. simpl. rewrite Hnext.
      by rewrite <-Permutation_cons_append. }
  split; [|done]. rewrite Hperm. apply NoDup_makeId.
Qed.

Lemma dedup_not_seen (seen : gset string) (es : list CfgEdge) (e : CfgEdge) :
  e ∈ dedup seen es → edgeKey e ∉ seen.
Proof.
  revert seen. induction es as [|e' es IH]; intros seen; simpl.
  { by intros ?%elem_of_nil. }
  case_bool_decide as Hk; [apply IH|].
  intros [->|Hin]%elem_of_cons; [done|].
  apply IH in Hin. rewrite elem_of_union in Hin. tauto.
Qed.

Lemma dedup_NoDup (seen : gset string) (es : list CfgEdge) :
  NoDup (edgeKey <$> dedup seen es).
Proof.
  revert seen. induction es as [|e es IH]; intros seen; simpl; [constructor|].
  case_bool_decide as Hk; [apply IH|].
  rewrite fmap_cons. constructor; [|apply IH].
  intros (e' & Heq & Hin)%list_elem_of_fmap. apply dedup_not_seen in Hin.
  apply Hin. rewrite Heq. apply elem_of_union. left. by apply elem_of_singleton.
Qed.

Lemma dedup_sublist (seen : gset string) (es : list CfgEdge) :
  sublist (dedup seen es) es.
Proof.
  revert seen. induction es as [|e es IH]; intros seen; simpl; [constructor|].
  case_bool_decide; [apply sublist_cons|apply sublist_skip]; apply IH.
Qed.

Lemma dedup_first (seen : gset string) (es1 es2 : list CfgEdge) (e : CfgEdge) :
  edgeKey e ∉ seen → Forall (λ e', edgeKey e' ≠ edgeKey e) es1 →
  e ∈ dedup seen (es1 ++ e :: es2).
Proof.
  revert seen. induction es1 as [|e1 es1 IH]; intros seen Hseen Hall; simpl.
  - rewrite bool_decide_eq_false_2 by done. by left.
  - apply Forall_cons in Hall as [Hne Hall]. case_bool_decide.
    + by apply IH.
    + right. apply IH; [|done]. rewrite elem_of_union, elem_of_singleton.
      intros [?|?]; congruence.
Qed.

Lemma dedup_fixed (seen : gset string) (es : list CfgEdge) :
  NoDup (edgeKey <$> es) → Forall (λ e, edgeKey e ∉ seen) es → dedup seen es = es.
Proof.
  revert seen. induction es as [|e es IH]; intros seen Hnd Hseen; simpl; [done|].
  rewrite fmap_cons in Hnd. apply NoDup_cons in Hnd as [Hnin Hnd].
  apply Forall_cons in Hseen as [He Hseen].
  rewrite bool_decide_eq_false_2 by done. f_equal. apply IH; [done|].
  apply Forall_forall. intros e' Hin. rewrite Forall_forall in Hseen.
  rewrite elem_of_union, elem_of_singleton. intros [Heq|?]; [|by eapply Hseen].
  apply Hnin. rewrite <-Heq. by apply list_elem_of_fmap_2.
Qed.

Lemma dedup_cover (seen : gset string) (es : list CfgEdge) (e : CfgEdge) :
  e ∈ es → edgeKey e ∉ seen →
  ∃ e', e' ∈ dedup seen es ∧ edgeKey e' = edgeKey e.
Proof.
  revert seen. induction es as [|e0 es IH]; intros seen Hin Hseen; simpl.
  { by apply elem_of_nil in Hin. }
  case_bool_decide as Hk.
  - apply elem_of_cons in Hin as [->|Hin]; [done|]. by apply IH.
  - destruct (decide (edgeKey e0 = edgeKey e)) as [Heq|Hne].
    { exists e0. split; [by left|done]. }
    apply elem_of_cons in Hin as [->|Hin]; [done|].
    destruct (IH ({[edgeKey e0]} ∪ seen) Hin) as (e' & Hin' & Hk').
    { rewrite elem_of_union, elem_of_singleton. intros [?|?]; congruence. }
    exists e'. split; [by right|done].
Qed.

(** X2. The edge deduplication of [buildCfg] keeps, for every key
    [from->to:label], exactly the first edge with that key: the kept edges
    have pairwise distinct keys, they are a subsequence of the input (order
    is preserved), an edge not preceded by one of the same key is kept, and
    deduplicating twice changes nothing more. *)
Theorem dedup_first_occurrences (es : list CfgEdge) :
  NoDup (edgeKey <$> dedup ∅ es) ∧
  sublist (dedup ∅ es) es ∧
  (∀ es1 e es2, es = es1 ++ e :: es2 →
     Forall (λ e', edgeKey e' ≠ edgeKey e) es1 → e ∈ dedup ∅ es) ∧
  (∀ e, e ∈ es → ∃ e', e' ∈ dedup ∅ es ∧ edgeKey e' = edgeKey e) ∧
  dedup ∅ (dedup ∅ es) = dedup ∅ es.
Proof.
  split_and!.
  - apply dedup_NoDup.
  - apply dedup_sublist.
  - intros es1 e es2 -> Hall. apply dedup_first; [apply not_elem_of_empty|done].
  - intros e Hin. apply dedup_cover; [done|apply not_elem_of_empty].
  - apply dedup_fixed; [apply dedup_NoDup|].
    apply Forall_forall. intros e _. apply not_elem_of_empty.
Qed.

(** Every edge the build recorded, the sentinel edge included, joins two
    builder-made ids. *)
Lemma built_edges_ids (ast : AstNode) (code : string) r s :
  buildRoot ast code = Some (r, s) →
  ∀ e, e ∈ ctx_edges (addSentinel ast r s) →
    ∃ a b, from e = makeId a ∧ to e = makeId b.
Proof.
  intros Hroot.
  destruct (buildRoot_ids ast code r s Hroot) as (Hids & Hnext & Hok & Hr).
  rewrite Forall_forall in Hok.
  assert (∀ e, e ∈ ctx_edges s → ∃ a b, from e = makeId a ∧ to e = makeId b) as Hraw.
  { intros e He. destruct (Hok e He) as [Hf%Live_id Ht].
    apply (seq_ids_elem _ _ Hids) in Hf as (a & -> & _).
    apply (seq_ids_elem _ _ Hids) in Ht as (b & -> & _). by exists a, b. }
  destruct (addSentinel_spec ast r s) as [[-> _]|(r0 & -> & _ & _ & _ & He)]; [done|].
  rewrite He. intros e [Hin|Hin]%elem_of_app; [by apply Hraw|].
  apply list_elem_of_singleton in Hin as ->. simpl.
  destruct Hr as [Hentry _].
  apply (seq_ids_elem _ _ Hids) in Hentry as (b & -> & _).
  unfold sentinelOf. simpl. by eexists _, b.
Qed.

(** X3. For the graph [buildCfg] returns, deduplication by the string key
    loses nothing but exact repetitions: every edge the build recorded is
    represented by an edge of the graph with the same source, the same
    target and the same label (an absent label counting as the empty one),
    every edge of the graph was recorded by the build, and no two edges of
    the graph agree on source, target and label. *)
Theorem buildCfg_dedup_exact (ast : AstNode) (code : string) :
  ∃ r s cfg, buildRoot ast code = Some (r, s) ∧ buildCfg ast code = Some cfg ∧
    (∀ e, e ∈ edges cfg → e ∈ ctx_edges (addSentinel ast r s)) ∧
    (∀ e, e ∈ ctx_edges (addSentinel ast r s) →
       ∃ e', e' ∈ edges cfg ∧ from e' = from e ∧ to e' = to e ∧
             default "" (edge_label e') = default "" (edge_label e)) ∧
    (∀ i j e1 e2, edges cfg !! i = Some e1 → edges cfg !! j = Some e2 →
       from e1 = from e2 → to e1 = to e2 →
       default "" (edge_label e1) = default "" (edge_label e2) → i = j).
Proof.
  destruct (buildRoot_spec ast code) as (r & s & Hroot & _).
  exists r, s. unfold buildCfg. rewrite Hroot. simpl. eexists.
  split_and!; [done|done|simpl..].
  - intros e. apply dedup_elem_of.
  - intros e He.
    destruct (dedup_cover ∅ _ e He) as (e' & Hin' & Hk); [apply not_elem_of_empty|].
    exists e'. split; [done|].
    destruct (built_edges_ids ast code r s Hroot e He) as (a & b & Ha & Hb).
    destruct (built_edges_ids ast code r s Hroot e' (dedup_elem_of _ _ _ Hin'))
      as (a' & b' & Ha' & Hb').
    destruct (edgeKey_inj e' e a' b' a b Ha' Hb' Ha Hb Hk) as (-> & -> & Hl).
    by rewrite Ha, Hb, Ha', Hb'.
  - intros i j e1 e2 H1 H2 Hf Ht Hl.
    eapply (NoDup_lookup _ i j (edgeKey e1)); [apply (dedup_NoDup ∅)| |].
    + by rewrite list_lookup_fmap, H1.
    + rewrite list_lookup_fmap, H2. simpl. unfold edgeKey. by rewrite Hf, Ht, Hl.
Qed.

(** X4. [buildCfg] returns the empty graph (no blocks, no edges) exactly
    when no named child of the root yields a block, as for a tree without
    named children or one that holds only comments; no sentinel is added
    then. *)
Theorem buildCfg_empty_iff (ast : AstNode) (code : string) :
  ∃ cfg, buildCfg ast code = Some cfg ∧
    (blocks cfg = [] ↔ yieldsChildren ast = false) ∧
    (blocks cfg = [] → edges cfg = []).
Proof.
  destruct (buildRoot_spec ast code) as (r & s & Hroot & Hx & Hr & _).
  pose proof Hroot as Hy. unfold buildRoot, buildChildren in Hy.
  apply (buildChildrenWith_yields _ (buildNode_yields _ code)) in Hy.
  unfold buildCfg. rewrite Hroot. simpl. eexists. split; [done|]. simpl.
  destruct r as [r0|].
  - assert (ctx_blocks s ≠ []) as Hne.
    { destruct Hr as [He _]. intros Hnil. rewrite Hnil in He. by apply elem_of_nil in He. }
    assert (ctx_blocks (addSentinel ast (Some r0) s) ≠ []) as Hne'.
    { destruct (addSentinel_spec ast (Some r0) s) as [[-> _]|(? & _ & _ & _ & -> & _)];
        done. }
    destruct Hy as [Hy _]. rewrite Hy by (by eexists). split; [|done].
    split; [done|discriminate].
  - destruct Hr as [Hb He]. simpl. rewrite Hb, He. simpl. split; [|done].
    split; [|done]. intros _. destruct (yieldsChildren ast); [|done].
    destruct Hy as [_ Hy]. destruct (Hy eq_refl) as [? ?]. done.
Qed.

Lemma BuildCtx_eq (s s' : BuildCtx) :
  ctx_blocks s' = ctx_blocks s → ctx_edges s' = ctx_edges s →
  ctx_code s' = ctx_code s → nextBlockId s' = nextBlockId s → s' = s.
Proof. destruct s, s'; simpl. by intros -> -> -> ->. Qed.

(** A step that returns [null] leaves the context as it was; a step that
    returns a result has appended at least one block. *)
Lemma step_null_or_grows (s s' : BuildCtx) bs es (r : option Result) :
  Ext s s' bs es → ResOk bs es r →
  match r with
  | None => s' = s
  | Some _ => ∃ b bs', ctx_blocks s' = ctx_blocks s ++ b :: bs'
  end.
Proof.
  intros Hx Hr. destruct r as [r0|].
  - destruct Hr as [He _]. destruct bs as [|b bs']; [by apply elem_of_nil in He|].
    exists b, bs'. apply (ext_blocks _ _ _ _ Hx).
  - destruct Hr as [-> ->]. apply BuildCtx_eq.
    + rewrite (ext_blocks _ _ _ _ Hx). apply app_nil_r.
    + rewrite (ext_edges _ _ _ _ Hx). apply app_nil_r.
    + apply (ext_code _ _ _ _ Hx).
    + rewrite (ext_next _ _ _ _ Hx). simpl. lia.
Qed.


(* ================================================================== *)
(** * Labels *)
(* ================================================================== *)

Lemma length_append (s t : string) :
  String.length (s +:+ t) = String.length s + String.length t.
Proof. induction s as [|c s IH]; simpl; [done|]. by rewrite IH. Qed.

Lemma length_substring_le (a n : nat) (s : string) :
  String.length (String.substring a n s) ≤ n.
Proof.
  revert a n. induction s as [|c s IH]; intros [|a] [|n]; simpl; try lia.
  - specialize (IH 0 n). lia.
  - apply (IH a 0).
  - apply (IH a (S n)).
Qed.

Lemma length_substring_0 (n : nat) (s : string) :
  n ≤ String.length s → String.length (String.substring 0 n s) = n.
Proof.
  revert n. induction s as [|c s IH]; intros [|n]; simpl; try lia.
  intros Hn. rewrite IH; lia.
Qed.

Lemma charFree_append (ch : ascii) (s t : string) :
  charFree ch s → charFree ch t → charFree ch (s +:+ t).
Proof. induction s as [|c s IH]; simpl; [done|]. intros [? ?] ?. auto. Qed.

Lemma charFree_substring (ch : ascii) (a n : nat) (s : string) :
  charFree ch s → charFree ch (String.substring a n s).
Proof.
  revert a n. induction s as [|c s IH]; intros [|a] [|n]; simpl; try done.
  - intros [? ?]. split; [done|]. by apply IH.
  - intros [_ ?]. by apply (IH a 0).
  - intros [_ ?]. by apply (IH a (S n)).
Qed.

Lemma charFree_rev_app (ch : ascii) (s t : string) :
  charFree ch s → charFree ch t → charFree ch (String.rev_app s t).
Proof.
  revert t. induction s as [|c s IH]; intros t; simpl; [done|].
  intros [? ?] ?. apply IH; [done|]. by split.
Qed.

Lemma charFree_trimStart (ch : ascii) (s : string) :
  charFree ch s → charFree ch (trimStart s).
Proof.
  induction s as [|c s IH]; simpl; [done|]. intros [? ?].
  destruct (Ascii.is_space c); [by apply IH|by split].
Qed.

Lemma charFree_trim (ch : ascii) (s : string) :
  charFree ch s → charFree ch (trim s).
Proof.
  intros H. unfold trim, trimEnd, String.rev.
  apply charFree_rev_app; [|done]. apply charFree_trimStart.
  apply charFree_rev_app; [|done]. by apply charFree_trimStart.
Qed.

Lemma charFree_firstLine (s : string) : charFree "010" (firstLine s).
Proof.
  induction s as [|c s IH]; simpl; [done|].
  destruct (Ascii.eqb c "010") eqn:Hc; [done|]. simpl. split; [|done].
  by apply Ascii.eqb_neq.
Qed.

(** X5. For a limit of at least two characters, [truncate] returns a single
    line (no line feed) of at most [max] characters: the trimmed first line
    itself when that fits, and otherwise its first [max - 2] characters
    followed by "..", which makes exactly [max] characters. *)
Theorem truncate_bounded (s : string) (max : nat) :
  2 ≤ max →
  String.length (truncate s max) ≤ max ∧
  charFree "010" (truncate s max) ∧
  (String.length (trim (firstLine s)) ≤ max → truncate s max = trim (firstLine s)) ∧
  (max < String.length (trim (firstLine s)) →
     String.length (truncate s max) = max ∧
     truncate s max = String.substring 0 (max - 2) (trim (firstLine s)) +:+ "..").
Proof.
  intros Hmax. unfold truncate, slice.
  pose proof (charFree_trim "010" _ (charFree_firstLine s)) as Hfree.
  set (line := trim (firstLine s)) in *.
  replace (max - 2 - 0) with (max - 2) by lia.
  case_bool_decide as Hlen.
  - assert (String.length (String.substring 0 (max - 2) line +:+ "..") = max) as Hl.
    { rewrite length_append, length_substring_0 by lia. simpl. lia. }
    split_and!; [lia| |lia|done].
    apply charFree_append; [by apply charFree_substring|]. simpl. done.
  - split_and!; [lia|done|done|lia].
Qed.

Lemma truncate_bounded_witness :
  2 ≤ 12 ∧ String.length (truncate "let total = compute(a, b);" 12) ≤ 12.
Proof.
  split; [lia|]. exact (proj1 (truncate_bounded "let total = compute(a, b);" 12 ltac:(lia))).
Defined.

(** A text of one line and at most [max] characters. *)
Definition Short (max : nat) (s : string) : Prop :=
  String.length s ≤ max ∧ charFree "010" s.

Lemma Short_mono (m m' : nat) (s : string) : m ≤ m' → Short m s → Short m' s.
Proof. intros Hm [? ?]. split; [lia|done]. Qed.

Lemma Short_truncate (s : string) (max : nat) : 2 ≤ max → Short max (truncate s max).
Proof.
  intros Hmax. unfold Short, truncate, slice.
  pose proof (charFree_trim "010" _ (charFree_firstLine s)) as Hfree.
  set (line := trim (firstLine s)) in *.
  case_bool_decide as Hlen; [|split; [lia|done]]. split.
  - rewrite length_append. pose proof (length_substring_le 0 (max - 2 - 0) line).
    simpl. lia.
  - apply charFree_append; [by apply charFree_substring|]. simpl. done.
Qed.

Lemma Short_summary (n : AstNode) (code : string) (max : nat) :
  2 ≤ max → Short max (summary n code max).
Proof. apply Short_truncate. Qed.

Lemma Short_append (m1 m2 : nat) (s1 s2 : string) :
  Short m1 s1 → Short m2 s2 → Short (m1 + m2) (s1 +:+ s2).
Proof.
  intros [H1 F1] [H2 F2]. split; [rewrite length_append; lia|by apply charFree_append].
Qed.

Lemma Short_literal (s : string) (m : nat) :
  String.length s ≤ m → charFree "010" s → Short m s.
Proof. by split. Qed.

Ltac short_literal :=
  apply Short_literal; [simpl; lia|simpl; repeat split; discriminate].


(* ================================================================== *)
(** * Direction of the edges *)
(* ================================================================== *)

(** The label of an edge, if there is one, is one line of at most 24
    characters. *)
Definition LabelOk (l : option string) : Prop := ∀ t, l = Some t → Short 24 t.

(** An edge between builder-made ids that either leads from an earlier to a
    later block, or is a loop edge labeled "next" that leads back to a loop
    header. *)
Definition Dir (bs : list CfgBlock) (e : CfgEdge) : Prop :=
  LabelOk (edge_label e) ∧
  ∃ a b, from e = makeId a ∧ to e = makeId b ∧
    (a < b ∨ (b < a ∧ edge_label e = Some "next" ∧
              ∃ blk, blk ∈ bs ∧ id blk = makeId b ∧ kind blk = loop)).

Definition DirAll (s : BuildCtx) : Prop := Forall (Dir (ctx_blocks s)) (ctx_edges s).

(** Ids whose counters lie in [lo, hi). *)
Definition Between (lo hi : nat) (xs : list string) : Prop :=
  Forall (λ x, ∃ c, x = makeId c ∧ lo ≤ c < hi) xs.

Definition Grow (s s' : BuildCtx) : Prop :=
  (∃ bs, ctx_blocks s' = ctx_blocks s ++ bs) ∧ nextBlockId s ≤ nextBlockId s'.

(** What a build step guarantees about directions: the entry of its result
    is the first block it made, its exits are among the blocks it made. *)
Definition StepDir (s : BuildCtx) (r : option Result) (s' : BuildCtx) : Prop :=
  (DirAll s → DirAll s') ∧ Grow s s' ∧
  match r with
  | Some r0 => entry r0 = makeId (nextBlockId s) ∧ nextBlockId s < nextBlockId s' ∧
               Between (nextBlockId s) (nextBlockId s') (exits r0)
  | None => s' = s
  end.

Definition NodeDir (bn : AstNode → string → Build (option Result)) : Prop :=
  ∀ c p s r s', bn c p s = Some (r, s') → StepDir s r s'.

(** Each result starts after the exits of the one before it. *)
Fixpoint Linked (prev : Result) (rest : list Result) : Prop :=
  match rest with
  | [] => True
  | r :: rest' =>
      (∃ a, entry r = makeId a ∧ Between 0 a (exits prev)) ∧ Linked r rest'
  end.

Definition Row (lo hi : nat) (rs : list Result) : Prop :=
  match rs with
  | [] => True
  | r0 :: rest => Linked r0 rest ∧ Between lo hi (exits (List.last rest r0))
  end.

Lemma Dir_mono (bs bs' : list CfgBlock) (e : CfgEdge) : Dir bs e → Dir (bs ++ bs') e.
Proof.
  intros (Hok & a & b & Hf & Ht & [Hlt|(Hlt & Hl & blk & Hin & Hid & Hk)]).
  - split; [done|]. exists a, b. auto.
  - split; [done|]. exists a, b. split_and!; [done..|]. right. split_and!; [done..|].
    exists blk. split_and!; [|done..]. apply elem_of_app. by left.
Qed.

Lemma LabelOk_None : LabelOk None.
Proof. by intros t. Qed.

Lemma LabelOk_literal (t : string) :
  String.length t ≤ 24 → charFree "010" t → LabelOk (Some t).
Proof. intros Hl Hf t' [= <-]. by split. Qed.

Ltac label_literal :=
  apply LabelOk_literal; [simpl; lia|simpl; repeat split; discriminate].

Lemma Dir_forward (bs : list CfgBlock) (a b : nat) (l : option string) :
  LabelOk l → a < b → Dir bs {| from := makeId a; to := makeId b; edge_label := l |}.
Proof. intros Hl Hlt. split; [done|]. exists a, b. auto. Qed.

Lemma Between_mono (lo hi lo' hi' : nat) (xs : list string) :
  lo' ≤ lo → hi ≤ hi' → Between lo hi xs → Between lo' hi' xs.
Proof.
  intros Hlo Hhi Hx. eapply Forall_impl; [exact Hx|].
  intros x (c & -> & Hc). exists c. split; [done|lia].
Qed.

Lemma Between_app (lo hi : nat) (xs ys : list string) :
  Between lo hi xs → Between lo hi ys → Between lo hi (xs ++ ys).
Proof. intros. by apply Forall_app. Qed.

Lemma Between_single (lo hi a : nat) : lo ≤ a < hi → Between lo hi [makeId a].
Proof. intros. constructor; [by exists a|constructor]. Qed.

Lemma Grow_refl (s : BuildCtx) : Grow s s.
Proof. split; [exists []; by rewrite app_nil_r|done]. Qed.

Lemma Grow_trans (s1 s2 s3 : BuildCtx) : Grow s1 s2 → Grow s2 s3 → Grow s1 s3.
Proof.
  intros [[bs1 H1] Hn1] [[bs2 H2] Hn2]. split; [|lia].
  exists (bs1 ++ bs2). by rewrite H2, H1, app_assoc.
Qed.

Lemma DirAll_grow_blocks (s s' : BuildCtx) :
  (∃ bs, ctx_blocks s' = ctx_blocks s ++ bs) → ctx_edges s' = ctx_edges s →
  DirAll s → DirAll s'.
Proof.
  intros [bs Hb] He. unfold DirAll. rewrite Hb, He.
  intros H. eapply Forall_impl; [exact H|]. intros e. apply Dir_mono.
Qed.

Lemma DirAll_addEdge (s : BuildCtx) (f t : string) (l : option string) :
  DirAll s → Dir (ctx_blocks s) {| from := f; to := t; edge_label := l |} →
  DirAll (addEdge s f t l).
Proof. intros Hs He. unfold DirAll. simpl. apply Forall_app. split; [done|by constructor]. Qed.

Lemma addEdgesFrom_next (s : BuildCtx) exs t l :
  nextBlockId (addEdgesFrom s exs t l) = nextBlockId s.
Proof. revert s. induction exs as [|ex exs IH]; intros s; simpl; [done|by rewrite IH]. Qed.

Lemma DirAll_addEdgesFrom (s : BuildCtx) (exs : list string) (t : string)
    (l : option string) :
  DirAll s →
  Forall (λ x, Dir (ctx_blocks s) {| from := x; to := t; edge_label := l |}) exs →
  DirAll (addEdgesFrom s exs t l).
Proof.
  intros Hs Hx. unfold DirAll. rewrite addEdgesFrom_blocks, addEdgesFrom_edges.
  apply Forall_app. split; [done|]. apply Forall_fmap.
  eapply Forall_impl; [exact Hx|]. done.
Qed.

Lemma Grow_addEdge (s : BuildCtx) f t l : Grow s (addEdge s f t l).
Proof. split; [exists []; simpl; by rewrite app_nil_r|done]. Qed.

Lemma Grow_addEdgesFrom (s : BuildCtx) exs t l : Grow s (addEdgesFrom s exs t l).
Proof.
  split; [exists []; by rewrite addEdgesFrom_blocks, app_nil_r|].
  by rewrite addEdgesFrom_next.
Qed.

Lemma makeBlock_dir s lbl k node path stmts b s1 :
  makeBlock s lbl k node path stmts = (b, s1) →
  id b = makeId (nextBlockId s) ∧ kind b = k ∧
  nextBlockId s1 = S (nextBlockId s) ∧
  ctx_blocks s1 = ctx_blocks s ++ [b] ∧ ctx_edges s1 = ctx_edges s ∧
  Grow s s1 ∧ (DirAll s → DirAll s1).
Proof.
  unfold makeBlock. intros [= <- <-]. simpl. split_and!; [done..| |].
  - split; [by eexists|simpl; lia].
  - apply DirAll_grow_blocks; [by eexists|done].
Qed.

(** Edges from exits below [a] into the block [a] lead forward. *)
Lemma Dir_from_exits (bs : list CfgBlock) (lo a : nat) (exs : list string) :
  Between lo a exs →
  Forall (λ x, Dir bs {| from := x; to := makeId a; edge_label := None |}) exs.
Proof.
  intros Hx. eapply Forall_impl; [exact Hx|].
  intros x (c & -> & Hc). apply Dir_forward; [apply LabelOk_None|lia].
Qed.

Lemma last_cons_default {A} (l : list A) (x d d' : A) :
  List.last (x :: l) d = List.last (x :: l) d'.
Proof.
  revert x. induction l as [|y l IH]; intros x; [done|].
  change (List.last (y :: l) d = List.last (y :: l) d'). apply IH.
Qed.

Lemma Linked_snoc (r0 : Result) (rest : list Result) (r : Result) (a : nat) :
  Linked r0 rest → entry r = makeId a → Between 0 a (exits (List.last rest r0)) →
  Linked r0 (rest ++ [r]).
Proof.
  revert r0. induction rest as [|r1 rest IH]; intros r0; simpl.
  - intros _ He Hb. split; [|done]. by exists a.
  - intros [H1 H2] He Hb. split; [done|]. apply IH; [done..|].
    destruct rest as [|r2 rest]; [done|].
    by rewrite (last_cons_default rest r2 r1 r0).
Qed.

Lemma last_snoc_default {A} (l : list A) (x d : A) : List.last (l ++ [x]) d = x.
Proof. induction l as [|y l IH]; [done|]. simpl. destruct (l ++ [x]) eqn:E; [by destruct l|done]. Qed.

Lemma chain_same (s : BuildCtx) (prev : Result) (rest : list Result) :
  ctx_blocks (chain s prev rest) = ctx_blocks s ∧
  nextBlockId (chain s prev rest) = nextBlockId s.
Proof.
  revert s prev. induction rest as [|r rest IH]; intros s prev; simpl; [done|].
  destruct (IH (addEdgesFrom s (exits prev) (entry r) None) r) as [-> ->].
  by rewrite addEdgesFrom_blocks, addEdgesFrom_next.
Qed.

Lemma chain_dir (s : BuildCtx) (prev : Result) (rest : list Result) :
  DirAll s → Linked prev rest → DirAll (chain s prev rest).
Proof.
  revert s prev. induction rest as [|r rest IH]; intros s prev Hs Hl; simpl; [done|].
  destruct Hl as [(a & Ha & Hb) Hl]. apply IH; [|done].
  apply DirAll_addEdgesFrom; [done|]. rewrite Ha. by eapply Dir_from_exits.
Qed.

Section dir_spec.
Context (bn : AstNode → string → Build (option Result)).
Context (Hbn : NodeDir bn).

Lemma buildEach_dir (cis : list (AstNode * nat)) path acc s rs s' (lo : nat) :
  buildEach bn cis path acc s = Some (rs, s') →
  lo ≤ nextBlockId s → Row lo (nextBlockId s) acc →
  ∃ news, rs = acc ++ news ∧
    (DirAll s → DirAll s') ∧ Grow s s' ∧ Row lo (nextBlockId s') rs ∧
    match news with
    | [] => s' = s
    | r0 :: _ => entry r0 = makeId (nextBlockId s) ∧ nextBlockId s < nextBlockId s'
    end.
Proof.
  revert acc s. induction cis as [|[c i] cis IH]; intros acc s H Hlo Hrow; simpl in H.
  - inversion H; subst. exists []. rewrite app_nil_r.
    split_and!; [done|done|apply Grow_refl|done|done].
  - destruct (bn c _ s) as [[r s1]|] eqn:Hc; simpl in H; [|done].
    apply Hbn in Hc as (Hd1 & Hg1 & Hr1). destruct r as [r|].
    + destruct Hr1 as (He & Hlt & Hex).
      assert (Row lo (nextBlockId s1) (acc ++ [r])) as Hrow'.
      { destruct acc as [|r0 rest]; simpl.
        - split; [done|]. eapply Between_mono; [| |exact Hex]; lia.
        - destruct Hrow as [Hl Hb]. split.
          + eapply Linked_snoc; [done..|]. eapply Between_mono; [| |exact Hb]; lia.
          + rewrite last_snoc_default. eapply Between_mono; [| |exact Hex]; lia. }
      destruct (IH _ _ H ltac:(lia) Hrow') as (news & Hrs & Hd2 & Hg2 & Hrow2 & _).
      exists (r :: news).
      split_and!; [by rewrite Hrs, <-app_assoc|auto|by eapply Grow_trans|done|done|].
      destruct Hg2 as [_ ?]. lia.
    + subst s1. apply (IH _ _ H Hlo Hrow).
Qed.

Lemma buildChildrenWith_dir : NodeDir (buildChildrenWith bn).
Proof.
  intros n p s r s' H. unfold buildChildrenWith in H.
  case_bool_decide.
  { inversion H; subst. split_and!; [done|apply Grow_refl|done]. }
  destruct (buildEach _ _ _ _ _) as [[rs s1]|] eqn:He; simpl in H; [|done].
  apply (buildEach_dir _ _ _ _ _ _ (nextBlockId s)) in He
    as (news & -> & Hd & Hg & Hrow & Hfirst); [|done..].
  simpl in H, Hrow. destruct news as [|r0 rest].
  - inversion H; subst. split_and!; [done|apply Grow_refl|done].
  - inversion H; subst; clear H. destruct Hrow as [Hl Hb]. destruct Hfirst as [He Hlt].
    destruct Hg as [[bs Hbs] Hn].
    destruct (chain_same s1 r0 rest) as [Hcb Hcn].
    split_and!.
    + intros Hs. apply chain_dir; [by apply Hd|done].
    + split; [exists bs; by rewrite Hcb|by rewrite Hcn].
    + done.
    + by rewrite Hcn.
    + by rewrite Hcn.
Qed.

Lemma buildOpt_dir (o : option AstNode) p s r s' :
  buildOpt (buildChildrenWith bn) o p s = Some (r, s') → StepDir s r s'.
Proof.
  destruct o as [b|]; simpl; intros H.
  - by apply buildChildrenWith_dir in H.
  - inversion H; subst. split_and!; [done|apply Grow_refl|done].
Qed.

Lemma buildArms_dir (mid : string) (m : nat) arms i path code exs s exs' s' (lo : nat) :
  buildArms (buildChildrenWith bn) mid arms i path code exs s = Some (exs', s') →
  mid = makeId m → m < nextBlockId s → lo ≤ nextBlockId s →
  Between lo (nextBlockId s) exs →
  (DirAll s → DirAll s') ∧ Grow s s' ∧ Between lo (nextBlockId s') exs'.
Proof.
  intros H ->. revert i exs s H. induction arms as [|a arms IH];
    intros i exs s H Hm Hlo Hexs; simpl in H.
  - inversion H; subst. split_and!; [done|apply Grow_refl|done].
  - destruct (buildChildrenWith bn a _ s) as [[r s1]|] eqn:Ha; simpl in H; [|done].
    apply buildChildrenWith_dir in Ha as (Hd1 & Hg1 & Hr1). destruct r as [r|].
    + destruct Hr1 as (He & Hlt & Hex).
      apply IH in H as (Hd2 & Hg2 & Hb2); simpl; [|lia..|].
      * split_and!; [|by eauto using Grow_trans, Grow_addEdge|done].
        intros Hs. apply Hd2, DirAll_addEdge; [auto|].
        rewrite He. apply Dir_forward; [|lia].
        intros t [= <-]. apply Short_truncate. lia.
      * apply Between_app; (eapply Between_mono; [| |eassumption]); lia.
    + subst s1. by apply IH in H.
Qed.
End dir_spec.

(** A labeled edge from the block [m] to the entry of an optional result
    that starts after [m]. *)
Lemma edge_opt_dir (s : BuildCtx) (tr : option Result) (m : nat) (l : option string) :
  LabelOk l →
  (∀ t, tr = Some t → ∃ k, entry t = makeId k ∧ m < k) →
  let s' := match tr with
            | Some t => addEdge s (makeId m) (entry t) l
            | None => s
            end in
  (DirAll s → DirAll s') ∧ Grow s s' ∧ nextBlockId s' = nextBlockId s.
Proof.
  intros Hl Ht. destruct tr as [t|]; simpl.
  - destruct (Ht t eq_refl) as (k & Hk & Hlt). split_and!; [|apply Grow_addEdge|done].
    intros Hs. apply DirAll_addEdge; [done|]. rewrite Hk. by apply Dir_forward.
  - split_and!; [done|apply Grow_refl|done].
Qed.

Lemma buildNode_dir (fuel : nat) (code : string) : NodeDir (buildNode fuel code).
Proof.
  induction fuel as [|fuel IH]; intros c p s r s' H; [done|].
  cbn [buildNode] in H.
  destruct (has IF_TYPES (Ast.kind c)).
  { destruct (makeBlock s _ branch c p _) as [bb s1] eqn:Hmb.
    apply makeBlock_dir in Hmb as (Hid & _ & Hn1 & _ & _ & Hg1 & Hd1).
    destruct (buildOpt _ (findBody c) p s1) as [[tr s2]|] eqn:Ht; [|done].
    cbn [mbind option_bind] in H.
    apply (buildOpt_dir _ IH) in Ht as (Hd2 & Hg2 & Hr2).
    rewrite Hid in H.
    destruct (edge_opt_dir s2 tr (nextBlockId s) (Some "true")) as (Hd3 & Hg3 & Hn3).
    { label_literal. }
    { intros t ->. destruct Hr2 as (He & _). exists (nextBlockId s1). split; [done|lia]. }
    cbv zeta in Hd3, Hg3, Hn3.
    destruct (buildOpt _ (findElse c) p _) as [[fr s4]|] eqn:Hf; [|done].
    cbn [mbind option_bind] in H.
    apply (buildOpt_dir _ IH) in Hf as (Hd4 & Hg4 & Hr4).
    destruct (edge_opt_dir s4 fr (nextBlockId s) (Some "false")) as (Hd5 & Hg5 & Hn5).
    { label_literal. }
    { intros f ->. destruct Hr4 as (He & _). eexists. split; [done|].
      destruct Hg2 as [_ ?]. lia. }
    cbv zeta in Hd5, Hg5, Hn5.
    inversion H; subst r s'; clear H.
    assert (nextBlockId s1 ≤ nextBlockId s2) as H12 by apply Hg2.
    assert (nextBlockId s2 ≤ nextBlockId s4) as H24.
    { rewrite <-Hn3. apply Hg4. }
    split_and!.
    - eauto 10.
    - eauto 10 using Grow_trans.
    - done.
    - lia.
    - cbn [exits]. apply Between_app.
      + destruct tr as [t|].
        * destruct Hr2 as (_ & _ & Hex). eapply Between_mono; [| |exact Hex]; lia.
        * apply Between_single. lia.
      + destruct fr as [f|].
        * destruct Hr4 as (_ & _ & Hex). eapply Between_mono; [| |exact Hex]; lia.
        * destruct (findElse c); [constructor|]. apply Between_single. lia. }
  destruct (has LOOP_TYPES (Ast.kind c)).
  { destruct (makeBlock s _ loop c p _) as [lb s1] eqn:Hmb.
    apply makeBlock_dir in Hmb as (Hid & Hk & Hn1 & Hb1 & _ & Hg1 & Hd1).
    destruct (buildOpt _ (findBody c) p s1) as [[br s2]|] eqn:Hb; [|done].
    cbn [mbind option_bind] in H.
    apply (buildOpt_dir _ IH) in Hb as (Hd2 & Hg2 & Hr2).
    inversion H; subst r s'; clear H.
    assert (nextBlockId s1 ≤ nextBlockId s2) as H12 by apply Hg2.
    destruct br as [b|].
    - destruct Hr2 as (He & Hlt & Hex).
      split_and!.
      + intros Hs. apply DirAll_addEdgesFrom.
        * apply DirAll_addEdge; [auto|]. rewrite Hid, He.
          apply Dir_forward; [label_literal|lia].
        * eapply Forall_impl; [exact Hex|]. intros x (k & -> & Hk').
          split; [label_literal|].
          exists k, (nextBlockId s). split_and!; [done|by rewrite Hid|]. right.
          split_and!; [lia|done|]. exists lb. split_and!; [|done..].
          destruct Hg2 as [[bs Hbs] _]. simpl. rewrite Hbs, Hb1.
          apply elem_of_app. left. apply elem_of_app. right. by left.
      + eauto using Grow_trans, Grow_addEdge, Grow_addEdgesFrom.
      + done.
      + rewrite addEdgesFrom_next. simpl. lia.
      + cbn [exits]. rewrite Hid. apply Between_single.
        rewrite addEdgesFrom_next. simpl. lia.
    - subst s2. split_and!; [auto|done|done|lia|].
      cbn [exits]. rewrite Hid. apply Between_single. lia. }
  destruct (has MATCH_TYPES (Ast.kind c)).
  { destruct (makeBlock s _ match_kind c p _) as [mb s1] eqn:Hmb.
    apply makeBlock_dir in Hmb as (Hid & _ & Hn1 & _ & _ & Hg1 & Hd1).
    destruct (buildArms _ _ _ _ _ _ _ s1) as [[exs s2]|] eqn:Ha; [|done].
    cbn [mbind option_bind] in H.
    apply (buildArms_dir _ IH _ (nextBlockId s) _ _ _ _ _ _ _ _ (nextBlockId s)) in Ha
      as (Hd2 & Hg2 & Hb2); [|done|lia|lia|constructor].
    inversion H; subst r s'; clear H.
    assert (nextBlockId s1 ≤ nextBlockId s2) as H12 by apply Hg2.
    split_and!; [auto|eauto using Grow_trans|done|lia|].
    cbn [exits]. case_bool_decide; [|done]. rewrite Hid. apply Between_single. lia. }
  destruct (has RETURN_TYPES (Ast.kind c)).
  { destruct (makeBlock s _ return_kind c p _) as [rb s1] eqn:Hmb.
    apply makeBlock_dir in Hmb as (Hid & _ & Hn1 & _ & _ & Hg1 & Hd1).
    inversion H; subst r s'; clear H.
    split_and!; [done|done|done|lia|constructor]. }
  destruct (has FUNCTION_TYPES (Ast.kind c)).
  { destruct (makeBlock s _ entry_kind c p _) as [eb s1] eqn:Hmb.
    apply makeBlock_dir in Hmb as (Hid & _ & Hn1 & _ & _ & Hg1 & Hd1).
    destruct (buildOpt _ (findBody c) p s1) as [[br s2]|] eqn:Hb; [|done].
    cbn [mbind option_bind] in H.
    apply (buildOpt_dir _ IH) in Hb as (Hd2 & Hg2 & Hr2).
    assert (nextBlockId s1 ≤ nextBlockId s2) as H12 by apply Hg2.
    destruct br as [b|].
    - destruct Hr2 as (He & Hlt & Hex).
      destruct (makeBlock (addEdge s2 (id eb) (entry b) None) "end" exit_kind c p _)
        as [xb s4] eqn:Hmx.
      apply makeBlock_dir in Hmx as (Hidx & _ & Hn4 & Hb4 & _ & Hg4 & Hd4).
      simpl in Hidx, Hn4.
      inversion H; subst r s'; clear H.
      split_and!.
      + intros Hs. apply DirAll_addEdgesFrom.
        * apply Hd4, DirAll_addEdge; [auto|]. rewrite Hid, He.
          apply Dir_forward; [apply LabelOk_None|lia].
        * rewrite Hidx. eapply Dir_from_exits. exact Hex.
      + eauto using Grow_trans, Grow_addEdge, Grow_addEdgesFrom.
      + done.
      + rewrite addEdgesFrom_next. lia.
      + cbn [exits]. rewrite Hidx. apply Between_single.
        rewrite addEdgesFrom_next. lia.
    - subst s2. inversion H; subst r s'; clear H.
      split_and!; [auto|done|done|lia|].
      cbn [exits]. rewrite Hid. apply Between_single. lia. }
  destruct (_ || _).
  { by apply (buildChildrenWith_dir _ IH) in H. }
  destruct (_ && _).
  - destruct (makeBlock s _ statement c p _) as [sb s1] eqn:Hmb.
    apply makeBlock_dir in Hmb as (Hid & _ & Hn1 & _ & _ & Hg1 & Hd1).
    inversion H; subst r s'; clear H.
    split_and!; [done|done|done|lia|].
    cbn [exits]. rewrite Hid. apply Between_single. lia.
  - inversion H; subst. split_and!; [done|apply Grow_refl|done].
Qed.

Lemma buildChildren_dir (fuel : nat) (code : string) :
  NodeDir (buildChildren fuel code).
Proof. apply buildChildrenWith_dir, buildNode_dir. Qed.

Lemma buildRoot_dir (ast : AstNode) (code : string) r s :
  buildRoot ast code = Some (r, s) →
  DirAll s ∧ (∀ r0, r = Some r0 → entry r0 = makeId 0).
Proof.
  intros H. apply buildChildren_dir in H as (Hd & _ & Hr). split.
  - apply Hd. constructor.
  - intros r0 ->. by destruct Hr as (-> & _).
Qed.

(** The rank of the block [cfg_k] when the sentinel, if any, is [cfg_n]:
    the sentinel comes first, the other blocks follow in creation order. *)
Definition rank (sentinel : option nat) (k : nat) : nat :=
  if bool_decide (sentinel = Some k) then 0 else S k.

(** The shape of the edges of a built graph. *)
Lemma buildCfg_edges_ranked (ast : AstNode) (code : string) :
  ∃ cfg sentinel, buildCfg ast code = Some cfg ∧
    (∀ n, sentinel = Some n →
       S n = length (blocks cfg) ∧
       ∃ blk, blocks cfg !! 0 = Some blk ∧ id blk = makeId n ∧
              kind blk = entry_kind ∧ label blk = "entry") ∧
    ∀ e, e ∈ edges cfg →
      LabelOk (edge_label e) ∧
      ∃ a b, from e = makeId a ∧ to e = makeId b ∧
        a < length (blocks cfg) ∧ b < length (blocks cfg) ∧
        ((a < b ∧ sentinel ≠ Some a ∧ sentinel ≠ Some b)
         ∨ (b < a ∧ edge_label e = Some "next" ∧ sentinel ≠ Some a ∧
            ∃ blk, blk ∈ blocks cfg ∧ id blk = makeId b ∧ kind blk = loop)
         ∨ (sentinel = Some a ∧ b = 0 ∧ 0 < a ∧ edge_label e = None)).
Proof.
  destruct (buildRoot_spec ast code) as (r & s & Hroot & _).
  destruct (buildRoot_ids ast code r s Hroot) as (Hids & Hnext & Hok & Hr).
  destruct (buildRoot_dir ast code r s Hroot) as (Hdir & Hentry).
  unfold buildCfg. rewrite Hroot. simpl.
  assert (∀ e, e ∈ ctx_edges s →
            LabelOk (edge_label e) ∧
            ∃ a b, from e = makeId a ∧ to e = makeId b ∧
              a < length (ctx_blocks s) ∧ b < length (ctx_blocks s) ∧
              (a < b ∨ (b < a ∧ edge_label e = Some "next" ∧
                        ∃ blk, blk ∈ ctx_blocks s ∧ id blk = makeId b ∧ kind blk = loop)))
    as Hraw.
  { intros e He. unfold DirAll in Hdir. rewrite Forall_forall in Hdir, Hok.
    destruct (Hdir e He) as (Hlab & a & b & Hf & Ht & Hshape). split; [done|].
    destruct (Hok e He) as [Hlf Hlt]. apply Live_id in Hlf.
    apply (seq_ids_elem _ _ Hids) in Hlf as (a' & Ha' & Hla).
    apply (seq_ids_elem _ _ Hids) in Hlt as (b' & Hb' & Hlb).
    rewrite Hf in Ha'. apply makeId_inj in Ha' as <-.
    rewrite Ht in Hb'. apply makeId_inj in Hb' as <-.
    by exists a, b. }
  destruct (addSentinel_spec ast r s) as [[-> _]|(r0 & -> & Hne & _ & Hb & He)].
  - eexists _, None. split; [done|]. cbn [blocks edges]. split; [done|].
    intros e Hin%dedup_elem_of.
    destruct (Hraw e Hin) as (Hlab & a & b & Hf & Ht & Ha & Hb & [Hlt|Hback]).
    + split; [done|]. exists a, b. split_and!; [done..|]. left. done.
    + split; [done|]. exists a, b. split_and!; [done..|]. right; left.
      destruct Hback as (? & ? & ?). done.
  - eexists _, (Some (length (ctx_blocks s))). split; [done|]. cbn [blocks edges].
    rewrite Hb, He. split.
    { intros n [= <-]. split; [done|]. eexists. split; [done|].
      unfold sentinelOf. simpl. by rewrite Hnext. }
    intros e [Hin|Hin]%dedup_elem_of%elem_of_app.
    + destruct (Hraw e Hin) as (Hlab & a & b & Hf & Ht & Ha & Hb' & Hshape).
      split; [done|]. exists a, b. simpl length. split_and!; [done|done|lia|lia|].
      assert (Some (length (ctx_blocks s)) ≠ Some a) by (intros [= ?]; lia).
      assert (Some (length (ctx_blocks s)) ≠ Some b) by (intros [= ?]; lia).
      destruct Hshape as [Hlt|(Hlt & Hl & blk & Hblk & Hid & Hk)].
      * left. done.
      * right; left. split_and!; [done..|]. exists blk. split_and!; [by right|done..].
    + apply list_elem_of_singleton in Hin as ->. simpl.
      split; [apply LabelOk_None|].
      exists (length (ctx_blocks s)), 0. unfold sentinelOf. simpl. rewrite Hnext.
      split_and!; [done|by apply Hentry|lia|lia|].
      right; right. split_and!; [done..| |done].
      destruct (ctx_blocks s); [done|simpl; lia].
Qed.

(** X6. Every edge of a built graph leads forward in creation order, from
    [cfg_a] to [cfg_b] with [a < b], with two exceptions only: the edges
    labeled "next" that close a loop, which lead back to a block of kind
    [loop], and the unlabeled edge from the synthetic entry block, which
    was created last, to [cfg_0].  The label of an edge, if it has one, is
    one line of at most 24 characters. *)
Theorem buildCfg_edge_direction (ast : AstNode) (code : string) :
  ∃ cfg, buildCfg ast code = Some cfg ∧
    ∀ e, e ∈ edges cfg →
      (∀ t, edge_label e = Some t → String.length t ≤ 24 ∧ charFree "010" t) ∧
      ∃ a b, from e = makeId a ∧ to e = makeId b ∧
        (a < b
         ∨ (b < a ∧ edge_label e = Some "next" ∧
            ∃ blk, blk ∈ blocks cfg ∧ id blk = makeId b ∧ kind blk = loop)
         ∨ (b = 0 ∧ edge_label e = None ∧ S a = length (blocks cfg) ∧
            ∃ blk, blocks cfg !! 0 = Some blk ∧ id blk = makeId a ∧
                   kind blk = entry_kind ∧ label blk = "entry")).
Proof.
  destruct (buildCfg_edges_ranked ast code) as (cfg & sentinel & Hcfg & Hs & Hedges).
  exists cfg. split; [done|]. intros e He.
  destruct (Hedges e He) as (Hlab & a & b & Hf & Ht & _ & _ & Hshape).
  split; [exact Hlab|]. exists a, b. split_and!; [done..|].
  destruct Hshape as [(? & _)|[(? & ? & _ & ?)|(Hsa & -> & _ & ?)]];
    [by left|right; by left|].
  right; right. destruct (Hs a Hsa) as (? & ?). done.
Qed.

(** X7. [buildNode] returns [null] exactly for the nodes that yield nothing
    (unnamed nodes and comments that match no rule, and containers all of
    whose named children yield nothing), and then it leaves the build
    context untouched: no block, no edge, no id is consumed.  When it
    returns a result, it has appended at least one block and removed
    nothing; the entry of the result is the first block it appended, and
    every exit is one of the blocks it appended. *)
Theorem buildNode_null_iff (code : string) (n : AstNode) (p : string)
    (s : BuildCtx) (k : nat) :
  ∃ r s', buildNode (depth n + k) code n p s = Some (r, s') ∧
    (r = None ↔ yields n = false) ∧
    (r = None → s' = s) ∧
    (∀ r0, r = Some r0 →
       ∃ b bs es, ctx_blocks s' = ctx_blocks s ++ b :: bs ∧
                  ctx_edges s' = ctx_edges s ++ es ∧
                  entry r0 = id b ∧
                  ∀ x, x ∈ exits r0 → x ∈ id <$> b :: bs).
Proof.
  destruct (buildNode_total (depth n + k) code n p s) as [[r s'] H]; [lia|].
  exists r, s'. split; [done|].
  pose proof (buildNode_yields _ _ _ _ _ _ _ H) as Hy.
  pose proof (buildNode_dir _ _ _ _ _ _ _ H) as (_ & _ & Hdir).
  destruct (buildNode_spec _ _ _ _ _ _ _ H) as (bs & es & Hx & Hr & _).
  pose proof (step_null_or_grows _ _ _ _ _ Hx Hr) as Hstep.
  split_and!.
  - destruct r as [r0|].
    + destruct Hy as [Hy _]. rewrite Hy by (by eexists). split; discriminate.
    + split; [|done]. intros _. destruct (yields n); [|done].
      destruct Hy as [_ Hy]. destruct (Hy eq_refl) as [? ?]. done.
  - by intros ->.
  - intros r0 ->. destruct Hstep as (b & bs' & Hb). exists b, bs', es.
    pose proof (ext_blocks _ _ _ _ Hx) as Hb'. rewrite Hb in Hb'.
    apply app_inv_head in Hb'. subst bs.
    split_and!; [done|apply (ext_edges _ _ _ _ Hx)| |].
    + destruct Hdir as (-> & _). pose proof (ext_ids _ _ _ _ Hx) as Hids.
      simpl in Hids. by inversion Hids.
    + intros x Hin. destruct Hr as [_ Hex]. rewrite Forall_forall in Hex.
      by apply Live_id, Hex.
Qed.

(* ================================================================== *)
(** * Where blocks come from *)
(* ================================================================== *)

(** [n] is [root] or lies below it. *)
Definition descends (root n : AstNode) : Prop :=
  rtc (λ a b, b ∈ Ast.children a) root n.

(** The kind of block that the first matching rule of [buildNode] makes for
    a node itself ([None] for containers and for nodes that yield nothing
    of their own). *)
Definition ruleKind (n : AstNode) : option CfgBlockKind :=
  if has IF_TYPES (Ast.kind n) then Some branch
  else if has LOOP_TYPES (Ast.kind n) then Some loop
  else if has MATCH_TYPES (Ast.kind n) then Some match_kind
  else if has RETURN_TYPES (Ast.kind n) then Some return_kind
  else if has FUNCTION_TYPES (Ast.kind n) then Some entry_kind
  else if has CONTAINER_TYPES (Ast.kind n) || isContainerLike n then None
  else if Ast.isNamed n && negb (bool_decide (Ast.kind n = "comment"))
       then Some statement
  else None.

(** The block [b] was made for the node [n]. *)
Record BlockOf (n : AstNode) (b : CfgBlock) : Prop := {
  of_start : start b = Ast.start n;
  of_end : end_ b = Ast.end_ n;
  of_startPosition : startPosition b = Ast.startPosition n;
  of_endPosition : endPosition b = Ast.endPosition n;
  of_kind : ruleKind n = Some (kind b)
            ∨ (kind b = exit_kind ∧ ruleKind n = Some entry_kind);
  of_label : Short 54 (label b);
  of_statements : ∃ st, statements b = [st] ∧ Short 54 st;
}.

Definition NodeProv (bn : AstNode → string → Build (option Result)) : Prop :=
  ∀ c p s r s', bn c p s = Some (r, s') →
    ∃ bs, ctx_blocks s' = ctx_blocks s ++ bs ∧
      Forall (λ b, ∃ n, descends c n ∧ BlockOf n b) bs.

Lemma descends_child (root c n : AstNode) :
  c ∈ Ast.children root → descends c n → descends root n.
Proof. intros Hc Hn. by eapply rtc_l. Qed.

Lemma findArms_descends (n arm : AstNode) :
  arm ∈ findArms n → ∃ c, c ∈ Ast.children n ∧ descends c arm.
Proof.
  revert arm. induction n as [k s e sp ep t nm cs IH] using AstNode_ind.
  intros arm Hin. simpl in Hin.
  apply list_elem_of_In, in_flat_map in Hin as (c & Hc & Hin).
  apply list_elem_of_In in Hc. exists c. split; [done|].
  apply in_app_or in Hin as [Hin|Hin].
  - destruct (has _ _); [|done]. destruct Hin as [<-|[]]. apply rtc_refl.
  - destruct (has _ (Ast.kind c)); [|done].
    rewrite Forall_forall in IH. apply list_elem_of_In in Hin.
    destruct (IH c Hc arm Hin) as (c' & Hc' & Hd). by eapply descends_child.
Qed.

Lemma Prov_weaken (c c' : AstNode) (bs : list CfgBlock) :
  (∀ n, descends c' n → descends c n) →
  Forall (λ b, ∃ n, descends c' n ∧ BlockOf n b) bs →
  Forall (λ b, ∃ n, descends c n ∧ BlockOf n b) bs.
Proof.
  intros Hd H. eapply Forall_impl; [exact H|]. intros b (n & ? & ?). exists n. auto.
Qed.

Lemma chain_blocks (s : BuildCtx) (prev : Result) (rest : list Result) :
  ctx_blocks (chain s prev rest) = ctx_blocks s.
Proof. apply chain_same. Qed.

Section prov_spec.
Context (bn : AstNode → string → Build (option Result)).
Context (Hbn : NodeProv bn).

Lemma buildEach_prov (node : AstNode) (cis : list (AstNode * nat)) path acc s rs s' :
  (∀ c i, (c, i) ∈ cis → c ∈ Ast.children node) →
  buildEach bn cis path acc s = Some (rs, s') →
  ∃ bs, ctx_blocks s' = ctx_blocks s ++ bs ∧
    Forall (λ b, ∃ n, descends node n ∧ BlockOf n b) bs.
Proof.
  revert acc s. induction cis as [|[c i] cis IH]; intros acc s Hcis H; simpl in H.
  - inversion H; subst. exists []. by rewrite app_nil_r.
  - destruct (bn c _ s) as [[r s1]|] eqn:Hc; simpl in H; [|done].
    apply Hbn in Hc as (bs1 & Hb1 & Hp1).
    apply IH in H as (bs2 & Hb2 & Hp2); [|intros c' i' ?; apply (Hcis c' i'); by right].
    exists (bs1 ++ bs2). split; [by rewrite Hb2, Hb1, app_assoc|].
    apply Forall_app. split; [|done].
    eapply Prov_weaken; [|exact Hp1]. intros n. apply descends_child.
    apply (Hcis c i). by left.
Qed.

Lemma buildChildrenWith_prov (c : AstNode) p s r s' :
  buildChildrenWith bn c p s = Some (r, s') →
  ∃ bs, ctx_blocks s' = ctx_blocks s ++ bs ∧
    Forall (λ b, ∃ n, descends c n ∧ BlockOf n b) bs.
Proof.
  unfold buildChildrenWith. intros H. case_bool_decide.
  { inversion H; subst. exists []. by rewrite app_nil_r. }
  destruct (buildEach _ _ _ _ _) as [[rs s1]|] eqn:He; simpl in H; [|done].
  apply (buildEach_prov c) in He as (bs & Hb & Hp);
    [|intros c' i'; apply childIndices_child].
  destruct rs as [|r0 rest]; inversion H; subst; [by exists bs|].
  exists bs. by rewrite chain_blocks.
Qed.

Lemma buildOpt_prov (c : AstNode) (o : option AstNode) p s r s' :
  (∀ b, o = Some b → b ∈ Ast.children c) →
  buildOpt (buildChildrenWith bn) o p s = Some (r, s') →
  ∃ bs, ctx_blocks s' = ctx_blocks s ++ bs ∧
    Forall (λ b, ∃ n, descends c n ∧ BlockOf n b) bs.
Proof.
  intros Ho. destruct o as [b|]; simpl; intros H.
  - apply buildChildrenWith_prov in H as (bs & Hb & Hp). exists bs. split; [done|].
    eapply Prov_weaken; [|exact Hp]. intros n. apply descends_child. by apply Ho.
  - inversion H; subst. exists []. by rewrite app_nil_r.
Qed.

Lemma buildArms_prov (c : AstNode) mid arms i path code exs s exs' s' :
  (∀ a, a ∈ arms → descends c a) →
  buildArms (buildChildrenWith bn) mid arms i path code exs s = Some (exs', s') →
  ∃ bs, ctx_blocks s' = ctx_blocks s ++ bs ∧
    Forall (λ b, ∃ n, descends c n ∧ BlockOf n b) bs.
Proof.
  revert i exs s. induction arms as [|a arms IH]; intros i exs s Harms H; simpl in H.
  - inversion H; subst. exists []. by rewrite app_nil_r.
  - destruct (buildChildrenWith bn a _ s) as [[r s1]|] eqn:Ha; simpl in H; [|done].
    apply buildChildrenWith_prov in Ha as (bs1 & Hb1 & Hp1).
    assert (Forall (λ b, ∃ n, descends c n ∧ BlockOf n b) bs1) as Hp1'.
    { eapply Prov_weaken; [|exact Hp1]. intros n Hn.
      unfold descends. etrans; [apply Harms; by left|exact Hn]. }
    assert (∀ a', a' ∈ arms → descends c a') as Harms'
      by (intros a' ?; apply Harms; by right).
    destruct r as [r|].
    + apply IH in H as (bs2 & Hb2 & Hp2); [|done].
      exists (bs1 ++ bs2). split; [|by apply Forall_app].
      rewrite Hb2. simpl. by rewrite Hb1, app_assoc.
    + apply IH in H as (bs2 & Hb2 & Hp2); [|done].
      exists (bs1 ++ bs2). split; [|by apply Forall_app].
      by rewrite Hb2, Hb1, app_assoc.
Qed.
End prov_spec.

Lemma makeBlock_fields s lbl k node path stmts b s1 :
  makeBlock s lbl k node path stmts = (b, s1) →
  ctx_blocks s1 = ctx_blocks s ++ [b] ∧
  start b = Ast.start node ∧ end_ b = Ast.end_ node ∧
  startPosition b = Ast.startPosition node ∧ endPosition b = Ast.endPosition node ∧
  kind b = k ∧ label b = lbl ∧ statements b = stmts.
Proof. unfold makeBlock. intros [= <- <-]. simpl. by split_and!. Qed.

Lemma BlockOf_made s lbl k node path b s1 (st : string) :
  makeBlock s lbl k node path [st] = (b, s1) →
  (ruleKind node = Some k ∨ (k = exit_kind ∧ ruleKind node = Some entry_kind)) →
  Short 54 lbl → Short 54 st →
  ctx_blocks s1 = ctx_blocks s ++ [b] ∧ BlockOf node b.
Proof.
  intros H Hk Hl Hs.
  apply makeBlock_fields in H as (Hb & ? & ? & ? & ? & <- & <- & Hst).
  split; [done|]. split; try done. by exists st.
Qed.

Lemma edge_opt_blocks (s : BuildCtx) (tr : option Result) f l :
  ctx_blocks (match tr with
              | Some t => addEdge s f (entry t) l
              | None => s
              end) = ctx_blocks s.
Proof. by destruct tr. Qed.

Lemma Short_cond (c : AstNode) (code dflt : string) :
  Short 48 dflt →
  Short 48 (match findCondition c with
            | Some x => summary x code 48
            | None => dflt
            end).
Proof. intros Hd. destruct (findCondition c); [apply Short_summary; lia|done]. Qed.

Lemma buildNode_prov (fuel : nat) (code : string) : NodeProv (buildNode fuel code).
Proof.
  induction fuel as [|fuel IH]; intros c p s r s' H; [done|].
  cbn [buildNode] in H.
  assert (∀ b, BlockOf c b → ∃ n, descends c n ∧ BlockOf n b) as Hself.
  { intros b Hb. exists c. split; [apply rtc_refl|done]. }
  destruct (has IF_TYPES (Ast.kind c)) eqn:Hif.
  { destruct (makeBlock s _ branch c p _) as [bb s1] eqn:Hmb.
    apply BlockOf_made in Hmb as (Hb1 & Hof).
    2:{ left. unfold ruleKind. by rewrite Hif. }
    2,3: apply (Short_mono (3 + 48)); [lia|];
         apply (Short_append 3 48 "if "); [short_literal|];
         apply Short_cond; short_literal.
    destruct (buildOpt _ (findBody c) p s1) as [[tr s2]|] eqn:Ht; [|done].
    cbn [mbind option_bind] in H.
    apply (buildOpt_prov _ IH c) in Ht as (bs2 & Hb2 & Hp2);
      [|intros b; apply findBody_child].
    destruct (buildOpt _ (findElse c) p _) as [[fr s4]|] eqn:Hf; [|done].
    cbn [mbind option_bind] in H.
    apply (buildOpt_prov _ IH c) in Hf as (bs4 & Hb4 & Hp4);
      [|intros b; apply findElse_child].
    rewrite edge_opt_blocks in Hb4.
    inversion H; subst r s'; clear H.
    exists ([bb] ++ bs2 ++ bs4). split.
    - by rewrite edge_opt_blocks, Hb4, Hb2, Hb1, <-!app_assoc.
    - apply Forall_app. split; [by repeat constructor; apply Hself|].
      by apply Forall_app. }
  destruct (has LOOP_TYPES (Ast.kind c)) eqn:Hloop.
  { destruct (makeBlock s _ loop c p _) as [lb s1] eqn:Hmb.
    assert (Short 54 (if truthy (match findCondition c with
                                 | Some x => summary x code 48
                                 | None => ""
                                 end)
                      then (if String.prefix "for" (Ast.kind c) then "for" else "while")
                           +:+ " " +:+ match findCondition c with
                                       | Some x => summary x code 48
                                       | None => ""
                                       end
                      else if String.prefix "for" (Ast.kind c) then "for" else "while"))
      as Hlbl.
    { assert (Short 5 (if String.prefix "for" (Ast.kind c) then "for" else "while")) as Hkw.
      { destruct (String.prefix _ _); short_literal. }
      destruct (truthy _).
      - apply (Short_append 5 49); [done|].
        apply (Short_append 1 48 " "); [short_literal|].
        apply Short_cond. short_literal.
      - by eapply Short_mono; [|exact Hkw]; lia. }
    apply BlockOf_made in Hmb as (Hb1 & Hof); [|left; unfold ruleKind; by rewrite Hif, Hloop|done..].
    destruct (buildOpt _ (findBody c) p s1) as [[br s2]|] eqn:Hb; [|done].
    cbn [mbind option_bind] in H.
    apply (buildOpt_prov _ IH c) in Hb as (bs2 & Hb2 & Hp2);
      [|intros b; apply findBody_child].
    inversion H; subst r s'; clear H.
    exists ([lb] ++ bs2). split.
    - destruct br; [rewrite addEdgesFrom_blocks; simpl|];
        by rewrite Hb2, Hb1, <-app_assoc.
    - apply Forall_app. split; [by repeat constructor; apply Hself|done]. }
  destruct (has MATCH_TYPES (Ast.kind c)) eqn:Hmatch.
  { destruct (makeBlock s _ match_kind c p _) as [mb s1] eqn:Hmb.
    apply BlockOf_made in Hmb as (Hb1 & Hof);
      [|left; unfold ruleKind; by rewrite Hif, Hloop, Hmatch|short_literal
       |eapply Short_mono; [|apply Short_summary]; lia].
    destruct (buildArms _ _ _ _ _ _ _ s1) as [[exs s2]|] eqn:Ha; [|done].
    cbn [mbind option_bind] in H.
    apply (buildArms_prov _ IH c) in Ha as (bs2 & Hb2 & Hp2).
    2:{ intros a Ha'. apply findArms_descends in Ha' as (c' & Hc' & Hd).
        by eapply descends_child. }
    inversion H; subst r s'; clear H.
    exists ([mb] ++ bs2). split; [by rewrite Hb2, Hb1, <-app_assoc|].
    apply Forall_app. split; [by repeat constructor; apply Hself|done]. }
  destruct (has RETURN_TYPES (Ast.kind c)) eqn:Hret.
  { destruct (makeBlock s _ return_kind c p _) as [rb s1] eqn:Hmb.
    apply BlockOf_made in Hmb as (Hb1 & Hof);
      [|left; unfold ruleKind; by rewrite Hif, Hloop, Hmatch, Hret
       |eapply Short_mono; [|apply Short_summary]; lia..].
    inversion H; subst r s'; clear H.
    exists [rb]. split; [done|]. by repeat constructor; apply Hself. }
  destruct (has FUNCTION_TYPES (Ast.kind c)) eqn:Hfn.
  { destruct (makeBlock s _ entry_kind c p _) as [eb s1] eqn:Hmb.
    assert (Short 54 (match find (λ c0, bool_decide (Ast.kind c0 = "identifier")
                                        || bool_decide (Ast.kind c0 = "name"))
                                 (Ast.children c) with
                      | Some f => "fn " +:+ summary f code 24
                      | None => "fn"
                      end)) as Hlbl.
    { destruct (find _ _); [|short_literal].
      apply (Short_mono (3 + 24)); [lia|].
      apply (Short_append 3 24 "fn "); [short_literal|].
      apply Short_summary. lia. }
    apply BlockOf_made in Hmb as (Hb1 & Hof);
      [|left; unfold ruleKind; by rewrite Hif, Hloop, Hmatch, Hret, Hfn|done..].
    destruct (buildOpt _ (findBody c) p s1) as [[br s2]|] eqn:Hb; [|done].
    cbn [mbind option_bind] in H.
    apply (buildOpt_prov _ IH c) in Hb as (bs2 & Hb2 & Hp2);
      [|intros b; apply findBody_child].
    destruct br as [b|].
    - destruct (makeBlock (addEdge s2 (id eb) (entry b) None) "end" exit_kind c p _)
        as [xb s4] eqn:Hmx.
      apply BlockOf_made in Hmx as (Hb4 & Hofx);
        [|right; split; [done|]; unfold ruleKind; by rewrite Hif, Hloop, Hmatch, Hret, Hfn
         |short_literal..].
      simpl in Hb4.
      inversion H; subst r s'; clear H.
      exists ([eb] ++ bs2 ++ [xb]). split.
      + by rewrite addEdgesFrom_blocks, Hb4, Hb2, Hb1, <-!app_assoc.
      + apply Forall_app. split; [by repeat constructor; apply Hself|].
        apply Forall_app. split; [done|]. by repeat constructor; apply Hself.
    - inversion H; subst r s'; clear H.
      exists ([eb] ++ bs2). split; [by rewrite Hb2, Hb1, <-app_assoc|].
      apply Forall_app. split; [by repeat constructor; apply Hself|done]. }
  destruct (_ || _) eqn:Hcont.
  { by apply (buildChildrenWith_prov _ IH) in H. }
  destruct (_ && _) eqn:Hstmt.
  - destruct (makeBlock s _ statement c p _) as [sb s1] eqn:Hmb.
    apply BlockOf_made in Hmb as (Hb1 & Hof);
      [|left; unfold ruleKind; by rewrite Hif, Hloop, Hmatch, Hret, Hfn, Hcont, Hstmt
       |eapply Short_mono; [|apply Short_summary]; lia..].
    inversion H; subst r s'; clear H.
    exists [sb]. split; [done|]. by repeat constructor; apply Hself.
  - inversion H; subst. exists []. by rewrite app_nil_r.
Qed.

Lemma buildChildren_prov (fuel : nat) (code : string) (c : AstNode) p s r s' :
  buildChildren fuel code c p s = Some (r, s') →
  ∃ bs, ctx_blocks s' = ctx_blocks s ++ bs ∧
    Forall (λ b, ∃ n, descends c n ∧ BlockOf n b) bs.
Proof. apply buildChildrenWith_prov, buildNode_prov. Qed.

(** The synthetic entry block: it spans the whole tree. *)
Definition IsSentinel (ast : AstNode) (cfg : Cfg) (b : CfgBlock) : Prop :=
  blocks cfg !! 0 = Some b ∧ kind b = entry_kind ∧
  label b = "entry" ∧ statements b = ["entry"] ∧ astPath b = "root" ∧
  start b = Ast.start ast ∧ end_ b = Ast.end_ ast ∧
  startPosition b = Ast.startPosition ast ∧ endPosition b = Ast.endPosition ast.

Lemma buildCfg_blocks_made (ast : AstNode) (code : string) :
  ∃ cfg, buildCfg ast code = Some cfg ∧
    ∀ b, b ∈ blocks cfg →
      (∃ n, descends ast n ∧ BlockOf n b) ∨ IsSentinel ast cfg b.
Proof.
  destruct (buildRoot_spec ast code) as (r & s & Hroot & _).
  pose proof Hroot as Hprov. apply buildChildren_prov in Hprov as (bs & Hbs & Hp).
  simpl in Hbs. subst bs. rewrite Forall_forall in Hp.
  unfold buildCfg. rewrite Hroot. simpl. eexists. split; [done|]. cbn [blocks].
  destruct (addSentinel_spec ast r s) as [[-> _]|(r0 & -> & _ & _ & Hb & _)].
  - intros b Hin. left. by apply Hp.
  - rewrite Hb. intros b [->|Hin]%elem_of_cons; [|left; by apply Hp].
    right. unfold IsSentinel. cbn [blocks]. rewrite ?Hb. done.
Qed.

(** X8. Every block of a built graph can be traced to the tree: apart
    from the synthetic entry block, which spans the root, each block
    carries the source range and positions of a node of the tree, and its
    kind is the one of the first rule that matches that node ([branch] for
    an if node, [loop] for a loop node, [match] for a match node, [return]
    for a terminator, [entry] for a function node, [statement] for any
    other named node that is neither a comment nor a container), or [exit]
    for the end block of a function node. *)
Theorem buildCfg_block_provenance (ast : AstNode) (code : string) :
  ∃ cfg, buildCfg ast code = Some cfg ∧
    ∀ b, b ∈ blocks cfg →
      (∃ n, descends ast n ∧
         start b = Ast.start n ∧ end_ b = Ast.end_ n ∧
         startPosition b = Ast.startPosition n ∧ endPosition b = Ast.endPosition n ∧
         (ruleKind n = Some (kind b)
          ∨ (kind b = exit_kind ∧ ruleKind n = Some entry_kind)))
      ∨ (blocks cfg !! 0 = Some b ∧ kind b = entry_kind ∧ label b = "entry" ∧
         astPath b = "root" ∧
         start b = Ast.start ast ∧ end_ b = Ast.end_ ast ∧
         startPosition b = Ast.startPosition ast ∧
         endPosition b = Ast.endPosition ast).
Proof.
  destruct (buildCfg_blocks_made ast code) as (cfg & Hcfg & Hall).
  exists cfg. split; [done|]. intros b Hb.
  destruct (Hall b Hb) as [(n & Hn & Hof)|Hs].
  - left. exists n. destruct Hof. split_and!; assumption.
  - right. destruct Hs as (? & ? & ? & ? & ? & ? & ? & ? & ?). by split_and!.
Qed.

(** X9. The texts of a built graph are short: every block has a label of
    one line (no line feed) and at most 54 characters, and exactly one
    statement text, again of one line and at most 54 characters. *)
Theorem buildCfg_labels_short (ast : AstNode) (code : string) :
  ∃ cfg, buildCfg ast code = Some cfg ∧
    ∀ b, b ∈ blocks cfg →
      String.length (label b) ≤ 54 ∧ charFree "010" (label b) ∧
      ∃ st, statements b = [st] ∧ String.length st ≤ 54 ∧ charFree "010" st.
Proof.
  destruct (buildCfg_blocks_made ast code) as (cfg & Hcfg & Hall).
  exists cfg. split; [done|]. intros b Hb.
  destruct (Hall b Hb) as [(n & Hn & Hof)|Hs].
  - destruct Hof as [_ _ _ _ _ [? ?] (st & ? & ? & ?)]. split_and!; [done..|].
    by exists st.
  - destruct Hs as (_ & _ & -> & -> & _). split_and!; [simpl; lia|by simpl|].
    exists "entry". split_and!; [done|simpl; lia|by simpl].
Qed.

(* ================================================================== *)
(** * Straight-line code *)
(* ================================================================== *)

(** The unlabeled edge from [cfg_a] to [cfg_b]. *)
Definition plainEdge (a b : nat) : CfgEdge :=
  {| from := makeId a; to := makeId b; edge_label := None |}.

(** The result of a simple statement whose block is [cfg_j]. *)
Definition leafResult (j : nat) : Result :=
  {| entry := makeId j; exits := [makeId j] |}.

Lemma buildEach_leaves (fuel : nat) (code : string) (cis : list (AstNode * nat))
    (path : string) (acc : list Result) (s : BuildCtx) :
  Forall (λ ci : AstNode * nat, leafStatement ci.1 = true) cis →
  ∃ s' bs,
    buildEach (buildNode (S fuel) code) cis path acc s
      = Some (acc ++ (leafResult <$> seq (nextBlockId s) (length cis)), s') ∧
    ctx_blocks s' = ctx_blocks s ++ bs ∧ ctx_edges s' = ctx_edges s ∧
    nextBlockId s' = nextBlockId s + length cis ∧
    id <$> bs = makeId <$> seq (nextBlockId s) (length cis) ∧
    kind <$> bs = replicate (length cis) statement ∧
    label <$> bs = (λ ci : AstNode * nat, summary ci.1 code 48) <$> cis.
Proof.
  revert acc s. induction cis as [|[c i] cis IH]; intros acc s Hall.
  - exists s, []. simpl. rewrite !app_nil_r. split_and!; auto.
  - apply Forall_cons in Hall as [Hc Hall]. simpl in Hc.
    cbn [buildEach]. rewrite (buildNode_leaf_eq fuel code c _ s Hc).
    destruct (makeBlock s _ statement c _ _) as [b s1] eqn:Hmb.
    pose proof Hmb as Hmb'.
    apply makeBlock_fields in Hmb as (Hb1 & _ & _ & _ & _ & Hk & Hl & _).
    apply makeBlock_dir in Hmb' as (Hid & _ & Hn1 & _ & He1 & _ & _).
    cbn [mbind option_bind].
    destruct (IH (acc ++ [{| entry := id b; exits := [id b] |}]) s1 Hall)
      as (s' & bs & Hrun & Hbs & Hes & Hn & Hids & Hks & Hls).
    exists s', (b :: bs). rewrite Hrun, Hn1. split_and!.
    + f_equal. f_equal. rewrite <-app_assoc. simpl. by rewrite Hid.
    + by rewrite Hbs, Hb1, <-app_assoc.
    + congruence.
    + rewrite Hn, Hn1. simpl. lia.
    + rewrite fmap_cons, Hid, Hids, Hn1. done.
    + rewrite fmap_cons, Hk, Hks. done.
    + rewrite !fmap_cons, Hl, Hls. done.
Qed.

Lemma chain_line (s : BuildCtx) (lo m : nat) :
  ctx_edges (chain s (leafResult lo) (leafResult <$> seq (S lo) m)) =
    ctx_edges s ++ ((λ i, plainEdge i (S i)) <$> seq lo m).
Proof.
  revert s lo. induction m as [|m IH]; intros s lo; simpl; [by rewrite app_nil_r|].
  rewrite IH. simpl. by rewrite <-app_assoc.
Qed.

(** Edges between builder-made ids with pairwise distinct sources have
    pairwise distinct keys. *)
Lemma NoDup_keys_from (es : list CfgEdge) :
  Forall (λ e, ∃ a b, from e = makeId a ∧ to e = makeId b) es →
  NoDup (from <$> es) → NoDup (edgeKey <$> es).
Proof.
  induction es as [|e es IH]; intros Hall Hnd; [constructor|].
  apply Forall_cons in Hall as [(a & b & Ha & Hb) Hall].
  rewrite fmap_cons in Hnd. apply NoDup_cons in Hnd as [Hnin Hnd].
  rewrite fmap_cons. constructor; [|by apply IH].
  intros (e' & Hk & Hin)%list_elem_of_fmap. apply Hnin.
  rewrite Forall_forall in Hall. destruct (Hall e' Hin) as (a' & b' & Ha' & Hb').
  destruct (edgeKey_inj e e' a b a' b' Ha Hb Ha' Hb' Hk) as (-> & _).
  rewrite Ha, <-Ha'. by apply list_elem_of_fmap_2.
Qed.

(** X10. Straight-line code gives a chain: when the named children of the
    root are simple statements [c_0 .. c_(n-1)], the graph has the blocks
    [cfg_n] (the synthetic entry) and [cfg_0 .. cfg_(n-1)], one statement
    block per child, in this order and labeled with the summaries of the
    children, and exactly the unlabeled edges [cfg_i → cfg_(i+1)] and
    [cfg_n → cfg_0]. *)
Theorem buildCfg_straight_line (ast : AstNode) (code : string) (stmts : list AstNode) :
  filter (λ c, Ast.isNamed c = true) (Ast.children ast) = stmts →
  stmts ≠ [] → Forall (λ c, leafStatement c = true) stmts →
  ∃ cfg, buildCfg ast code = Some cfg ∧
    id <$> blocks cfg = makeId (length stmts) :: (makeId <$> seq 0 (length stmts)) ∧
    kind <$> blocks cfg = entry_kind :: replicate (length stmts) statement ∧
    label <$> blocks cfg = "entry" :: ((λ c, summary c code 48) <$> stmts) ∧
    edges cfg = ((λ i, plainEdge i (S i)) <$> seq 0 (length stmts - 1))
                ++ [plainEdge (length stmts) 0].
Proof.
  intros Hnamed Hne Hleaf.
  assert (Forall (λ ci : AstNode * nat, leafStatement ci.1 = true) (childIndices ast))
    as Hcis.
  { apply Forall_forall. intros [c i] Hin. simpl.
    rewrite Forall_forall in Hleaf. apply Hleaf.
    rewrite <-Hnamed, <-childIndices_fst. by apply (list_elem_of_fmap_2 fst _ (c, i)). }
  assert (length (childIndices ast) = length stmts) as Hlen.
  { by rewrite <-Hnamed, <-childIndices_fst, length_fmap. }
  destruct (depth_S ast) as [fuel Hd].
  destruct (buildEach_leaves fuel code (childIndices ast) "root" [] (initCtx code) Hcis)
    as (s1 & bs & Hrun & Hbs & Hes & Hn & Hids & Hks & Hls).
  change (nextBlockId (initCtx code)) with 0 in Hrun, Hn, Hids.
  change (ctx_blocks (initCtx code)) with (@nil CfgBlock) in Hbs.
  change (ctx_edges (initCtx code)) with (@nil CfgEdge) in Hes.
  rewrite app_nil_l in Hrun, Hbs. rewrite Nat.add_0_l in Hn. rewrite Hlen in *.
  destruct stmts as [|c0 stmts'] eqn:Hst; [done|]. rewrite <-Hst in *.
  set (n := length stmts) in *.
  assert (n = S (length stmts')) as Hn' by (unfold n; by rewrite Hst).
  set (s2 := chain s1 (leafResult 0) (leafResult <$> seq 1 (n - 1))).
  assert (buildRoot ast code
          = Some (Some {| entry := makeId 0;
                          exits := exits (List.last (leafResult <$> seq 1 (n - 1))
                                                    (leafResult 0)) |}, s2)) as Hroot.
  { unfold buildRoot, buildChildren, buildChildrenWith. rewrite Hd, Hnamed.
    case_bool_decide as Hz; [unfold n in Hn'; lia|].
    assert (seq 0 n = 0 :: seq 1 (n - 1)) as Hseq.
    { rewrite Hn'. simpl. by rewrite Nat.sub_0_r. }
    rewrite Hrun, Hseq. done. }
  assert (ctx_blocks s2 = bs ∧ nextBlockId s2 = n ∧
          ctx_edges s2 = (λ i, plainEdge i (S i)) <$> seq 0 (n - 1)) as (Hb2 & Hn2 & He2).
  { unfold s2. destruct (chain_same s1 (leafResult 0) (leafResult <$> seq 1 (n - 1)))
      as [-> ->]. rewrite chain_line, Hes. done. }
  assert (bs ≠ []) as Hbne.
  { intros ->. rewrite Hn' in Hids. done. }
  assert (∀ b, b ∈ bs → kind b = statement) as Hkind.
  { intros b Hb. assert (kind b ∈ kind <$> bs) as Hin by (by apply list_elem_of_fmap_2).
    rewrite Hks in Hin. by apply elem_of_replicate in Hin as [? _]. }
  unfold buildCfg. rewrite Hroot. cbn [mbind option_bind]. eexists. split; [done|].
  cbn [blocks edges].
  destruct (addSentinel_spec ast (Some {| entry := makeId 0;
              exits := exits (List.last (leafResult <$> seq 1 (n - 1)) (leafResult 0)) |})
              s2) as [[_ [?|[Hnil|(b & Hb & Hk)]]]|(r0 & Hr0 & _ & _ & Hsb & Hse)].
  - done.
  - by rewrite Hb2 in Hnil.
  - rewrite Hb2 in Hb. rewrite (Hkind b Hb) in Hk. done.
  - inversion Hr0; subst r0; clear Hr0. rewrite Hsb, Hse, Hb2, He2. cbn [entry].
    rewrite !fmap_cons. unfold sentinelOf, makeBlock. cbn [fst id kind label].
    rewrite Hn2.
    split_and!; [by rewrite Hids|by rewrite Hks| |].
    + rewrite Hls. f_equal. rewrite <-Hnamed, <-childIndices_fst.
      by rewrite <-list_fmap_compose.
    + apply dedup_fixed; [|apply Forall_forall; intros; apply not_elem_of_empty].
      apply NoDup_keys_from.
      * apply Forall_app. split; [|repeat constructor; by eexists _, _].
        apply Forall_fmap, Forall_forall. intros i _. by eexists _, _.
      * rewrite fmap_app, <-list_fmap_compose. simpl.
        change (from ∘ (λ i, plainEdge i (S i))) with makeId.
        replace (makeId <$> seq 0 (n - 1)) with (makeId <$> seq 0 (n - 1)) by done.
        apply NoDup_app. split_and!.
        -- apply NoDup_makeId.
        -- intros x Hx [->|[]%elem_of_nil]%elem_of_cons.
           apply makeId_not_in_seq in Hx. lia.
        -- apply NoDup_singleton.
Qed.

(** [debugger; debugger;]. *)
Definition twoStatements : AstNode :=
  node "program" 0 19 true
    [node "debugger_statement" 0 9 true
       [node "debugger" 0 8 false []; node ";" 8 9 false []];
     node "debugger_statement" 10 19 true
       [node "debugger" 10 18 false []; node ";" 18 19 false []]].

Lemma buildCfg_straight_line_witness :
  filter (λ c, Ast.isNamed c = true) (Ast.children twoStatements)
    = Ast.children twoStatements ∧
  Ast.children twoStatements ≠ [] ∧
  Forall (λ c, leafStatement c = true) (Ast.children twoStatements) ∧
  ∃ cfg, buildCfg twoStatements "debugger; debugger;" = Some cfg ∧
    label <$> blocks cfg = ["entry"; "debugger;"; "debugger;"] ∧
    edges cfg = [plainEdge 0 1; plainEdge 2 0].
Proof.
  split; [reflexivity|]. split; [discriminate|].
  split; [repeat constructor|].
  destruct (buildCfg_straight_line twoStatements "debugger; debugger;"
              (Ast.children twoStatements))
    as (cfg & Hcfg & _ & _ & Hl & He); [reflexivity|discriminate|repeat constructor|].
  exists cfg. split; [exact Hcfg|]. split; [exact Hl|exact He].
Defined.

(* ================================================================== *)
(** * Adjacency lists *)
(* ================================================================== *)

Local Open Scope Z_scope.

(** The ids of the blocks of a graph. *)
Definition knownIds (bs : list CfgBlock) : gset string := list_to_set (id <$> bs).

Lemma initAdjacency_lookup (bs : list CfgBlock) (i : string) :
  successors (initAdjacency bs) !! i = (if bool_decide (i ∈ knownIds bs) then Some [] else None) ∧
  predecessors (initAdjacency bs) !! i = (if bool_decide (i ∈ knownIds bs) then Some [] else None).
Proof.
  unfold initAdjacency, knownIds.
  induction bs as [|b bs IH] using rev_ind; [done|].
  rewrite foldl_app, fmap_app, list_to_set_app_L. simpl.
  destruct IH as [IH1 IH2].
  destruct (decide (i = id b)) as [->|Hne].
  - rewrite !lookup_insert_eq. rewrite bool_decide_eq_true_2; [done|].
    apply elem_of_union. right. apply elem_of_union. left. by apply elem_of_singleton.
  - rewrite !lookup_insert_ne by done. rewrite IH1, IH2.
    assert (i ∈ (list_to_set (id <$> bs) : gset string) ∪ ({[id b]} ∪ ∅)
            ↔ i ∈ (list_to_set (id <$> bs) : gset string)) as Hiff.
    { rewrite !elem_of_union, elem_of_singleton.
      split; [intros [?|[?|[]%not_elem_of_empty]]; done|by left]. }
    split; by rewrite (bool_decide_ext _ _ Hiff).
Qed.

(** The predecessor lists: for a known id, the sources of the edges into it
    whose source is known, in edge order. *)
Definition predsFromEdges (bs : list CfgBlock) (es : list CfgEdge) (i : string)
    : list string :=
  from <$> filter (λ e, to e = i ∧ from e ∈ knownIds bs) es.

Lemma foldl_addAdjacency (bs : list CfgBlock) (es : list CfgEdge) :
  let adj := foldl addAdjacency (initAdjacency bs) es in
  ∀ i, (is_Some (successors adj !! i) ↔ i ∈ knownIds bs) ∧
       predecessors adj !! i =
         (if bool_decide (i ∈ knownIds bs) then Some (predsFromEdges bs es i) else None).
Proof.
  induction es as [|e es IH] using rev_ind; simpl; intros i.
  - destruct (initAdjacency_lookup bs i) as [-> ->].
    case_bool_decide; (split; [|done]); split; try done.
    all: try by intros [? ?].
  - rewrite foldl_app. simpl. simpl in IH.
    set (adj := foldl addAdjacency (initAdjacency bs) es) in *.
    unfold predsFromEdges. rewrite filter_app, fmap_app.
    fold (predsFromEdges bs es i).
    unfold addAdjacency.
    destruct (IH (from e)) as [Hsf _]. destruct (IH (to e)) as [_ Hpt].
    destruct (IH i) as [Hsi Hpi].
    destruct (bool_decide (is_Some (successors adj !! from e))) eqn:Hf; simpl;
      [apply bool_decide_eq_true in Hf|apply bool_decide_eq_false in Hf].
    + destruct (bool_decide (is_Some (predecessors adj !! to e))) eqn:Ht; simpl;
        [apply bool_decide_eq_true in Ht|apply bool_decide_eq_false in Ht].
      * apply Hsf in Hf.
        assert (to e ∈ knownIds bs) as Htk.
        { rewrite Hpt in Ht. destruct (decide (to e ∈ knownIds bs)) as [|Hn]; [done|].
          rewrite bool_decide_eq_false_2 in Ht by done. by destruct Ht. }
        split.
        -- unfold push. destruct (decide (from e = i)) as [<-|Hi].
           ++ rewrite lookup_alter_eq. rewrite <-Hsi.
              destruct (successors adj !! from e); simpl; split; intros [? ?];
                done || by eexists.
           ++ by rewrite lookup_alter_ne.
        -- unfold push. destruct (decide (to e = i)) as [<-|Hi].
           ++ rewrite lookup_alter_eq, Hpi. rewrite bool_decide_eq_true_2 by done.
              simpl. by rewrite filter_cons_True.
           ++ rewrite lookup_alter_ne, Hpi by done.
              rewrite filter_cons_False, app_nil_r; [done|]. by intros [? _].
      * split; [done|]. rewrite Hpi.
        assert (to e ∉ knownIds bs) as Htk.
        { intros Hk. apply Ht. rewrite Hpt. rewrite bool_decide_eq_true_2 by done.
          by eexists. }
        case_bool_decide as Hi; [|done].
        rewrite filter_cons_False, app_nil_r; [done|].
        intros [<- _]. done.
    + split; [done|]. rewrite Hpi.
      assert (from e ∉ knownIds bs) as Hfk by (intros Hk; by apply Hf, Hsf).
      case_bool_decide as Hi; [|done].
      rewrite filter_cons_False, app_nil_r; [done|].
      intros [_ ?]. done.
Qed.

(** The predecessors of an id according to the adjacency of a graph. *)
Lemma predsOf_buildAdjacency (cfg : Cfg) (i : string) :
  predsOf (predecessors (buildAdjacency cfg)) i =
    if bool_decide (i ∈ knownIds (blocks cfg))
    then predsFromEdges (blocks cfg) (edges cfg) i else [].
Proof.
  unfold predsOf, buildAdjacency.
  destruct (foldl_addAdjacency (blocks cfg) (edges cfg) i) as [_ ->].
  by case_bool_decide.
Qed.

Lemma predsOf_known (cfg : Cfg) (i p : string) :
  p ∈ predsOf (predecessors (buildAdjacency cfg)) i →
  p ∈ knownIds (blocks cfg) ∧ i ∈ knownIds (blocks cfg).
Proof.
  rewrite predsOf_buildAdjacency. case_bool_decide as Hi; [|by intros ?%elem_of_nil].
  unfold predsFromEdges. intros (e & -> & He)%list_elem_of_fmap.
  apply list_elem_of_filter in He as [[_ ?] _]. done.
Qed.

Lemma knownIds_size (bs : list CfgBlock) : (size (knownIds bs) ≤ length bs)%nat.
Proof.
  unfold knownIds. induction bs as [|b bs IH]; simpl; [done|].
  rewrite size_union_alt, size_singleton.
  apply le_n_S. etrans; [|exact IH].
  apply subseteq_size. apply subseteq_difference_l. done.
Qed.

(* ================================================================== *)
(** * Layering *)
(* ================================================================== *)

(** [reaches preds a b]: there is a path [a → ... → b] along edges, an edge
    [p → i] being "[p] is a predecessor of [i]". *)
Definition reaches (preds : gmap string (list string)) : relation string :=
  rtc (λ a b, a ∈ predsOf preds b).

(** No id lies on a cycle. *)
Definition acyclic (preds : gmap string (list string)) : Prop :=
  ∀ i, ¬ tc (λ a b, a ∈ predsOf preds b) i i.

(** What the predecessor [p] of [i] contributes to the layer of [i]: its own
    layer, or 0 when the edge [p → i] closes a cycle and [p] was still being
    resolved. *)
Definition Contribution (preds : gmap string (list string)) (lay : gmap string Z)
    (i p : string) (c : Z) : Prop :=
  lay !! p = Some c ∨ (c = 0 ∧ reaches preds i p).

(** The layer of [i] is one more than the largest contribution. *)
Definition LayerRule (preds : gmap string (list string)) (lay : gmap string Z)
    (i : string) : Prop :=
  ∃ cs, Forall2 (Contribution preds lay i) (predsOf preds i) cs ∧
        lay !! i = Some (foldl Z.max (-1) cs + 1).

Section layering.
Context (preds : gmap string (list string)) (known : gset string).
Context (Hclosed : ∀ i p, p ∈ predsOf preds i → p ∈ known).

(** The invariant of [assignLayer]; [stack] is the active recursion path. *)
Record LInv (st : LayerState) (stack : list string) : Prop := {
  inv_layer : ∀ i l, layer st !! i = Some l →
                i ∈ visited st ∧ LayerRule preds (layer st) i ∧ 0 ≤ l;
  inv_active : ∀ i, i ∈ visited st → layer st !! i = None → i ∈ stack;
  inv_known : visited st ⊆ known;
  inv_stack : ∀ i, i ∈ stack → layer st !! i = None ∧ i ∈ visited st;
}.

Lemma Contribution_mono lay lay' i p c :
  lay ⊆ lay' → Contribution preds lay i p c → Contribution preds lay' i p c.
Proof.
  intros Hsub [H|H]; [left|by right]. by eapply lookup_weaken.
Qed.

Lemma LayerRule_mono lay lay' i :
  lay ⊆ lay' → LayerRule preds lay i → LayerRule preds lay' i.
Proof.
  intros Hsub (cs & Hcs & Hl). exists cs. split; [|by eapply lookup_weaken].
  eapply Forall2_impl; [exact Hcs|]. intros p c. by apply Contribution_mono.
Qed.

Lemma foldl_max_ge (cs : list Z) (m : Z) : m ≤ foldl Z.max m cs.
Proof.
  revert m. induction cs as [|c cs IH]; intros m; simpl; [lia|].
  etrans; [|apply IH]. lia.
Qed.

Lemma measure_visit (v : gset string) (i : string) :
  i ∈ known → i ∉ v →
  (size (known ∖ ({[i]} ∪ v)) < size (known ∖ v))%nat.
Proof.
  intros Hk Hv. apply subset_size. split.
  - apply difference_mono_l, union_subseteq_r.
  - intros Hsub. assert (i ∈ known ∖ ({[i]} ∪ v)) as Hin.
    { apply Hsub. by apply elem_of_difference. }
    apply elem_of_difference in Hin as [_ Hin]. apply Hin.
    apply elem_of_union. left. by apply elem_of_singleton.
Qed.

Lemma measure_mono (v v' : gset string) :
  v ⊆ v' → (size (known ∖ v') ≤ size (known ∖ v))%nat.
Proof. intros Hsub. by apply subseteq_size, difference_mono_l. Qed.

(** What a call [assignLayer i] guarantees. *)
Definition CallPost (i : string) (st : LayerState) (stack : list string)
    (l : Z) (st' : LayerState) : Prop :=
  LInv st' stack ∧ layer st ⊆ layer st' ∧ visited st ⊆ visited st' ∧
  0 ≤ l ∧
  (layer st' !! i = Some l ∨ (l = 0 ∧ i ∈ stack)).

Lemma maxPredLayer_spec (al : string → LayerState → option (Z * LayerState))
    (n : nat) (i : string) (stack : list string) :
  (∀ p st, p ∈ known → (∀ x, x ∈ i :: stack → reaches preds p x) →
           LInv st (i :: stack) → (size (known ∖ visited st) < n)%nat →
           ∃ l st', al p st = Some (l, st') ∧ CallPost p st (i :: stack) l st') →
  (∀ x, x ∈ stack → reaches preds i x) →
  ∀ ps m st,
    (∀ p, p ∈ ps → p ∈ predsOf preds i) →
    LInv st (i :: stack) → (size (known ∖ visited st) < n)%nat →
    ∃ cs st', maxPredLayer al ps m st = Some (foldl Z.max m cs, st') ∧
      LInv st' (i :: stack) ∧ layer st ⊆ layer st' ∧ visited st ⊆ visited st' ∧
      Forall2 (Contribution preds (layer st') i) ps cs.
Proof.
  intros Hal Hstack ps. induction ps as [|p ps IH]; intros m st Hps Hinv Hn; simpl.
  - exists [], st. split_and!; [done..|constructor].
  - assert (p ∈ predsOf preds i) as Hp by (apply Hps; by left).
    destruct (Hal p st) as (l & st1 & -> & Hinv1 & Hl1 & Hv1 & Hl0 & Hret);
      [by eapply Hclosed| |done|done|].
    { intros x [->|Hx]%elem_of_cons.
      - by apply rtc_once.
      - eapply rtc_l; [exact Hp|]. by apply Hstack. }
    simpl.
    destruct (IH (Z.max m l) st1) as (cs & st' & -> & Hinv' & Hl' & Hv' & Hcs).
    { intros p' Hp'. apply Hps. by right. }
    { done. }
    { eapply Nat.le_lt_trans; [by apply measure_mono|done]. }
    exists (l :: cs), st'. split_and!; [done|done|by etrans|by etrans|].
    constructor; [|done].
    destruct Hret as [Hret|[-> Hin]].
    + left. by eapply lookup_weaken.
    + right. split; [done|]. apply elem_of_cons in Hin as [->|Hin].
      * apply rtc_refl.
      * by apply Hstack.
Qed.

Lemma assignLayer_spec (fuel : nat) (i : string) (st : LayerState)
    (stack : list string) :
  i ∈ known → (∀ x, x ∈ stack → reaches preds i x) →
  LInv st stack → (size (known ∖ visited st) < fuel)%nat →
  ∃ l st', assignLayer fuel preds i st = Some (l, st') ∧ CallPost i st stack l st'.
Proof.
  revert i st stack. induction fuel as [|fuel IH]; intros i st stack Hk Hstack Hinv Hn;
    [lia|].
  simpl. destruct (layer st !! i) as [l|] eqn:Hl.
  { exists l, st. split; [done|]. split_and!; [done..| |by left].
    by apply (inv_layer _ _ Hinv) in Hl as (_ & _ & ?). }
  case_bool_decide as Hv.
  { exists 0, st. split; [done|]. split_and!; [done..|].
    right. split; [done|]. by apply (inv_active _ _ Hinv). }
  set (st1 := {| layer := layer st; visited := {[i]} ∪ visited st |}).
  assert (LInv st1 (i :: stack)) as Hinv1.
  { split; simpl.
    - intros j l Hj. destruct (inv_layer _ _ Hinv j l Hj) as (? & ? & ?).
      split_and!; [|done..]. apply elem_of_union. by right.
    - intros j [->%elem_of_singleton|Hj]%elem_of_union Hnone; [by left|].
      right. by apply (inv_active _ _ Hinv).
    - intros j [->%elem_of_singleton|Hj]%elem_of_union; [done|].
      by apply (inv_known _ _ Hinv).
    - intros j [->|Hj]%elem_of_cons.
      + split; [done|]. apply elem_of_union. left. by apply elem_of_singleton.
      + destruct (inv_stack _ _ Hinv j Hj). split; [done|].
        apply elem_of_union. by right. }
  assert (size (known ∖ visited st1) < fuel)%nat as Hn1.
  { pose proof (measure_visit (visited st) i Hk Hv). simpl. lia. }
  destruct (maxPredLayer_spec (assignLayer fuel preds) fuel i stack)
    with (ps := predsOf preds i) (m := -1) (st := st1)
    as (cs & st2 & -> & Hinv2 & Hl2 & Hv2 & Hcs); [|auto..].
  { intros p st0 Hp Hx Hinv0 Hn0. by apply IH. }
  simpl.
  assert (layer st2 !! i = None) as Hnone.
  { apply (inv_stack _ _ Hinv2). by left. }
  assert (layer st2 ⊆ <[i := foldl Z.max (-1) cs + 1]> (layer st2)) as Hsub
    by (by apply insert_subseteq).
  pose proof (foldl_max_ge cs (-1)) as Hge.
  eexists _, _. split; [done|]. split_and!; simpl.
  - split; simpl.
    + intros j l Hj. destruct (decide (i = j)) as [<-|Hne].
      * rewrite lookup_insert_eq in Hj. inversion Hj; subst; clear Hj.
        split_and!; [|exists cs; split|lia].
        -- apply Hv2. simpl. apply elem_of_union. left. by apply elem_of_singleton.
        -- eapply Forall2_impl; [exact Hcs|]. intros p c.
           by apply Contribution_mono.
        -- by rewrite lookup_insert_eq.
      * rewrite lookup_insert_ne in Hj by done.
        destruct (inv_layer _ _ Hinv2 j l Hj) as (? & ? & ?).
        split_and!; [done| |done]. by eapply LayerRule_mono.
    + intros j Hj Hjn. destruct (decide (i = j)) as [<-|Hne].
      { by rewrite lookup_insert_eq in Hjn. }
      rewrite lookup_insert_ne in Hjn by done.
      pose proof (inv_active _ _ Hinv2 j Hj Hjn) as [?|?]%elem_of_cons; done.
    + apply (inv_known _ _ Hinv2).
    + intros j Hj. destruct (inv_stack _ _ Hinv2 j) as [? ?]; [by right|].
      split; [|done]. rewrite lookup_insert_ne; [done|].
      intros <-. destruct (inv_stack _ _ Hinv i Hj) as [_ ?]. done.
  - etrans; [exact Hl2|done].
  - etrans; [|exact Hv2]. simpl. apply union_subseteq_r.
  - lia.
  - left. by rewrite lookup_insert_eq.
Qed.

Lemma assignAll_spec (fuel : nat) (bs : list CfgBlock) (st : LayerState) :
  (∀ b, b ∈ bs → id b ∈ known) →
  LInv st [] → (size known < fuel)%nat →
  ∃ st', assignAll fuel preds bs st = Some st' ∧ LInv st' [] ∧
    layer st ⊆ layer st' ∧ ∀ b, b ∈ bs → is_Some (layer st' !! id b).
Proof.
  revert st. induction bs as [|b bs IH]; intros st Hbs Hinv Hn; simpl.
  - exists st. split_and!; [done..|]. by intros b ?%elem_of_nil.
  - destruct (assignLayer_spec fuel (id b) st []) as (l & st1 & -> & Hpost).
    + apply Hbs. by left.
    + by intros x ?%elem_of_nil.
    + done.
    + eapply Nat.le_lt_trans; [|exact Hn].
      apply subseteq_size, subseteq_difference_l. done.
    + destruct Hpost as (Hinv1 & Hl1 & Hv1 & _ & Hret). simpl.
      destruct (IH st1) as (st' & -> & Hinv' & Hl' & Hall); [|done..|].
      { intros b' ?. apply Hbs. by right. }
      exists st'. split_and!; [done|done|by etrans|].
      intros b' [->|Hb']%elem_of_cons; [|by apply Hall].
      destruct Hret as [Hret|[_ []%elem_of_nil]].
      exists l. by eapply lookup_weaken.
Qed.
End layering.

(** The predecessor lists [layoutCfg] works with. *)
Definition cfgPreds (cfg : Cfg) : gmap string (list string) :=
  predecessors (buildAdjacency cfg).

Lemma LInv_init (preds : gmap string (list string)) (known : gset string) :
  LInv preds known {| layer := ∅; visited := ∅ |} [].
Proof.
  split; simpl.
  - intros i l Hl. by rewrite lookup_empty in Hl.
  - by intros i ?%not_elem_of_empty.
  - apply empty_subseteq.
  - by intros i ?%elem_of_nil.
Qed.

Lemma assignLayers_inv (cfg : Cfg) :
  ∃ lay, assignLayers cfg = Some lay ∧
    (∀ b, b ∈ blocks cfg → is_Some (lay !! id b)) ∧
    (∀ i l, lay !! i = Some l → LayerRule (cfgPreds cfg) lay i ∧ 0 ≤ l).
Proof.
  unfold assignLayers. fold (cfgPreds cfg).
  destruct (assignAll_spec (cfgPreds cfg) (knownIds (blocks cfg)))
    with (fuel := S (length (blocks cfg))) (bs := blocks cfg)
         (st := {| layer := ∅; visited := ∅ |})
    as (st & -> & Hinv & _ & Hall).
  - intros i p Hp. by apply predsOf_known in Hp as [? _].
  - intros b Hb. unfold knownIds. apply elem_of_list_to_set.
    by apply list_elem_of_fmap_2.
  - apply LInv_init.
  - pose proof (knownIds_size (blocks cfg)). lia.
  - exists (layer st). split; [done|]. split; [done|].
    intros i l Hl. by destruct (inv_layer _ _ _ _ Hinv i l Hl) as (_ & ? & ?).
Qed.

Lemma Contribution_acyclic (preds : gmap string (list string)) (lay : gmap string Z)
    (i : string) (cs : list Z) :
  acyclic preds →
  Forall2 (Contribution preds lay i) (predsOf preds i) cs →
  cs = layerOf lay <$> predsOf preds i.
Proof.
  intros Hac Hcs.
  assert (∀ ps, (∀ p, p ∈ ps → p ∈ predsOf preds i) →
                ∀ cs, Forall2 (Contribution preds lay i) ps cs →
                cs = layerOf lay <$> ps) as Hgen; [|by apply Hgen].
  clear cs Hcs. intros ps Hps cs Hcs.
  induction Hcs as [|p c ps cs Hc Hcs IH]; [done|]. simpl. f_equal.
  - destruct Hc as [Hc|[-> Hr]].
    + unfold layerOf. by rewrite Hc.
    + exfalso. apply (Hac i). eapply tc_rtc_l; [exact Hr|].
      apply tc_once. apply Hps. by left.
  - apply IH. intros p' ?. apply Hps. by right.
Qed.

(** ** The layers, exactly *)

(** [flows cfg a b]: the graph has an edge from the block [a] to the block
    [b]. *)
Definition flows (cfg : Cfg) (a b : string) : Prop :=
  ∃ e, e ∈ edges cfg ∧ from e = a ∧ to e = b ∧
       a ∈ id <$> blocks cfg ∧ b ∈ id <$> blocks cfg.

Lemma elem_of_knownIds (bs : list CfgBlock) (i : string) :
  i ∈ knownIds bs ↔ i ∈ id <$> bs.
Proof. unfold knownIds. by rewrite elem_of_list_to_set. Qed.

Lemma elem_of_edgePreds (cfg : Cfg) (a b : string) :
  a ∈ edgePreds cfg b ↔ flows cfg a b.
Proof.
  unfold edgePreds, flows. rewrite list_elem_of_fmap. split.
  - intros (e & -> & He). apply list_elem_of_filter in He as [(<- & ? & ?) He].
    by exists e.
  - intros (e & He & <- & <- & ? & ?). exists e. split; [done|].
    by apply list_elem_of_filter.
Qed.

(** The predecessor lists of the adjacency are those read off the edges. *)
Lemma predsOf_edgePreds (cfg : Cfg) (i : string) :
  predsOf (cfgPreds cfg) i = edgePreds cfg i.
Proof.
  unfold cfgPreds. rewrite predsOf_buildAdjacency.
  unfold predsFromEdges, edgePreds.
  case_bool_decide as Hi.
  - f_equal. apply list_filter_iff. intros e.
    rewrite elem_of_knownIds. split.
    + intros [-> ?]. split_and!; [done..|]. by apply elem_of_knownIds.
    + intros (? & ? & ?). done.
  - symmetry. induction (edges cfg) as [|e es IH]; [done|].
    rewrite filter_cons_False; [done|].
    intros (<- & _ & Hk). by apply Hi, elem_of_knownIds.
Qed.

Lemma foldl_max_elem (cs : list Z) (m c : Z) : c ∈ cs → c ≤ foldl Z.max m cs.
Proof.
  revert m. induction cs as [|c' cs IH]; intros m; [by intros ?%elem_of_nil|].
  intros [->|Hin]%elem_of_cons; simpl.
  - etrans; [|apply foldl_max_ge]. lia.
  - by apply IH.
Qed.

Lemma Forall2_elem {A B} (P : A → B → Prop) (l : list A) (k : list B) :
  Forall2 P l k → Forall2 (λ x y, P x y ∧ x ∈ l ∧ y ∈ k) l k.
Proof.
  induction 1 as [|x y l k HP _ IH]; constructor.
  - split_and!; [done|by left..].
  - eapply Forall2_impl; [exact IH|]. intros x' y' (? & ? & ?).
    split_and!; [done|by right..].
Qed.

Lemma Forall2_fmap_eq {A B} (f : A → B) (l : list A) (k : list B) :
  Forall2 (λ x y, y = f x) l k → k = f <$> l.
Proof. induction 1 as [|x y l k -> _ ->]; done. Qed.

Section exact.
Context (preds : gmap string (list string)) (known : gset string).
Context (Hclosed : ∀ i p, p ∈ predsOf preds i → p ∈ known).
Context (sp : string → list string) (Hsp : ∀ i, predsOf preds i = sp i).

(** What [p] counted for when the layer [l] of [i] was computed, in terms of
    the state [st]: the layer of [p], which is below [l]; or 0, the edge from
    [p] closing a cycle, in which case [p] is still on the active path or
    has got a layer that is not below [l]. *)
Definition Rep (st : LayerState) (stack : list string) (i : string) (l : Z)
    (p : string) (c : Z) : Prop :=
  match layer st !! p with
  | Some lp => (lp < l ∧ c = lp) ∨ (l ≤ lp ∧ c = 0 ∧ reaches preds i p)
  | None => p ∈ stack ∧ c = 0 ∧ reaches preds i p
  end.

Definition NInv (st : LayerState) (stack : list string) : Prop :=
  ∀ i l, layer st !! i = Some l →
    ∃ cs, Forall2 (Rep st stack i l) (predsOf preds i) cs ∧
          l = foldl Z.max (-1) cs + 1.

(** No layer assigned between [st] and [st'] exceeds [l]. *)
Definition Frame (st : LayerState) (l : Z) (st' : LayerState) : Prop :=
  ∀ j lj, layer st' !! j = Some lj → layer st !! j = None → lj ≤ l.

(** What a call reports: the layer of the block, or 0 for a block on the
    active path. *)
Definition Now (st : LayerState) (stack : list string) (p : string) (c : Z)
    : Prop :=
  layer st !! p = Some c ∨ (c = 0 ∧ p ∈ stack).

Definition ExactPost (rl : string → gmap string Z → option (Z * gmap string Z))
    (i : string) (st : LayerState) (stack : list string) (l : Z)
    (st' : LayerState) : Prop :=
  CallPost preds known i st stack l st' ∧ NInv st' stack ∧ Frame st l st' ∧
  rl i (layer st) = Some (l, layer st').

Lemma Frame_refl (st : LayerState) (l : Z) : Frame st l st.
Proof. intros j lj Hj Hn. by rewrite Hj in Hn. Qed.

Lemma maxPredLayer_exact (al : string → LayerState → option (Z * LayerState))
    (rl : string → gmap string Z → option (Z * gmap string Z))
    (n : nat) (i : string) (stack : list string) :
  (∀ p st, p ∈ known → (∀ x, x ∈ i :: stack → reaches preds p x) →
           LInv preds known st (i :: stack) → NInv st (i :: stack) →
           (size (known ∖ visited st) < n)%nat →
           ∃ l st', al p st = Some (l, st') ∧ ExactPost rl p st (i :: stack) l st') →
  (∀ x, x ∈ stack → reaches preds i x) →
  ∀ ps m st,
    (∀ p, p ∈ ps → p ∈ predsOf preds i) →
    LInv preds known st (i :: stack) → NInv st (i :: stack) →
    (size (known ∖ visited st) < n)%nat →
    ∃ cs st', maxPredLayer al ps m st = Some (foldl Z.max m cs, st') ∧
      LInv preds known st' (i :: stack) ∧ NInv st' (i :: stack) ∧
      layer st ⊆ layer st' ∧ visited st ⊆ visited st' ∧
      Frame st (foldl Z.max m cs) st' ∧
      Forall2 (Now st' (i :: stack)) ps cs ∧
      resolvePreds rl ps m (layer st) = Some (foldl Z.max m cs, layer st').
Proof.
  intros Hal Hstack ps. induction ps as [|p ps IH]; intros m st Hps Hinv Hn Hsz.
  - exists [], st. simpl. split_and!; [done..|apply Frame_refl|constructor|done].
  - assert (p ∈ predsOf preds i) as Hp by (apply Hps; by left).
    destruct (Hal p st) as (l & sta & Hcall & Hpost & Hna & Hfa & Hrl);
      [by eapply Hclosed| |done..|].
    { intros x [->|Hx]%elem_of_cons.
      - by apply rtc_once.
      - eapply rtc_l; [exact Hp|]. by apply Hstack. }
    destruct Hpost as (Hinva & Hla & Hva & Hl0 & Hret).
    destruct (IH (Z.max m l) sta) as (cs & st' & Hrest & Hinv' & Hn' & Hl' & Hv' & Hf' & Hcs & Hrs);
      [intros ? ?; apply Hps; by right|done|done| |].
    { pose proof (measure_mono known _ _ Hva). lia. }
    exists (l :: cs), st'. simpl. rewrite Hcall. simpl. rewrite Hrest.
    rewrite Hrl. simpl. rewrite Hrs.
    split_and!; [done|done|done|by etrans|by etrans| | |done].
    + intros j lj Hj Hnone. destruct (layer sta !! j) as [lj'|] eqn:Hja.
      * pose proof (lookup_weaken _ _ _ _ Hja Hl') as Hj'.
        assert (lj' = lj) as -> by congruence.
        etrans; [apply (Hfa j lj Hja Hnone)|].
        etrans; [|apply foldl_max_ge]. lia.
      * by apply (Hf' j lj).
    + constructor; [|done].
      destruct Hret as [Hret|[-> Hin]]; [left|by right].
      by eapply lookup_weaken.
Qed.

Lemma Rep_push (st : LayerState) (stack : list string) (x i : string) (l : Z)
    (p : string) (c : Z) :
  Rep st stack i l p c → Rep st (x :: stack) i l p c.
Proof.
  unfold Rep. destruct (layer st !! p); [done|].
  intros (? & ? & ?). split_and!; [by right|done..].
Qed.

Lemma assignLayer_exact (fuel : nat) (i : string) (st : LayerState)
    (stack : list string) :
  i ∈ known → (∀ x, x ∈ stack → reaches preds i x) →
  LInv preds known st stack → NInv st stack →
  (size (known ∖ visited st) < fuel)%nat →
  ∃ l st', assignLayer fuel preds i st = Some (l, st') ∧
    ExactPost (resolveLayer fuel sp stack) i st stack l st'.
Proof.
  revert i st stack.
  induction fuel as [|fuel IH]; intros i st stack Hk Hstack Hinv Hn Hsz; [lia|].
  destruct (assignLayer_spec preds known Hclosed (S fuel) i st stack)
    as (l & st' & Hcall & Hpost); [done..|].
  exists l, st'. split; [done|]. split; [done|].
  revert Hcall. cbn [assignLayer resolveLayer].
  destruct (layer st !! i) as [l0|] eqn:Hl.
  { intros [= <- <-]. split_and!; [done|apply Frame_refl|done]. }
  case_bool_decide as Hv.
  { intros [= <- <-]. split_and!; [done|apply Frame_refl|].
    rewrite bool_decide_eq_true_2; [done|]. by apply (inv_active _ _ _ _ Hinv). }
  assert (i ∉ stack) as Hns.
  { intros Hin. by destruct (inv_stack _ _ _ _ Hinv i Hin). }
  rewrite (bool_decide_eq_false_2 (i ∈ stack)) by done.
  set (st1 := {| layer := layer st; visited := {[i]} ∪ visited st |}).
  assert (LInv preds known st1 (i :: stack)) as Hinv1.
  { split; simpl.
    - intros j l1 Hj. destruct (inv_layer _ _ _ _ Hinv j l1 Hj) as (? & ? & ?).
      split_and!; [|done..]. apply elem_of_union. by right.
    - intros j [->%elem_of_singleton|Hj]%elem_of_union Hnone; [by left|].
      right. by apply (inv_active _ _ _ _ Hinv).
    - intros j [->%elem_of_singleton|Hj]%elem_of_union; [done|].
      by apply (inv_known _ _ _ _ Hinv).
    - intros j [->|Hj]%elem_of_cons.
      + split; [done|]. apply elem_of_union. left. by apply elem_of_singleton.
      + destruct (inv_stack _ _ _ _ Hinv j Hj). split; [done|].
        apply elem_of_union. by right. }
  assert (NInv st1 (i :: stack)) as Hn1.
  { intros j lj Hj. destruct (Hn j lj Hj) as (cs & Hcs & ->).
    exists cs. split; [|done]. eapply Forall2_impl; [exact Hcs|].
    intros p c. apply Rep_push. }
  assert (size (known ∖ visited st1) < fuel)%nat as Hsz1.
  { pose proof (measure_visit known (visited st) i Hk Hv). simpl. lia. }
  destruct (maxPredLayer_exact (assignLayer fuel preds)
              (resolveLayer fuel sp (i :: stack)) fuel i stack)
    with (ps := predsOf preds i) (m := -1) (st := st1)
    as (cs & st2 & Hloop & Hinv2 & Hn2 & Hl2 & Hv2 & Hf2 & Hcs & Hrs); [|auto..].
  { intros p st0 Hp Hx Hinv0 Hn0 Hsz0. by apply IH. }
  rewrite Hloop. simpl. rewrite <-Hsp.
  change (layer st1) with (layer st) in Hrs. rewrite Hrs. simpl.
  intros [= <- <-]. simpl.
  assert (layer st2 !! i = None) as Hnone.
  { apply (inv_stack _ _ _ _ Hinv2). by left. }
  set (m := foldl Z.max (-1) cs) in *.
  split_and!; [| |done].
  - (* the invariant *)
    intros j lj. simpl. destruct (decide (i = j)) as [<-|Hne].
    + rewrite lookup_insert_eq. intros [= <-]. exists cs. split; [|done].
      eapply Forall2_impl; [exact (Forall2_elem _ _ _ Hcs)|].
      intros p c (Hnow & _ & Hc). unfold Rep. simpl.
      destruct (decide (p = i)) as [->|Hpi].
      * rewrite lookup_insert_eq. destruct Hnow as [Hnow|[-> _]]; [congruence|].
        right. split_and!; [lia|done|apply rtc_refl].
      * rewrite lookup_insert_ne by done.
        destruct Hnow as [Hnow|[-> Hin]].
        -- rewrite Hnow. left. split; [|done].
           pose proof (foldl_max_elem cs (-1) c Hc). lia.
        -- apply elem_of_cons in Hin as [->|Hin]; [done|].
           destruct (inv_stack _ _ _ _ Hinv2 p) as [-> _]; [by right|].
           split_and!; [done|done|by apply Hstack].
    + rewrite lookup_insert_ne by done. intros Hj.
      destruct (Hn2 j lj Hj) as (cs' & Hcs' & ->).
      exists cs'. split; [|done].
      eapply Forall2_impl; [exact (Forall2_elem _ _ _ Hcs')|].
      intros p c (Hrep & Hp & _). revert Hrep. unfold Rep. simpl.
      destruct (decide (p = i)) as [->|Hpi].
      * rewrite Hnone, lookup_insert_eq. intros (_ & -> & Hr).
        right. split_and!; [|done..].
        (* [j] got its layer after the call on [i] began *)
        assert (layer st !! j = None) as Hjn.
        { destruct (layer st !! j) as [lj0|] eqn:Hj0; [|done]. exfalso.
          destruct (Hn j lj0 Hj0) as (cs0 & Hcs0 & _).
          apply list_elem_of_lookup in Hp as [k Hk'].
          destruct (Forall2_lookup_l _ _ _ _ _ Hcs0 Hk') as (c0 & _ & Hrep0).
          unfold Rep in Hrep0. rewrite Hl in Hrep0.
          destruct Hrep0 as (Hin & _). done. }
        pose proof (Hf2 j _ Hj Hjn). lia.
      * rewrite lookup_insert_ne by done.
        destruct (layer st2 !! p); [done|].
        intros ([->|Hin]%elem_of_cons & ? & ?); done.
  - (* no new layer exceeds the one of [i] *)
    intros j lj. simpl. destruct (decide (i = j)) as [<-|Hne].
    + rewrite lookup_insert_eq. intros [= <-] _. lia.
    + rewrite lookup_insert_ne by done. intros Hj Hjn.
      pose proof (Hf2 j lj Hj Hjn). lia.
Qed.

Lemma assignAll_exact (fuel : nat) (bs : list CfgBlock) (st : LayerState) :
  (∀ b, b ∈ bs → id b ∈ known) →
  LInv preds known st [] → NInv st [] → (size known < fuel)%nat →
  ∃ st', assignAll fuel preds bs st = Some st' ∧
    LInv preds known st' [] ∧ NInv st' [] ∧ layer st ⊆ layer st' ∧
    (∀ b, b ∈ bs → is_Some (layer st' !! id b)) ∧
    resolveAll fuel sp bs (layer st) = Some (layer st').
Proof.
  revert st. induction bs as [|b bs IH]; intros st Hbs Hinv Hn Hsz; simpl.
  - exists st. split_and!; [done..| |done]. by intros b ?%elem_of_nil.
  - destruct (assignLayer_exact fuel (id b) st [])
      as (l & st1 & -> & Hpost & Hn1 & _ & ->).
    + apply Hbs. by left.
    + by intros x ?%elem_of_nil.
    + done.
    + done.
    + eapply Nat.le_lt_trans; [|exact Hsz].
      apply subseteq_size, subseteq_difference_l. done.
    + destruct Hpost as (Hinv1 & Hl1 & Hv1 & _ & Hret). simpl.
      destruct (IH st1) as (st' & -> & Hinv' & Hn' & Hl' & Hall & ->); [|done..|].
      { intros b' ?. apply Hbs. by right. }
      exists st'. split_and!; [done|done|done|by etrans| |done].
      intros b' [->|Hb']%elem_of_cons; [|by apply Hall].
      destruct Hret as [Hret|[_ []%elem_of_nil]].
      exists l. by eapply lookup_weaken.
Qed.
End exact.

Lemma NInv_init (preds : gmap string (list string)) :
  NInv preds {| layer := ∅; visited := ∅ |} [].
Proof. intros i l Hl. simpl in Hl. by rewrite lookup_empty in Hl. Qed.

(** The layers [layoutCfg] computes are those of the specification, every
    block and nothing else has one, and each layer is determined by the
    layers of the predecessors. *)
Lemma assignLayers_exact (cfg : Cfg) :
  ∃ lay, assignLayers cfg = Some lay ∧ resolveLayers cfg = Some lay ∧
    (∀ i, is_Some (lay !! i) ↔ i ∈ id <$> blocks cfg) ∧
    (∀ i l, lay !! i = Some l →
       0 ≤ l ∧
       l = 1 + foldl Z.max (-1) (report lay i <$> edgePreds cfg i) ∧
       ∀ p, p ∈ edgePreds cfg i →
         layerOf lay p < l ∨ (l ≤ layerOf lay p ∧ rtc (flows cfg) i p)).
Proof.
  unfold assignLayers, resolveLayers. fold (cfgPreds cfg).
  destruct (assignAll_exact (cfgPreds cfg) (knownIds (blocks cfg)))
    with (sp := edgePreds cfg) (fuel := S (length (blocks cfg)))
         (bs := blocks cfg) (st := {| layer := ∅; visited := ∅ |})
    as (st & -> & Hinv & Hn & _ & Hall & Hres).
  - intros i p Hp. by apply predsOf_known in Hp as [? _].
  - apply predsOf_edgePreds.
  - intros b Hb. apply elem_of_knownIds. by apply list_elem_of_fmap_2.
  - apply LInv_init.
  - apply NInv_init.
  - pose proof (knownIds_size (blocks cfg)). lia.
  - simpl in Hres. rewrite Hres. simpl. exists (layer st).
    split; [done|]. split; [done|]. split.
    + intros i. split.
      * intros [l Hl]. apply elem_of_knownIds.
        apply (inv_known _ _ _ _ Hinv).
        by destruct (inv_layer _ _ _ _ Hinv i l Hl) as (? & _).
      * intros (b & -> & Hb)%list_elem_of_fmap. by apply Hall.
    + intros i l Hl.
      destruct (inv_layer _ _ _ _ Hinv i l Hl) as (_ & _ & Hge).
      destruct (Hn i l Hl) as (cs & Hcs & ->).
      rewrite predsOf_edgePreds in Hcs.
      assert (∀ p c, Rep (cfgPreds cfg) st [] i (foldl Z.max (-1) cs + 1) p c →
                c = report (layer st) i p ∧
                (layerOf (layer st) p < foldl Z.max (-1) cs + 1
                 ∨ (foldl Z.max (-1) cs + 1 ≤ layerOf (layer st) p
                    ∧ rtc (flows cfg) i p))) as Hrep.
      { intros p c. unfold Rep, report, layerOf. rewrite Hl. simpl.
        destruct (layer st !! p) as [lp|]; simpl.
        - intros [[? ->]|(? & -> & Hr)].
          + rewrite bool_decide_eq_true_2 by done. split; [done|]. by left.
          + rewrite bool_decide_eq_false_2 by lia. split; [done|]. right.
            split; [done|]. eapply rtc_subrel; [|exact Hr].
            intros a b Hab. apply elem_of_edgePreds.
            by rewrite <-predsOf_edgePreds.
        - by intros ([]%elem_of_nil & _). }
      split_and!; [done| |].
      * rewrite Z.add_comm. f_equal. f_equal. apply Forall2_fmap_eq.
        eapply Forall2_impl; [exact Hcs|]. intros p c Hpc.
        by destruct (Hrep p c Hpc).
      * intros p Hp. apply list_elem_of_lookup in Hp as [k Hk].
        destruct (Forall2_lookup_l _ _ _ _ _ Hcs Hk) as (c & _ & Hpc).
        by destruct (Hrep p c Hpc).
Qed.

(** C5. [layoutCfg] gives every block of the graph, whatever component it
    lies in, and nothing else an integer layer [l ≥ 0], and the layers are
    those of the memoized recursive resolution over the edges in which a
    block met again on the active recursion path reports 0.  The layer of a
    block is one more than the largest value its predecessors (the sources
    of the edges into it) count for, a predecessor counting for its own
    layer when that is below the layer of the block, and for 0 otherwise;
    an edge that does not lead to a strictly higher layer lies on a cycle.
    A block without predecessors gets layer 0.  In a graph without cycles
    every layer is exactly one more than the largest layer of the
    predecessors. *)
Theorem assignLayers_rule (cfg : Cfg) :
  ∃ lay, assignLayers cfg = Some lay ∧
    resolveLayers cfg = Some lay ∧
    (∀ i, is_Some (lay !! i) ↔ i ∈ id <$> blocks cfg) ∧
    (∀ b, b ∈ blocks cfg →
       ∃ l, lay !! id b = Some l ∧ 0 ≤ l ∧
         l = 1 + foldl Z.max (-1) (report lay (id b) <$> edgePreds cfg (id b))) ∧
    (∀ e, e ∈ edges cfg →
       from e ∈ id <$> blocks cfg → to e ∈ id <$> blocks cfg →
       layerOf lay (from e) < layerOf lay (to e)
       ∨ (layerOf lay (to e) ≤ layerOf lay (from e)
          ∧ rtc (flows cfg) (to e) (from e))) ∧
    (∀ b, b ∈ blocks cfg →
       (∀ e, e ∈ edges cfg → to e = id b → from e ∉ id <$> blocks cfg) →
       lay !! id b = Some 0) ∧
    ((∀ i, ¬ tc (flows cfg) i i) →
       ∀ b, b ∈ blocks cfg →
         lay !! id b =
           Some (1 + foldl Z.max (-1) (layerOf lay <$> edgePreds cfg (id b)))).
Proof.
  destruct (assignLayers_exact cfg) as (lay & Hlay & Hres & Hdom & Hrule).
  exists lay. split; [done|]. split; [done|]. split; [done|].
  assert (∀ b, b ∈ blocks cfg → ∃ l, lay !! id b = Some l) as Hall.
  { intros b Hb. apply Hdom. by apply list_elem_of_fmap_2. }
  split_and!.
  - intros b Hb. destruct (Hall b Hb) as [l Hl]. exists l.
    destruct (Hrule _ _ Hl) as (? & ? & _). done.
  - intros e He Hf Ht.
    destruct (proj2 (Hdom (to e)) Ht) as [l Hl].
    destruct (Hrule _ _ Hl) as (_ & _ & Hedge).
    assert (layerOf lay (to e) = l) as -> by (unfold layerOf; by rewrite Hl).
    apply Hedge, elem_of_edgePreds. by exists e.
  - intros b Hb Hnone. destruct (Hall b Hb) as [l Hl].
    destruct (Hrule _ _ Hl) as (_ & Heq & _). rewrite Hl, Heq.
    assert (edgePreds cfg (id b) = []) as ->; [|done].
    destruct (edgePreds cfg (id b)) as [|p ps] eqn:Hps; [done|]. exfalso.
    assert (flows cfg p (id b)) as (e & He & <- & Hto & Hk & _).
    { apply elem_of_edgePreds. rewrite Hps. by left. }
    by apply (Hnone e He Hto).
  - intros Hac b Hb. destruct (Hall b Hb) as [l Hl].
    destruct (Hrule _ _ Hl) as (_ & Heq & Hedge).
    rewrite Hl, Heq. do 3 f_equal.
    apply Forall_fmap_ext, Forall_forall. intros p Hp.
    unfold report.
    assert (layerOf lay (id b) = l) as Hlb by (unfold layerOf; by rewrite Hl).
    destruct (Hedge p Hp) as [Hlt|[_ Hr]].
    + rewrite bool_decide_eq_true_2; [done|]. by rewrite Hlb.
    + exfalso. apply (Hac (id b)). eapply tc_rtc_l; [exact Hr|].
      apply tc_once. by apply elem_of_edgePreds.
Qed.

(* ================================================================== *)
(** * Structure of the layout *)
(* ================================================================== *)

(** The blocks of the layers [keys], layer after layer. *)
Definition flatten (keys : list Z) (layers : gmap Z (list CfgBlock)) : list CfgBlock :=
  keys ≫= (λ k, default [] (layers !! k)).

(** All blocks held by a layer map. *)
Definition flattenMap (layers : gmap Z (list CfgBlock)) : list CfgBlock :=
  map_to_list layers ≫= snd.

Lemma flatten_map_to_list (m : gmap Z (list CfgBlock)) :
  flatten (map_to_list m).*1 m = flattenMap m.
Proof.
  unfold flatten, flattenMap.
  assert (∀ l : list (Z * list CfgBlock),
            (∀ k v, (k, v) ∈ l → m !! k = Some v) →
            l.*1 ≫= (λ k, default [] (m !! k)) = l ≫= snd) as H.
  { induction l as [|[k v] l IH]; intros Hl; [done|]. simpl.
    rewrite (Hl k v) by (by left). simpl. f_equal. apply IH.
    intros k' v' ?. apply Hl. by right. }
  apply H. intros k v. by apply elem_of_map_to_list.
Qed.

Lemma flattenMap_insert (m : gmap Z (list CfgBlock)) (k : Z) (v : list CfgBlock) :
  flattenMap (<[k := v]> m) ≡ₚ v ++ flattenMap (delete k m).
Proof.
  unfold flattenMap. rewrite <-insert_delete_eq.
  rewrite map_to_list_insert by apply lookup_delete_eq. done.
Qed.

Lemma flattenMap_lookup (m : gmap Z (list CfgBlock)) (k : Z) :
  flattenMap m ≡ₚ default [] (m !! k) ++ flattenMap (delete k m).
Proof.
  unfold flattenMap. destruct (m !! k) as [v|] eqn:Hk; simpl.
  - by rewrite <-(map_to_list_delete m k v Hk).
  - by rewrite delete_id.
Qed.

Lemma groupByLayer_snoc (lay : gmap string Z) (bs : list CfgBlock) (b : CfgBlock) :
  groupByLayer lay (bs ++ [b]) =
    <[layerOf lay (id b) :=
        default [] (groupByLayer lay bs !! layerOf lay (id b)) ++ [b]]>
      (groupByLayer lay bs).
Proof. unfold groupByLayer. by rewrite foldl_app. Qed.

Lemma groupByLayer_perm (lay : gmap string Z) (bs : list CfgBlock) :
  flattenMap (groupByLayer lay bs) ≡ₚ bs.
Proof.
  induction bs as [|b bs IH] using rev_ind; [done|].
  rewrite groupByLayer_snoc, flattenMap_insert.
  etrans; [|apply Permutation_app_tail, IH].
  etrans; [|apply Permutation_app_tail; symmetry;
            apply (flattenMap_lookup _ (layerOf lay (id b)))].
  rewrite <-!app_assoc. apply Permutation_app_head, Permutation_app_comm.
Qed.

Lemma groupByLayer_layer (lay : gmap string Z) (bs : list CfgBlock) (k : Z)
    (b : CfgBlock) :
  b ∈ default [] (groupByLayer lay bs !! k) → layerOf lay (id b) = k ∧ b ∈ bs.
Proof.
  revert k b. induction bs as [|b' bs IH] using rev_ind; intros k b.
  { unfold groupByLayer. simpl. rewrite lookup_empty. by intros ?%elem_of_nil. }
  rewrite groupByLayer_snoc.
  destruct (decide (layerOf lay (id b') = k)) as [<-|Hne].
  - rewrite lookup_insert_eq. simpl. intros [Hin|Hin]%elem_of_app.
    + destruct (IH _ _ Hin). split; [done|]. apply elem_of_app. by left.
    + apply list_elem_of_singleton in Hin as ->. split; [done|].
      apply elem_of_app. right. by left.
  - rewrite lookup_insert_ne by done. intros Hin.
    destruct (IH _ _ Hin). split; [done|]. apply elem_of_app. by left.
Qed.

(** ** Sorting by barycenter *)

Lemma insertByKey_perm {A} (key : A → Q) (a : A) (l : list A) :
  insertByKey key a l ≡ₚ a :: l.
Proof.
  induction l as [|b l IH]; simpl; [done|].
  destruct (Qle_bool _ _); [|done]. rewrite IH. apply Permutation_swap.
Qed.

Lemma sortByKey_perm {A} (key : A → Q) (l : list A) : sortByKey key l ≡ₚ l.
Proof.
  unfold sortByKey.
  assert (∀ acc, foldl (λ acc a, insertByKey key a acc) acc l ≡ₚ acc ++ l) as H.
  { induction l as [|a l IH]; intros acc; simpl; [by rewrite app_nil_r|].
    rewrite IH, insertByKey_perm. simpl. apply Permutation_middle. }
  apply (H []).
Qed.

Lemma orderLayers_perm (preds : gmap string (list string)) (prev : Z) (keys : list Z)
    (layers : gmap Z (list CfgBlock)) (k : Z) :
  default [] (orderLayers preds prev keys layers !! k) ≡ₚ default [] (layers !! k).
Proof.
  revert prev layers. induction keys as [|k' keys IH]; intros prev layers; simpl;
    [done|].
  rewrite IH. destruct (decide (k' = k)) as [->|Hne].
  - rewrite lookup_insert_eq. simpl. apply sortByKey_perm.
  - by rewrite lookup_insert_ne.
Qed.

Lemma orderAll_perm (preds : gmap string (list string)) (keys : list Z)
    (layers : gmap Z (list CfgBlock)) (k : Z) :
  default [] (orderAll preds keys layers !! k) ≡ₚ default [] (layers !! k).
Proof. destruct keys; [done|]. apply orderLayers_perm. Qed.

Lemma flatten_perm (keys keys' : list Z) (l l' : gmap Z (list CfgBlock)) :
  keys ≡ₚ keys' →
  (∀ k, default [] (l !! k) ≡ₚ default [] (l' !! k)) →
  flatten keys l ≡ₚ flatten keys' l'.
Proof.
  intros Hk Hl. unfold flatten. rewrite Hk. clear Hk.
  induction keys' as [|k keys' IH]; [done|]. simpl. by rewrite IH, Hl.
Qed.

Lemma sortedLayerKeys_perm (layers : gmap Z (list CfgBlock)) :
  sortedLayerKeys layers ≡ₚ (map_to_list layers).*1.
Proof. apply merge_sort_Permutation. Qed.

Lemma sortedLayerKeys_NoDup (layers : gmap Z (list CfgBlock)) :
  NoDup (sortedLayerKeys layers).
Proof. rewrite sortedLayerKeys_perm. apply NoDup_fst_map_to_list. Qed.

(** The blocks of the ordered layers are the blocks of the graph. *)
Lemma ordered_layers_perm (preds : gmap string (list string)) (lay : gmap string Z)
    (bs : list CfgBlock) :
  let layers := groupByLayer lay bs in
  let keys := sortedLayerKeys layers in
  flatten keys (orderAll preds keys layers) ≡ₚ bs.
Proof.
  simpl. etrans; [|apply (groupByLayer_perm lay bs)].
  rewrite <-flatten_map_to_list.
  apply flatten_perm; [apply sortedLayerKeys_perm|]. intros k. apply orderAll_perm.
Qed.

(** ** Placement *)

Local Open Scope Q_scope.

(** Two layout blocks of the same row, the first earlier in the list, are
    separated by at least the horizontal gap. *)
Definition Separated (lbs : list LayoutBlock) : Prop :=
  ∀ i j a b, (i < j)%nat → lbs !! i = Some a → lbs !! j = Some b →
    row a = row b → x a + width a + BLOCK_GAP_X <= x b.

Section placement.
Context (measureText : string → string → Q).

Lemma blockWidth_bounds (b : CfgBlock) :
  BLOCK_MIN_W <= blockWidth measureText b ∧ blockWidth measureText b <= BLOCK_MAX_W.
Proof.
  unfold blockWidth. split.
  - apply Q.min_glb; [done|]. apply Q.le_max_l.
  - apply Q.le_min_l.
Qed.

Lemma blockHeight_pos (b : CfgBlock) : 0 < blockHeight b.
Proof.
  unfold blockHeight, BLOCK_PADDING_Y. case_bool_decide; [|done].
  assert (0 <= inject_Z (Z.of_nat (length (statements b)))) as Hlen.
  { change 0 with (inject_Z 0). rewrite <-Zle_Qle. lia. }
  lra.
Qed.

(** What [placeRow] records for each block. *)
Definition Placed (k : Z) (lb : LayoutBlock) : Prop :=
  row lb = k ∧ width lb = blockWidth measureText (block lb) ∧
  height lb = blockHeight (block lb).

Lemma placeRow_block (bs : list CfgBlock) i X Y k :
  block <$> placeRow measureText bs i X Y k = bs.
Proof.
  revert i X. induction bs as [|b bs IH]; intros i X; simpl; [done|].
  by rewrite IH.
Qed.

Lemma placeRow_props (bs : list CfgBlock) i X Y k lb :
  lb ∈ placeRow measureText bs i X Y k → Placed k lb ∧ X <= x lb.
Proof.
  revert i X. induction bs as [|b bs IH]; intros i X; simpl.
  { by intros ?%elem_of_nil. }
  intros [->|Hin]%elem_of_cons.
  - split; [done|]. simpl. lra.
  - destruct (IH _ _ Hin) as [? Hx]. split; [done|].
    pose proof (blockWidth_bounds b) as [Hw _].
    unfold BLOCK_MIN_W, BLOCK_GAP_X in *. lra.
Qed.

Lemma placeRow_separated (bs : list CfgBlock) i X Y k :
  Separated (placeRow measureText bs i X Y k).
Proof.
  revert i X. induction bs as [|b bs IH]; intros i X n m a c Hnm Ha Hc _; simpl in *.
  { by rewrite lookup_nil in Ha. }
  destruct n as [|n]; destruct m as [|m]; try lia; simpl in *.
  - inversion Ha; subst; clear Ha. simpl.
    apply list_elem_of_lookup_2, placeRow_props in Hc as [_ Hx]. done.
  - eapply (IH _ _ n m); [lia|done|done|].
    apply list_elem_of_lookup_2, placeRow_props in Ha as [[-> _] _].
    apply list_elem_of_lookup_2, placeRow_props in Hc as [[-> _] _]. done.
Qed.

Lemma Separated_app (l1 l2 : list LayoutBlock) :
  Separated l1 → Separated l2 →
  (∀ a b, a ∈ l1 → b ∈ l2 → row a ≠ row b) →
  Separated (l1 ++ l2).
Proof.
  intros H1 H2 Hrows i j a b Hij Ha Hb Hrow.
  apply lookup_app_Some in Ha as [Ha|[Hi Ha]];
    apply lookup_app_Some in Hb as [Hb|[Hj Hb]].
  - by eapply (H1 i j).
  - exfalso. eapply Hrows; [| |exact Hrow]; by eapply list_elem_of_lookup_2.
  - apply lookup_lt_Some in Hb. lia.
  - eapply (H2 (i - length l1)%nat (j - length l1)%nat); [lia|done..].
Qed.

Lemma placeLayers_block (keys : list Z) (layers : gmap Z (list CfgBlock)) Y :
  block <$> placeLayers measureText keys layers Y = flatten keys layers.
Proof.
  revert Y. induction keys as [|k keys IH]; intros Y; simpl; [done|].
  rewrite fmap_app, placeRow_block, IH. done.
Qed.

Lemma placeLayers_props (keys : list Z) (layers : gmap Z (list CfgBlock)) Y lb :
  lb ∈ placeLayers measureText keys layers Y →
  row lb ∈ keys ∧ Placed (row lb) lb ∧ block lb ∈ default [] (layers !! row lb).
Proof.
  revert Y. induction keys as [|k keys IH]; intros Y; simpl.
  { by intros ?%elem_of_nil. }
  intros [Hin|Hin]%elem_of_app.
  - pose proof Hin as Hin'. apply placeRow_props in Hin' as [[Hr Hp] _].
    split_and!; [rewrite Hr; by left|by rewrite Hr|].
    rewrite Hr. rewrite <-(placeRow_block (default [] (layers !! k)) 0
      (- totalWidth (map (getBlockDimensions measureText) (default [] (layers !! k))) / 2)
      Y k).
    by apply list_elem_of_fmap_2.
  - destruct (IH _ Hin) as (? & ? & ?). split_and!; [by right|done..].
Qed.

Lemma placeLayers_separated (keys : list Z) (layers : gmap Z (list CfgBlock)) Y :
  NoDup keys → Separated (placeLayers measureText keys layers Y).
Proof.
  revert Y. induction keys as [|k keys IH]; intros Y Hnd; simpl.
  { intros i j a b _ Ha. by rewrite lookup_nil in Ha. }
  apply NoDup_cons in Hnd as [Hk Hnd].
  apply Separated_app; [apply placeRow_separated|by apply IH|].
  intros a b Ha Hb Hrow.
  apply placeRow_props in Ha as [[Hra _] _].
  apply placeLayers_props in Hb as [Hrb _]. congruence.
Qed.

(** [normalize] shifts every block by the same amount, or leaves the list
    as it is. *)
Lemma normalize_shift (lbs : list LayoutBlock) :
  normalize lbs = lbs ∨ ∃ d, normalize lbs = shiftX d <$> lbs.
Proof.
  destruct lbs as [|lb rest]; [by left|]. unfold normalize.
  destruct (Qlt_le_dec _ _); [right; by eexists|by left].
Qed.

Lemma shiftX_separated (d : Q) (lbs : list LayoutBlock) :
  Separated lbs → Separated (shiftX d <$> lbs).
Proof.
  intros Hsep i j a b Hij Ha Hb Hrow.
  rewrite list_lookup_fmap in Ha, Hb.
  destruct (lbs !! i) as [a'|] eqn:Ha'; [|done].
  destruct (lbs !! j) as [b'|] eqn:Hb'; [|done].
  simpl in Ha, Hb. inversion Ha; inversion Hb; subst. simpl in *.
  pose proof (Hsep i j a' b' Hij Ha' Hb' Hrow). lra.
Qed.

Lemma normalize_separated (lbs : list LayoutBlock) :
  Separated lbs → Separated (normalize lbs).
Proof.
  intros Hsep. destruct (normalize_shift lbs) as [->|[d ->]]; [done|].
  by apply shiftX_separated.
Qed.

Lemma normalize_block (lbs : list LayoutBlock) :
  block <$> normalize lbs = block <$> lbs.
Proof.
  destruct (normalize_shift lbs) as [->|[d ->]]; [done|].
  rewrite <-list_fmap_compose. done.
Qed.

Lemma normalize_props (lbs : list LayoutBlock) (P : Z → LayoutBlock → Prop) lb :
  (∀ d k lb, P k lb → P k (shiftX d lb)) →
  lb ∈ normalize lbs → ∃ lb0, lb0 ∈ lbs ∧ row lb0 = row lb ∧
    block lb0 = block lb ∧ (P (row lb0) lb0 → P (row lb) lb).
Proof.
  intros HP. destruct (normalize_shift lbs) as [->|[d ->]].
  - intros Hin. by exists lb.
  - intros (lb0 & -> & Hin)%list_elem_of_fmap. exists lb0. split_and!; [done..|].
    apply HP.
Qed.
End placement.

Section layout_spec.
Context (measureText : string → string → Q).

Lemma Placed_shiftX (d : Q) (k : Z) (lb : LayoutBlock) :
  Placed measureText k lb → Placed measureText k (shiftX d lb).
Proof. by intros (? & ? & ?). Qed.

(** The shape of the result of [layoutCfg]. *)
Lemma layoutCfg_inv (cfg : Cfg) :
  ∃ lay lbs, assignLayers cfg = Some lay ∧ layoutCfg measureText cfg = Some lbs ∧
    block <$> lbs ≡ₚ blocks cfg ∧ Separated lbs ∧
    ∀ lb, lb ∈ lbs →
      row lb = layerOf lay (id (block lb)) ∧
      width lb = blockWidth measureText (block lb) ∧
      height lb = blockHeight (block lb).
Proof.
  destruct (assignLayers_inv cfg) as (lay & Hlay & _).
  exists lay. unfold layoutCfg. rewrite Hlay. simpl.
  case_bool_decide as Hlen.
  { exists []. apply nil_length_inv in Hlen. rewrite Hlen.
    split_and!; [done..| |by intros lb ?%elem_of_nil].
    intros i j a b _ Ha. by rewrite lookup_nil in Ha. }
  set (layers := groupByLayer lay (blocks cfg)).
  set (keys := sortedLayerKeys layers).
  set (ordered := orderAll (predecessors (buildAdjacency cfg)) keys layers).
  eexists. split_and!; [done|done| | |].
  - rewrite normalize_block, placeLayers_block. apply ordered_layers_perm.
  - apply normalize_separated, placeLayers_separated, sortedLayerKeys_NoDup.
  - intros lb Hin.
    apply (normalize_props _ (Placed measureText)) in Hin
      as (lb0 & Hin0 & Hrow & Hblock & HP); [|apply Placed_shiftX].
    apply placeLayers_props in Hin0 as (_ & Hp & Hb).
    destruct (HP Hp) as (_ & Hw & Hh). split_and!; [|done..].
    rewrite <-Hrow, <-Hblock.
    assert (block lb0 ∈ default [] (layers !! row lb0)) as Hb'.
    { eapply elem_of_Permutation_proper; [|exact Hb].
      symmetry. apply orderAll_perm. }
    by apply groupByLayer_layer in Hb' as [-> _].
Qed.

End layout_spec.

(* ================================================================== *)
(** * Back edges *)
(* ================================================================== *)

Local Open Scope Z_scope.

Lemma blockMapOf_snoc (lbs : list LayoutBlock) (lb : LayoutBlock) :
  blockMapOf (lbs ++ [lb]) = <[id (block lb) := lb]> (blockMapOf lbs).
Proof. unfold blockMapOf. by rewrite foldl_app. Qed.

Lemma blockMapOf_Some (lbs : list LayoutBlock) (i : string) (lb : LayoutBlock) :
  blockMapOf lbs !! i = Some lb → lb ∈ lbs ∧ id (block lb) = i.
Proof.
  induction lbs as [|lb' lbs IH] using rev_ind.
  { unfold blockMapOf. simpl. by rewrite lookup_empty. }
  rewrite blockMapOf_snoc. destruct (decide (id (block lb') = i)) as [<-|Hne].
  - rewrite lookup_insert_eq. intros [= ->]. split; [|done].
    apply elem_of_app. right. by left.
  - rewrite lookup_insert_ne by done. intros H. destruct (IH H).
    split; [|done]. apply elem_of_app. by left.
Qed.

Lemma blockMapOf_is_Some (lbs : list LayoutBlock) (lb : LayoutBlock) :
  lb ∈ lbs → is_Some (blockMapOf lbs !! id (block lb)).
Proof.
  induction lbs as [|lb' lbs IH] using rev_ind; [by intros ?%elem_of_nil|].
  rewrite blockMapOf_snoc. intros [Hin|Hin]%elem_of_app.
  - destruct (decide (id (block lb') = id (block lb))) as [->|Hne].
    + rewrite lookup_insert_eq. by eexists.
    + rewrite lookup_insert_ne by done. by apply IH.
  - apply list_elem_of_singleton in Hin as ->. rewrite lookup_insert_eq. by eexists.
Qed.

(** An edge whose endpoints are both laid out, with the target not below
    the source. *)
Definition backward (bm : gmap string LayoutBlock) (e : CfgEdge) : Prop :=
  ∃ f t, bm !! from e = Some f ∧ bm !! to e = Some t ∧ row t ≤ row f.

Lemma elem_of_backEdges (es : list CfgEdge) (bm : gmap string LayoutBlock)
    (k : string) :
  k ∈ backEdges es bm ↔ ∃ e, e ∈ es ∧ backKey e = k ∧ backward bm e.
Proof.
  unfold backEdges. induction es as [|e es IH] using rev_ind.
  { simpl. split; [by intros ?%not_elem_of_empty|].
    by intros (e & ?%elem_of_nil & _). }
  rewrite foldl_app. simpl.
  set (set := foldl _ ∅ es) in *.
  assert (k ∈ set ↔ ∃ e0, e0 ∈ es ++ [e] ∧ e0 ∈ es ∧ backKey e0 = k ∧ backward bm e0)
    as IH'.
  { rewrite IH. split.
    - intros (e0 & ? & ? & ?). exists e0. split_and!; [|done..].
      apply elem_of_app. by left.
    - intros (e0 & _ & ? & ? & ?). by exists e0. }
  assert (¬ backward bm e → (k ∈ set ↔
            ∃ e0, e0 ∈ es ++ [e] ∧ backKey e0 = k ∧ backward bm e0)) as Hskip.
  { intros Hnb. rewrite IH'. split.
    - intros (e0 & ? & _ & ? & ?). by exists e0.
    - intros (e0 & [Hin|Hin]%elem_of_app & ? & ?).
      + exists e0. split_and!; [|done..]. apply elem_of_app. by left.
      + apply list_elem_of_singleton in Hin as ->. done. }
  destruct (bm !! from e) as [f|] eqn:Hf;
    [|apply Hskip; intros (? & ? & Hf' & _); congruence].
  destruct (bm !! to e) as [t|] eqn:Ht;
    [|apply Hskip; intros (? & ? & _ & Ht' & _); congruence].
  case_bool_decide as Hrow.
  - rewrite elem_of_union, elem_of_singleton, IH'. split.
    + intros [->|(e0 & ? & _ & ? & ?)].
      * exists e. split_and!; [apply elem_of_app; right; by left|done|].
        by exists f, t.
      * by exists e0.
    + intros (e0 & [Hin|Hin]%elem_of_app & ? & ?).
      * right. exists e0. split_and!; [|done..]. apply elem_of_app. by left.
      * apply list_elem_of_singleton in Hin as ->. by left.
  - apply Hskip. intros (f' & t' & Hf' & Ht' & ?).
    rewrite Hf in Hf'. rewrite Ht in Ht'. simplify_eq. done.
Qed.

Lemma backKey_inj (e1 e2 : CfgEdge) :
  charFree "-" (from e1) → charFree "-" (from e2) →
  backKey e1 = backKey e2 → from e1 = from e2 ∧ to e1 = to e2.
Proof.
  unfold backKey. intros H1 H2 Heq.
  change ("->" +:+ to e1) with (String "-" (String ">" (to e1))) in Heq.
  change ("->" +:+ to e2) with (String "-" (String ">" (to e2))) in Heq.
  apply append_split in Heq as [? Heq]; [|done..]. split; [done|].
  by inversion Heq.
Qed.

(** C4, as amended. For a graph whose edges reference only existing blocks
    and whose block ids do not contain the character "-" (as is the case for
    the ids [cfg_n] made by [buildCfg]), the back-edge set holds the key of
    an edge exactly when the layer of its target is at most the layer of its
    source. *)
Theorem backEdges_layers (measureText : string → string → Q) (cfg : Cfg) :
  Forall (λ e, from e ∈ (id <$> blocks cfg) ∧ to e ∈ (id <$> blocks cfg)) (edges cfg) →
  Forall (λ b, charFree "-" (id b)) (blocks cfg) →
  ∃ lay lbs, assignLayers cfg = Some lay ∧ layoutCfg measureText cfg = Some lbs ∧
    ∀ e, e ∈ edges cfg →
      (isBack (backEdges (edges cfg) (blockMapOf lbs)) e = true
       ↔ layerOf lay (to e) ≤ layerOf lay (from e)).
Proof.
  intros Hedges Hids. rewrite Forall_forall in Hedges. rewrite Forall_forall in Hids.
  destruct (layoutCfg_inv measureText cfg)
    as (lay & lbs & Hlay & Hl & Hperm & _ & Hprops).
  exists lay, lbs. split_and!; [done..|].
  assert (∀ i, i ∈ (id <$> blocks cfg) →
            charFree "-" i ∧
            ∃ lb, blockMapOf lbs !! i = Some lb ∧ row lb = layerOf lay i) as Hmap.
  { intros i (b & -> & Hb)%list_elem_of_fmap. split; [by apply Hids|].
    assert (b ∈ block <$> lbs) as Hin by (by rewrite Hperm).
    apply list_elem_of_fmap in Hin as (lb0 & -> & Hin).
    destruct (blockMapOf_is_Some lbs lb0 Hin) as [lb Hlb]. exists lb.
    split; [done|]. apply blockMapOf_Some in Hlb as [Hin' Hid].
    destruct (Hprops lb Hin') as [-> _]. by rewrite Hid. }
  intros e He. destruct (Hedges e He) as [Hfrom Hto].
  destruct (Hmap _ Hfrom) as (Hdf & lbf & Hlbf & Hrf).
  destruct (Hmap _ Hto) as (_ & lbt & Hlbt & Hrt).
  unfold isBack. rewrite bool_decide_eq_true, elem_of_backEdges. split.
  - intros (e' & He' & Hkey & f & t & Hf & Ht & Hrow).
    destruct (Hedges e' He') as [Hfrom' _].
    destruct (Hmap _ Hfrom') as (Hdf' & _).
    destruct (backKey_inj e' e Hdf' Hdf Hkey) as [Hef Het].
    rewrite Hef in Hf. rewrite Het in Ht. congruence.
  - intros Hle. exists e. split_and!; [done..|].
    exists lbf, lbt. split_and!; [done..|]. congruence.
Qed.

(** The ids made by the builder contain no "-". *)
Lemma makeId_dash_free (n : nat) : charFree "-" (makeId n).
Proof.
  unfold makeId. change ("cfg_" +:+ pretty n)
    with (String "c" (String "f" (String "g" (String "_" (pretty n))))).
  simpl. split_and!; [done..|]. apply pretty_nat_charFree, digit_not_dash.
Qed.

Lemma buildCfg_ids_dash_free (ast : AstNode) (code : string) (cfg : Cfg) :
  buildCfg ast code = Some cfg → Forall (λ b, charFree "-" (id b)) (blocks cfg).
Proof.
  unfold buildCfg. destruct (buildRoot ast code) as [[r s]|] eqn:Hroot; [|done].
  simpl. intros [= <-]. simpl.
  destruct (buildRoot_ids ast code r s Hroot) as (Hids & _).
  assert (Forall (λ b, charFree "-" (id b)) (ctx_blocks s)) as Hraw.
  { apply Forall_forall. intros b Hb.
    assert (id b ∈ (id <$> ctx_blocks s)) as Hin by (by apply list_elem_of_fmap_2).
    apply (seq_ids_elem _ _ Hids) in Hin as (a & -> & _). apply makeId_dash_free. }
  destruct (addSentinel_spec ast r s) as [[-> _]|(r0 & _ & _ & _ & -> & _)]; [done|].
  constructor; [|done]. apply makeId_dash_free.
Qed.

(** ** Sample graphs *)

Definition sampleBlock (i : string) (k : CfgBlockKind) : CfgBlock :=
  {| id := i; label := i; statements := [i]; start := 0; end_ := 0;
     startPosition := origin; endPosition := origin; kind := k; astPath := "root" |}.

(** A text measure: seven units per character. *)
Definition sevenPerChar (text font : string) : Q :=
  (inject_Z (Z.of_nat (String.length text)) * 7)%Q.

(** The graph of [while (x) { y }]. *)
Definition loopGraph : Cfg :=
  {| blocks := [sampleBlock "cfg_2" entry_kind; sampleBlock "cfg_0" loop;
                sampleBlock "cfg_1" statement];
     edges := [{| from := "cfg_0"; to := "cfg_1"; edge_label := Some "body" |};
               {| from := "cfg_1"; to := "cfg_0"; edge_label := Some "next" |};
               {| from := "cfg_2"; to := "cfg_0"; edge_label := None |}] |}.

(** Two blocks whose ids make the keys of the two edges between them equal:
    both edges have the key [a->a->a]. *)
Definition clashGraph : Cfg :=
  {| blocks := [sampleBlock "a" statement; sampleBlock "a->a" statement];
     edges := [{| from := "a"; to := "a->a"; edge_label := None |};
               {| from := "a->a"; to := "a"; edge_label := None |}] |}.

Lemma backEdges_layers_witness :
  ∃ lay lbs, assignLayers loopGraph = Some lay ∧
    layoutCfg sevenPerChar loopGraph = Some lbs ∧
    ∀ e, e ∈ edges loopGraph →
      (isBack (backEdges (edges loopGraph) (blockMapOf lbs)) e = true
       ↔ layerOf lay (to e) ≤ layerOf lay (from e)).
Proof.
  apply backEdges_layers.
  - repeat constructor; simpl; eapply bool_decide_unpack; by vm_compute.
  - repeat constructor; simpl; by repeat split.
Defined.

(** C4, as stated, fails: in [clashGraph] every edge references existing
    blocks; the edge [a → a->a] is a back edge (layers 2 and 1), and the
    edge [a->a → a], which is not (its target is on layer 2, its source on
    layer 1), has the same key, so it is found in the back-edge set too. *)
Lemma backEdges_layers_counterexample :
  Forall (λ e, from e ∈ (id <$> blocks clashGraph) ∧ to e ∈ (id <$> blocks clashGraph))
         (edges clashGraph) ∧
  ∃ lay lbs e, assignLayers clashGraph = Some lay ∧
    layoutCfg sevenPerChar clashGraph = Some lbs ∧
    e ∈ edges clashGraph ∧
    isBack (backEdges (edges clashGraph) (blockMapOf lbs)) e = true ∧
    ¬ (layerOf lay (to e) ≤ layerOf lay (from e)).
Proof.
  split.
  - repeat constructor; simpl; eapply bool_decide_unpack; by vm_compute.
  - set (e := {| from := "a->a"; to := "a"; edge_label := None |}).
    assert ((lay ← assignLayers clashGraph;
             lbs ← layoutCfg sevenPerChar clashGraph;
             Some (isBack (backEdges (edges clashGraph) (blockMapOf lbs)) e,
                   layerOf lay (to e), layerOf lay (from e)))
            = Some (true, 2, 1)) as Hc by (vm_compute; reflexivity).
    destruct (assignLayers clashGraph) as [lay|]; [|discriminate].
    destruct (layoutCfg sevenPerChar clashGraph) as [lbs|]; [|discriminate].
    cbn [mbind option_bind] in Hc. injection Hc as Hback Hto Hfrom.
    exists lay, lbs, e. split_and!; [done|done|right; by left|done|].
    change (¬ layerOf lay "a" ≤ layerOf lay "a->a"). rewrite Hto, Hfrom. lia.
Qed.

(** The layers of [loopGraph]: the statement block is resolved while the
    loop header is on the active path, so it gets layer 1 although its only
    predecessor, the header, ends on layer 2. *)
Example loopGraph_layers :
  (lay ← assignLayers loopGraph;
   Some (lay !! "cfg_2", lay !! "cfg_0", lay !! "cfg_1",
         predsOf (cfgPreds loopGraph) "cfg_1"))
  = Some (Some 0, Some 2, Some 1, ["cfg_0"]).
Proof. vm_compute. reflexivity. Qed.

(* ================================================================== *)
(** * Geometry of the layout *)
(* ================================================================== *)

Local Open Scope Q_scope.

Lemma maxOf_ge (first : Q) (rest : list Q) :
  first <= maxOf first rest ∧ ∀ q, q ∈ rest → q <= maxOf first rest.
Proof.
  unfold maxOf. revert first. induction rest as [|r rest IH]; intros first; simpl.
  { split; [lra|]. by intros q ?%elem_of_nil. }
  destruct (IH (Qmax first r)) as [H1 H2]. split.
  - pose proof (Q.le_max_l first r). lra.
  - intros q [->|Hin]%elem_of_cons; [|by apply H2].
    pose proof (Q.le_max_r first r). lra.
Qed.

Lemma minOf_le (first : Q) (rest : list Q) :
  minOf first rest <= first ∧ (∀ q, q ∈ rest → minOf first rest <= q) ∧
  (minOf first rest = first ∨ minOf first rest ∈ rest).
Proof.
  unfold minOf. revert first. induction rest as [|r rest IH]; intros first; simpl.
  { split_and!; [lra| |by left]. by intros q ?%elem_of_nil. }
  destruct (IH (Qmin first r)) as (H1 & H2 & H3). split_and!.
  - pose proof (Q.le_min_l first r). lra.
  - intros q [->|Hin]%elem_of_cons; [|by apply H2].
    pose proof (Q.le_min_r first r). lra.
  - destruct H3 as [->|H3]; [|right; by right].
    unfold Qmin, GenericMinMax.gmin. destruct (first ?= r); auto; right; by left.
Qed.

Section geometry.
Context (measureText : string → string → Q).

Lemma maxHeight_ge (dims : list (Q * Q)) (d : Q * Q) :
  d ∈ dims → d.2 <= maxHeight dims.
Proof.
  destruct dims as [|d0 rest]; [by intros ?%elem_of_nil|]. simpl.
  destruct (maxOf_ge d0.2 (rest.*2)) as [H1 H2].
  intros [->|Hin]%elem_of_cons; [done|]. apply H2. by apply list_elem_of_fmap_2.
Qed.

Lemma maxHeight_nonneg (bs : list CfgBlock) :
  0 <= maxHeight (map (getBlockDimensions measureText) bs).
Proof.
  destruct bs as [|b bs]; [done|].
  pose proof (maxHeight_ge (map (getBlockDimensions measureText) (b :: bs))
                (getBlockDimensions measureText b) ltac:(by left)) as H.
  pose proof (blockHeight_pos b). simpl in H. simpl. lra.
Qed.

(** The position of the [n]-th block of a row. *)
Lemma placeRow_lookup (bs : list CfgBlock) (i : nat) X Y k (n : nat) lb :
  placeRow measureText bs i X Y k !! n = Some lb →
  y lb = Y ∧ column lb = (i + n)%nat ∧ bs !! n = Some (block lb).
Proof.
  revert i X n. induction bs as [|b bs IH]; intros i X n; simpl; [done|].
  destruct n as [|n]; simpl.
  - intros [= <-]. simpl. split_and!; [done|lia|done].
  - intros H. destruct (IH _ _ _ H) as (? & ? & ?). split_and!; [done|lia|done].
Qed.

Lemma placeRow_height (bs : list CfgBlock) (i : nat) X Y k lb :
  lb ∈ placeRow measureText bs i X Y k →
  y lb = Y ∧ height lb <= maxHeight (map (getBlockDimensions measureText) bs).
Proof.
  intros Hin. pose proof Hin as Hin'.
  apply placeRow_props in Hin' as [(_ & _ & Hh) _].
  apply list_elem_of_lookup in Hin as [n Hn].
  apply placeRow_lookup in Hn as (Hy & _ & Hb). split; [done|].
  rewrite Hh.
  apply (maxHeight_ge _ (getBlockDimensions measureText (block lb))).
  apply list_elem_of_In, in_map, list_elem_of_In. by eapply list_elem_of_lookup_2.
Qed.

Lemma placeLayers_y_ge (keys : list Z) (layers : gmap Z (list CfgBlock)) Y lb :
  lb ∈ placeLayers measureText keys layers Y → Y <= y lb.
Proof.
  revert Y. induction keys as [|k keys IH]; intros Y; simpl.
  { by intros ?%elem_of_nil. }
  intros [Hin|Hin]%elem_of_app.
  - apply placeRow_height in Hin as [-> _]. lra.
  - apply IH in Hin.
    pose proof (maxHeight_nonneg (default [] (layers !! k))).
    unfold BLOCK_GAP_Y in Hin. lra.
Qed.

(** Rows are stacked from top to bottom. *)
Definition Stacked (lbs : list LayoutBlock) : Prop :=
  ∀ a b, a ∈ lbs → b ∈ lbs →
    (row a = row b → y a = y b) ∧
    ((row a < row b)%Z → y a + height a + BLOCK_GAP_Y <= y b).

Lemma placeLayers_stacked (keys : list Z) (layers : gmap Z (list CfgBlock)) Y :
  StronglySorted Z.lt keys → Stacked (placeLayers measureText keys layers Y).
Proof.
  revert Y. induction keys as [|k keys IH]; intros Y Hs; simpl.
  { by intros a b ?%elem_of_nil. }
  apply StronglySorted_inv in Hs as [Hs Hk]. rewrite Forall_forall in Hk.
  assert (∀ a b,
    a ∈ placeRow measureText (default [] (layers !! k)) 0
          (- totalWidth (map (getBlockDimensions measureText)
                             (default [] (layers !! k))) / 2) Y k →
    b ∈ placeLayers measureText keys layers
          (Y + maxHeight (map (getBlockDimensions measureText)
                              (default [] (layers !! k))) + BLOCK_GAP_Y) →
    (row a < row b)%Z ∧ y a + height a + BLOCK_GAP_Y <= y b) as Hcross.
  { intros a b Ha Hb. pose proof Ha as Ha'.
    apply placeRow_props in Ha' as [[Hra _] _].
    apply placeRow_height in Ha as [Hya Hha].
    pose proof Hb as Hb'. apply placeLayers_props in Hb' as [Hrb _].
    apply placeLayers_y_ge in Hb. split; [rewrite Hra; by apply Hk|].
    rewrite Hya. lra. }
  intros a b [Ha|Ha]%elem_of_app [Hb|Hb]%elem_of_app.
  - pose proof Ha as Ha'. pose proof Hb as Hb'.
    apply placeRow_props in Ha' as [[Hra _] _].
    apply placeRow_props in Hb' as [[Hrb _] _].
    apply placeRow_height in Ha as [-> _]. apply placeRow_height in Hb as [-> _].
    split; [done|lia].
  - destruct (Hcross a b Ha Hb). split; [lia|done].
  - destruct (Hcross b a Hb Ha). split; lia.
  - by eapply (IH _ Hs).
Qed.

Lemma sortedLayerKeys_sorted (layers : gmap Z (list CfgBlock)) :
  StronglySorted Z.lt (sortedLayerKeys layers).
Proof.
  pose proof (sortedLayerKeys_NoDup layers) as Hnd.
  assert (StronglySorted Z.le (sortedLayerKeys layers)) as Hs.
  { unfold sortedLayerKeys. apply (StronglySorted_merge_sort Z.le). }
  induction Hs as [|k keys Hs IH Hk]; [constructor|].
  apply NoDup_cons in Hnd as [Hnin Hnd]. constructor; [by apply IH|].
  rewrite Forall_forall in Hk. apply Forall_forall. intros k' Hin.
  specialize (Hk k' Hin). assert (k ≠ k') by (by intros ->). lia.
Qed.

Lemma normalize_elem (lbs : list LayoutBlock) (lb : LayoutBlock) :
  lb ∈ normalize lbs →
  ∃ lb0, lb0 ∈ lbs ∧ row lb = row lb0 ∧ y lb = y lb0 ∧ height lb = height lb0 ∧
         width lb = width lb0 ∧ column lb = column lb0 ∧ block lb = block lb0.
Proof.
  destruct (normalize_shift lbs) as [->|[d ->]].
  - intros Hin. by exists lb.
  - intros (lb0 & -> & Hin)%list_elem_of_fmap. by exists lb0.
Qed.

Lemma normalize_stacked (lbs : list LayoutBlock) :
  Stacked lbs → Stacked (normalize lbs).
Proof.
  intros Hst a b Ha Hb.
  apply normalize_elem in Ha as (a0 & Ha & -> & -> & -> & _).
  apply normalize_elem in Hb as (b0 & Hb & -> & -> & _).
  by apply Hst.
Qed.

Lemma normalize_x_nonneg (lbs : list LayoutBlock) (lb : LayoutBlock) :
  lb ∈ normalize lbs → 0 <= x lb.
Proof.
  destruct lbs as [|lb0 rest]; [by intros ?%elem_of_nil|]. unfold normalize.
  destruct (minOf_le (x lb0) (x <$> rest)) as (H1 & H2 & _).
  assert (∀ l, l ∈ lb0 :: rest → minOf (x lb0) (x <$> rest) <= x l) as Hmin.
  { intros l [->|Hin]%elem_of_cons; [done|]. apply H2. by apply list_elem_of_fmap_2. }
  destruct (Qlt_le_dec _ _) as [Hlt|Hge].
  - intros (l & -> & Hin)%list_elem_of_fmap. simpl. specialize (Hmin l Hin). lra.
  - intros Hin. specialize (Hmin lb Hin). lra.
Qed.
End geometry.


Lemma groupByLayer_nonempty (lay : gmap string Z) (bs : list CfgBlock) (k : Z)
    (l : list CfgBlock) :
  groupByLayer lay bs !! k = Some l → l ≠ [].
Proof.
  revert k l. induction bs as [|b bs IH] using rev_ind; intros k l.
  { unfold groupByLayer. simpl. by rewrite lookup_empty. }
  rewrite groupByLayer_snoc.
  destruct (decide (layerOf lay (id b) = k)) as [<-|Hne].
  - rewrite lookup_insert_eq. intros [= <-]. by destruct (default [] _).
  - rewrite lookup_insert_ne by done. apply IH.
Qed.

Lemma foldl_width_ge (dims : list (Q * Q)) (s : Q) :
  Forall (λ d, 0 <= d.1) dims → s <= foldl (λ s d, s + d.1) s dims.
Proof.
  revert s. induction dims as [|d dims IH]; intros s Hall; simpl; [lra|].
  apply Forall_cons in Hall as [Hd Hall]. specialize (IH (s + d.1) Hall). lra.
Qed.

Section geometry_layout.
Context (measureText : string → string → Q).

Lemma totalWidth_pos (b : CfgBlock) (bs : list CfgBlock) :
  0 < totalWidth (map (getBlockDimensions measureText) (b :: bs)).
Proof.
  unfold totalWidth. simpl map. simpl foldl.
  pose proof (foldl_width_ge (map (getBlockDimensions measureText) bs)
                (0 + blockWidth measureText b)) as Hsum.
  pose proof (blockWidth_bounds measureText b) as [Hw _].
  assert (0 <= inject_Z (Z.of_nat (length (getBlockDimensions measureText b
            :: map (getBlockDimensions measureText) bs)) - 1)) as Hn.
  { change 0 with (inject_Z 0). rewrite <-Zle_Qle. simpl length. lia. }
  unfold BLOCK_MIN_W, BLOCK_GAP_X in *.
  assert (0 + blockWidth measureText b <=
          foldl (λ s d, s + d.1) (0 + blockWidth measureText b)
                (map (getBlockDimensions measureText) bs)) as Hge.
  { apply Hsum. apply Forall_forall. intros d Hd.
    apply list_elem_of_In, in_map_iff in Hd as (b' & <- & _). simpl.
    pose proof (blockWidth_bounds measureText b') as [Hw' _].
    unfold BLOCK_MIN_W in Hw'. lra. }
  simpl in *. nra.
Qed.





(** Some block ends up at [x = 0] when some block lay left of it. *)
Lemma normalize_min_zero (lbs : list LayoutBlock) :
  (∃ lb, lb ∈ lbs ∧ x lb < 0) → ∃ lb, lb ∈ normalize lbs ∧ x lb == 0.
Proof.
  intros (lb & Hin & Hneg). destruct lbs as [|lb0 rest]; [by apply elem_of_nil in Hin|].
  unfold normalize.
  destruct (minOf_le (x lb0) (x <$> rest)) as (H1 & H2 & H3).
  assert (minOf (x lb0) (x <$> rest) <= x lb) as Hle.
  { apply elem_of_cons in Hin as [->|Hin]; [done|]. apply H2. by apply list_elem_of_fmap_2. }
  destruct (Qlt_le_dec _ _) as [Hlt|Hge]; [|lra].
  assert (∃ l, l ∈ lb0 :: rest ∧ x l = minOf (x lb0) (x <$> rest)) as (l & Hl & Hx).
  { destruct H3 as [H3|H3].
    - exists lb0. split; [by left|done].
    - apply list_elem_of_fmap in H3 as (l & Hl & Hin'). exists l. split; [by right|done]. }
  exists (shiftX (minOf (x lb0) (x <$> rest)) l). split.
  - by apply list_elem_of_fmap_2.
  - simpl. rewrite Hx. lra.
Qed.

(** The layout that [layoutCfg] computes for a graph with blocks. *)
Lemma layoutCfg_unfold (cfg : Cfg) (lay : gmap string Z) :
  assignLayers cfg = Some lay → blocks cfg ≠ [] →
  layoutCfg measureText cfg =
    Some (normalize (placeLayers measureText
            (sortedLayerKeys (groupByLayer lay (blocks cfg)))
            (orderAll (predecessors (buildAdjacency cfg))
               (sortedLayerKeys (groupByLayer lay (blocks cfg)))
               (groupByLayer lay (blocks cfg))) 0)).
Proof.
  intros Hlay Hne. unfold layoutCfg. rewrite Hlay. simpl.
  rewrite bool_decide_eq_false_2; [done|]. by destruct (blocks cfg).
Qed.

Lemma layoutCfg_nonneg (cfg : Cfg) (lbs : list LayoutBlock) (lb : LayoutBlock) :
  layoutCfg measureText cfg = Some lbs → lb ∈ lbs → 0 <= x lb ∧ 0 <= y lb.
Proof.
  destruct (assignLayers_inv cfg) as (lay & Hlay & _).
  destruct (decide (blocks cfg = [])) as [Hnil|Hne].
  { unfold layoutCfg. rewrite Hnil. simpl. intros [= <-]. by intros ?%elem_of_nil. }
  rewrite (layoutCfg_unfold cfg lay Hlay Hne). intros [= <-] Hin.
  split; [by eapply normalize_x_nonneg|].
  apply normalize_elem in Hin as (lb0 & Hin & _ & -> & _).
  by apply placeLayers_y_ge in Hin.
Qed.

Lemma layoutCfg_stacked (cfg : Cfg) (lbs : list LayoutBlock) :
  layoutCfg measureText cfg = Some lbs → Stacked lbs.
Proof.
  intros Hl. destruct (assignLayers_inv cfg) as (lay & Hlay & _).
  destruct (decide (blocks cfg = [])) as [Hnil|Hne].
  { unfold layoutCfg in Hl. rewrite Hnil in Hl. simpl in Hl.
    inversion Hl; subst. by intros a b ?%elem_of_nil. }
  rewrite (layoutCfg_unfold cfg lay Hlay Hne) in Hl. inversion Hl; subst lbs.
  apply normalize_stacked, placeLayers_stacked, sortedLayerKeys_sorted.
Qed.

(** X11. Rows of the layout are the layers, stacked from top to bottom:
    the row of every layout block is the layer of its block, which is not
    negative; blocks of the same row have the same [y]; and a block of a
    lower row lies entirely above every block of a higher row, with at
    least the vertical gap between them. *)
Theorem layoutCfg_rows (cfg : Cfg) :
  ∃ lay lbs, assignLayers cfg = Some lay ∧ layoutCfg measureText cfg = Some lbs ∧
    (∀ lb, lb ∈ lbs → row lb = layerOf lay (id (block lb)) ∧ (0 ≤ row lb)%Z) ∧
    (∀ a b, a ∈ lbs → b ∈ lbs → row a = row b → y a = y b) ∧
    (∀ a b, a ∈ lbs → b ∈ lbs → (row a < row b)%Z →
       y a + height a + BLOCK_GAP_Y <= y b).
Proof.
  destruct (layoutCfg_inv measureText cfg) as (lay & lbs & Hlay & Hl & _ & _ & Hprops).
  exists lay, lbs. split_and!; [done|done| | |].
  - intros lb Hin. destruct (Hprops lb Hin) as [Hrow _]. split; [done|].
    rewrite Hrow. unfold layerOf.
    destruct (assignLayers_inv cfg) as (lay' & Hlay' & _ & Hrule).
    rewrite Hlay in Hlay'. inversion Hlay'; subst lay'.
    destruct (lay !! id (block lb)) as [l|] eqn:Hlk; simpl; [|done].
    by destruct (Hrule _ _ Hlk).
  - intros a b Ha Hb. by apply (layoutCfg_stacked cfg lbs Hl a b Ha Hb).
  - intros a b Ha Hb. by apply (layoutCfg_stacked cfg lbs Hl a b Ha Hb).
Qed.

(** X12. The layout is normalized to the origin: no layout block has a
    negative [x] or [y], and when the graph has blocks, some block lies at
    [x = 0] and some block lies at [y = 0]. *)
Theorem layoutCfg_origin (cfg : Cfg) :
  ∃ lbs, layoutCfg measureText cfg = Some lbs ∧
    (∀ lb, lb ∈ lbs → 0 <= x lb ∧ 0 <= y lb) ∧
    (blocks cfg ≠ [] →
       (∃ lb, lb ∈ lbs ∧ x lb == 0) ∧ (∃ lb, lb ∈ lbs ∧ y lb = 0)).
Proof.
  destruct (layoutCfg_inv measureText cfg) as (lay & lbs & Hlay & Hl & Hperm & _).
  exists lbs. split_and!; [done| |].
  - intros lb Hin. by eapply layoutCfg_nonneg.
  - intros Hne. rewrite (layoutCfg_unfold cfg lay Hlay Hne) in Hl.
    set (layers := groupByLayer lay (blocks cfg)) in *.
    set (keys := sortedLayerKeys layers) in *.
    set (ordered := orderAll (predecessors (buildAdjacency cfg)) keys layers) in *.
    assert (∃ lb, lb ∈ placeLayers measureText keys ordered 0 ∧ x lb < 0 ∧ y lb = 0)
      as (lb0 & Hin0 & Hx0 & Hy0).
    { destruct keys as [|k0 keys'] eqn:Hkeys.
      { exfalso. apply Hne. apply Permutation_nil_r. rewrite <-Hperm.
        inversion Hl; subst lbs. done. }
      assert (k0 ∈ (map_to_list layers).*1) as Hk0.
      { rewrite <-(sortedLayerKeys_perm layers). fold keys. rewrite Hkeys. by left. }
      apply list_elem_of_fmap in Hk0 as ([k l] & -> & Hkl). simpl in *.
      apply elem_of_map_to_list in Hkl.
      pose proof (groupByLayer_nonempty _ _ _ _ Hkl) as Hlne.
      pose proof (orderAll_perm (predecessors (buildAdjacency cfg)) (k :: keys') layers k)
        as Hp. rewrite Hkl in Hp. simpl in Hp. fold ordered in Hp.
      destruct (default [] (ordered !! k)) as [|b bs] eqn:Hrow.
      { apply Permutation_nil_l in Hp. by subst l. }
      cbn [placeLayers placeRow]. eexists. split; [apply elem_of_app; left; by left|].
      simpl. split; [|done].
      pose proof (totalWidth_pos b bs) as Hpos. simpl in Hpos.
      apply Qlt_shift_div_r; [done|]. lra. }
    inversion Hl; subst lbs. split.
    + apply normalize_min_zero. by exists lb0.
    + destruct (normalize_shift (placeLayers measureText keys ordered 0)) as [->|[d ->]].
      * by exists lb0.
      * exists (shiftX d lb0). split; [by apply list_elem_of_fmap_2|done].
Qed.

End geometry_layout.

(* ================================================================== *)
(** * Bounds, hit testing and the camera *)
(* ================================================================== *)

Lemma pick_larger (a r : Q) :
  a <= (if Qlt_le_dec a r then r else a) ∧ r <= (if Qlt_le_dec a r then r else a) ∧
  ((if Qlt_le_dec a r then r else a) = a ∨ (if Qlt_le_dec a r then r else a) = r).
Proof. destruct (Qlt_le_dec a r); split_and!; auto; lra. Qed.

Lemma boundsOf_fold (lbs : list LayoutBlock) (m : Q * Q) :
  let step := λ (m : Q * Q) b,
    (if Qlt_le_dec m.1 (x b + width b) then x b + width b else m.1,
     if Qlt_le_dec m.2 (y b + height b) then y b + height b else m.2) in
  let m' := foldl step m lbs in
  (m.1 <= m'.1 ∧ m.2 <= m'.2) ∧
  (∀ lb, lb ∈ lbs → x lb + width lb <= m'.1 ∧ y lb + height lb <= m'.2) ∧
  (m'.1 = m.1 ∨ ∃ lb, lb ∈ lbs ∧ m'.1 = x lb + width lb) ∧
  (m'.2 = m.2 ∨ ∃ lb, lb ∈ lbs ∧ m'.2 = y lb + height lb).
Proof.
  simpl. revert m. induction lbs as [|b lbs IH]; intros m; simpl.
  { split_and!; [lra|lra| |by left|by left]. by intros lb ?%elem_of_nil. }
  set (m1 := (if Qlt_le_dec m.1 (x b + width b) then x b + width b else m.1,
              if Qlt_le_dec m.2 (y b + height b) then y b + height b else m.2)).
  destruct (IH m1) as ((Ha & Hb) & Hall & Hw & Hh).
  assert (m.1 <= m1.1 ∧ x b + width b <= m1.1 ∧
          (m1.1 = m.1 ∨ m1.1 = x b + width b)) as (Hm1 & Hb1 & Hc1).
  { unfold m1. simpl. apply pick_larger. }
  assert (m.2 <= m1.2 ∧ y b + height b <= m1.2 ∧
          (m1.2 = m.2 ∨ m1.2 = y b + height b)) as (Hm2 & Hb2 & Hc2).
  { unfold m1. simpl. apply pick_larger. }
  split_and!.
  - lra.
  - lra.
  - intros lb [->|Hin]%elem_of_cons; [split; lra|by apply Hall].
  - destruct Hw as [->|(lb & Hin & ->)].
    + destruct Hc1 as [-> | ->]; [by left|]. right. exists b. split; [by left|done].
    + right. exists lb. split; [by right|done].
  - destruct Hh as [->|(lb & Hin & ->)].
    + destruct Hc2 as [-> | ->]; [by left|]. right. exists b. split; [by left|done].
    + right. exists lb. split; [by right|done].
Qed.

Lemma boundsOf_spec (lbs : list LayoutBlock) :
  0 <= bounds_width (boundsOf lbs) ∧ 0 <= bounds_height (boundsOf lbs) ∧
  (∀ lb, lb ∈ lbs →
     x lb + width lb <= bounds_width (boundsOf lbs) ∧
     y lb + height lb <= bounds_height (boundsOf lbs)) ∧
  (bounds_width (boundsOf lbs) = 0 ∨
     ∃ lb, lb ∈ lbs ∧ bounds_width (boundsOf lbs) = x lb + width lb) ∧
  (bounds_height (boundsOf lbs) = 0 ∨
     ∃ lb, lb ∈ lbs ∧ bounds_height (boundsOf lbs) = y lb + height lb).
Proof.
  destruct (boundsOf_fold lbs (0, 0)) as ((Ha & Hb) & Hall & Hw & Hh).
  unfold boundsOf. simpl in *. split_and!; done.
Qed.

(** X14. The bounds of a layout are the smallest rectangle anchored at the
    origin that holds every block: no side is negative, every block ends
    within the width and the height, and each of the two is either 0 or
    the right (bottom) edge of some block. *)
Theorem boundsOf_tight (lbs : list LayoutBlock) :
  0 <= bounds_width (boundsOf lbs) ∧ 0 <= bounds_height (boundsOf lbs) ∧
  (∀ lb, lb ∈ lbs →
     x lb + width lb <= bounds_width (boundsOf lbs) ∧
     y lb + height lb <= bounds_height (boundsOf lbs)) ∧
  (bounds_width (boundsOf lbs) = 0 ∨
     ∃ lb, lb ∈ lbs ∧ bounds_width (boundsOf lbs) = x lb + width lb) ∧
  (bounds_height (boundsOf lbs) = 0 ∨
     ∃ lb, lb ∈ lbs ∧ bounds_height (boundsOf lbs) = y lb + height lb).
Proof. apply boundsOf_spec. Qed.

Lemma find_cons {A} (p : A → bool) (a : A) (l : list A) :
  find p (a :: l) = if p a then Some a else find p l.
Proof.
  unfold find. rewrite filter_cons. destruct (decide (p a = true)) as [Hp|Hp].
  - by rewrite Hp.
  - apply not_true_is_false in Hp. by rewrite Hp.
Qed.

Lemma hitTest_snoc (lbs : list LayoutBlock) (b : LayoutBlock) (wx wy : Q) :
  hitTest (lbs ++ [b]) wx wy = if inside b wx wy then Some b else hitTest lbs wx wy.
Proof. unfold hitTest. by rewrite reverse_snoc, find_cons. Qed.

Lemma inside_spec (b : LayoutBlock) (wx wy : Q) :
  inside b wx wy = true ↔
    x b <= wx ∧ wx <= x b + width b ∧ y b <= wy ∧ wy <= y b + height b.
Proof.
  unfold inside. rewrite !andb_true_iff, !Qle_bool_iff. tauto.
Qed.

Lemma hitTest_spec (lbs : list LayoutBlock) (wx wy : Q) :
  (∀ b, hitTest lbs wx wy = Some b ↔
     ∃ i, lbs !! i = Some b ∧
       (x b <= wx ∧ wx <= x b + width b ∧ y b <= wy ∧ wy <= y b + height b) ∧
       ∀ j b', (i < j)%nat → lbs !! j = Some b' → inside b' wx wy = false) ∧
  (hitTest lbs wx wy = None ↔ ∀ b, b ∈ lbs → inside b wx wy = false).
Proof.
  induction lbs as [|a lbs [IH1 IH2]] using rev_ind.
  { split.
    - intros b. split; [done|]. intros (i & Hi & _). by rewrite lookup_nil in Hi.
    - split; [|done]. by intros _ b ?%elem_of_nil. }
  rewrite hitTest_snoc. destruct (inside a wx wy) eqn:Ha.
  - split.
    + intros b. split.
      * intros [= <-]. exists (length lbs). split; [|split].
        -- by rewrite lookup_app_r, Nat.sub_diag.
        -- by apply inside_spec.
        -- intros j b' Hj Hb'. apply lookup_lt_Some in Hb'.
           rewrite length_app in Hb'. simpl in Hb'. lia.
      * intros (i & Hi & Hin & Hlast).
        destruct (decide (i = length lbs)) as [->|Hne].
        { rewrite lookup_app_r, Nat.sub_diag in Hi by done. by inversion Hi. }
        assert (i < length lbs)%nat as Hlt.
        { apply lookup_lt_Some in Hi. rewrite length_app in Hi. simpl in Hi. lia. }
        rewrite (Hlast (length lbs) a Hlt) in Ha; [done|].
        by rewrite lookup_app_r, Nat.sub_diag.
    + split; [done|]. intros Hall. rewrite Hall in Ha; [done|].
      apply elem_of_app. right. by left.
  - split.
    + intros b. rewrite IH1. split.
      * intros (i & Hi & Hin & Hlast). exists i. split; [|split; [done|]].
        { by apply lookup_app_l_Some. }
        intros j b' Hj Hb'. apply lookup_app_Some in Hb' as [Hb'|[Hge Hb']].
        -- by eapply Hlast.
        -- apply list_lookup_singleton_Some in Hb' as [_ <-]. done.
      * intros (i & Hi & Hin & Hlast).
        apply lookup_app_Some in Hi as [Hi|[Hge Hi]].
        -- exists i. split; [done|split; [done|]]. intros j b' Hj Hb'.
           apply (Hlast j b' Hj). by apply lookup_app_l_Some.
        -- apply list_lookup_singleton_Some in Hi as [_ <-].
           apply inside_spec in Hin. congruence.
    + rewrite IH2. split.
      * intros Hall b [Hin|Hin]%elem_of_app; [by apply Hall|].
        by apply list_elem_of_singleton in Hin as ->.
      * intros Hall b Hin. apply Hall. apply elem_of_app. by left.
Qed.

(** X15. [hitTest] returns the last block of the list whose rectangle,
    borders included, holds the point: the block it returns holds the
    point and no later block does, and it returns [null] exactly when no
    block holds the point. *)
Theorem hitTest_last (lbs : list LayoutBlock) (wx wy : Q) :
  (∀ b, hitTest lbs wx wy = Some b ↔
     ∃ i, lbs !! i = Some b ∧
       (x b <= wx ∧ wx <= x b + width b ∧ y b <= wy ∧ wy <= y b + height b) ∧
       ∀ j b', (i < j)%nat → lbs !! j = Some b' → inside b' wx wy = false) ∧
  (hitTest lbs wx wy = None ↔ ∀ b, b ∈ lbs → inside b wx wy = false).
Proof. apply hitTest_spec. Qed.

Lemma anchor_fixed (c z nz s : Q) :
  ¬ z == 0 → ¬ nz == 0 → (s - (s - (s - c) / z * nz)) / nz == (s - c) / z.
Proof. intros Hz Hnz. field. by split. Qed.

(** X16. Zooming keeps the anchor in place and the zoom within its range:
    for a camera whose zoom lies between 0.1 and 3, the wheel handler and
    the two zoom buttons return a camera whose zoom again lies between 0.1
    and 3, and the world point under the pointer (for the wheel) or under
    the centre of the canvas (for the buttons) is the same before and
    after. *)
Theorem zoom_keeps_anchor (size : Size) (cam : Camera) (sx sy deltaY : Q) :
  1 # 10 <= zoom cam → zoom cam <= 3 →
  (1 # 10 <= zoom (onWheel cam sx sy deltaY) ∧ zoom (onWheel cam sx sy deltaY) <= 3 ∧
   (screenToWorld (onWheel cam sx sy deltaY) sx sy).1 == (screenToWorld cam sx sy).1 ∧
   (screenToWorld (onWheel cam sx sy deltaY) sx sy).2 == (screenToWorld cam sx sy).2) ∧
  (1 # 10 <= zoom (zoomIn size cam) ∧ zoom (zoomIn size cam) <= 3 ∧
   (screenToWorld (zoomIn size cam) (size_width size / 2) (size_height size / 2)).1
     == (screenToWorld cam (size_width size / 2) (size_height size / 2)).1 ∧
   (screenToWorld (zoomIn size cam) (size_width size / 2) (size_height size / 2)).2
     == (screenToWorld cam (size_width size / 2) (size_height size / 2)).2) ∧
  (1 # 10 <= zoom (zoomOut size cam) ∧ zoom (zoomOut size cam) <= 3 ∧
   (screenToWorld (zoomOut size cam) (size_width size / 2) (size_height size / 2)).1
     == (screenToWorld cam (size_width size / 2) (size_height size / 2)).1 ∧
   (screenToWorld (zoomOut size cam) (size_width size / 2) (size_height size / 2)).2
     == (screenToWorld cam (size_width size / 2) (size_height size / 2)).2).
Proof.
  intros Hlo Hhi.
  assert (¬ zoom cam == 0) as Hz by lra.
  assert (∀ nz, 1 # 10 <= nz → ¬ nz == 0) as Hnz by (intros nz ?; lra).
  split; [|split].
  - unfold onWheel, screenToWorld. simpl.
    set (nz := Qmin 3 (Qmax (1 # 10) _)).
    assert (1 # 10 <= nz ∧ nz <= 3) as [H1 H2].
    { unfold nz. split; [|apply Q.le_min_l].
      apply Q.min_glb; [lra|apply Q.le_max_l]. }
    split; [done|]. split; [done|]. split; apply anchor_fixed; auto.
  - unfold zoomIn, screenToWorld. simpl.
    set (nz := Qmin 3 _).
    assert (1 # 10 <= nz ∧ nz <= 3) as [H1 H2].
    { unfold nz. split; [|apply Q.le_min_l]. apply Q.min_glb; lra. }
    split; [done|]. split; [done|]. split; apply anchor_fixed; auto.
  - unfold zoomOut, screenToWorld. simpl.
    set (nz := Qmax (1 # 10) _).
    assert (1 # 10 <= nz ∧ nz <= 3) as [H1 H2].
    { unfold nz. split; [apply Q.le_max_l|]. apply Q.max_lub; [lra|].
      apply Qle_shift_div_r; lra. }
    split; [done|]. split; [done|]. split; apply anchor_fixed; auto.
Qed.

Lemma zoom_keeps_anchor_witness :
  1 # 10 <= 1 ∧ 1 <= 3 ∧
  (screenToWorld (onWheel {| cam_x := 40; cam_y := 60; zoom := 1 |} 200 150 (-1))
                 200 150).1
    == (screenToWorld {| cam_x := 40; cam_y := 60; zoom := 1 |} 200 150).1.
Proof.
  split; [lra|]. split; [lra|].
  destruct (zoom_keeps_anchor {| size_width := 800; size_height := 600 |}
              {| cam_x := 40; cam_y := 60; zoom := 1 |} 200 150 (-1))
    as ((_ & _ & Hx & _) & _); [simpl; lra..|exact Hx].
Defined.


Lemma fitCamera_fits (size : Size) (bounds : Bounds) :
  120 < size_width size → 120 < size_height size →
  0 <= bounds_width bounds → 0 <= bounds_height bounds →
  0 < zoom (fitCamera size bounds) ∧ zoom (fitCamera size bounds) <= 1 ∧
  bounds_width bounds * zoom (fitCamera size bounds) <= size_width size - 120 ∧
  bounds_height bounds * zoom (fitCamera size bounds) <= size_height size - 120.
Proof.
  intros HW HH Hbw Hbh. unfold fitCamera. simpl.
  set (mx := Qmax 1 (bounds_width bounds)).
  set (my := Qmax 1 (bounds_height bounds)).
  assert (1 <= mx ∧ bounds_width bounds <= mx) as [Hmx1 Hmx2].
  { unfold mx. split; [apply Q.le_max_l|apply Q.le_max_r]. }
  assert (1 <= my ∧ bounds_height bounds <= my) as [Hmy1 Hmy2].
  { unfold my. split; [apply Q.le_max_l|apply Q.le_max_r]. }
  set (scaleX := (size_width size - 60 * 2) / mx).
  set (scaleY := (size_height size - 60 * 2) / my).
  assert (0 < scaleX ∧ scaleX * mx == size_width size - 120) as [HsX HsX'].
  { unfold scaleX. split; [apply Qlt_shift_div_l; lra|]. field. lra. }
  assert (0 < scaleY ∧ scaleY * my == size_height size - 120) as [HsY HsY'].
  { unfold scaleY. split; [apply Qlt_shift_div_l; lra|]. field. lra. }
  set (z := Qmin 1 (Qmin scaleX scaleY)).
  assert (0 < z ∧ z <= 1 ∧ z <= scaleX ∧ z <= scaleY) as (Hz0 & Hz1 & HzX & HzY).
  { unfold z. split_and!.
    - apply Q.min_glb_lt; [lra|]. by apply Q.min_glb_lt.
    - apply Q.le_min_l.
    - eapply Qle_trans; [apply Q.le_min_r|apply Q.le_min_l].
    - eapply Qle_trans; [apply Q.le_min_r|apply Q.le_min_r]. }
  clearbody z scaleX scaleY mx my. split_and!; [done|done|nra|nra].
Qed.

Lemma fit_block_visible (W H bw bh z bx bwd by_ bht : Q) :
  0 < z → bw * z <= W - 120 → bh * z <= H - 120 →
  0 <= bx → 0 <= by_ → bx + bwd <= bw → by_ + bht <= bh →
  60 <= (W - bw * z) / 2 + bx * z ∧
  (W - bw * z) / 2 + (bx + bwd) * z <= W - 60 ∧
  60 <= 60 + by_ * z ∧
  60 + (by_ + bht) * z <= H - 60.
Proof.
  intros Hz HW HH Hx Hy Hr Hb.
  assert (0 <= bx * z) by (apply Qmult_le_0_compat; lra).
  assert (0 <= by_ * z) by (apply Qmult_le_0_compat; lra).
  assert ((bx + bwd) * z <= bw * z) by (apply Qmult_le_compat_r; lra).
  assert ((by_ + bht) * z <= bh * z) by (apply Qmult_le_compat_r; lra).
  unfold Qdiv. change (/ 2) with (1 # 2).
  split; [|split; [|split]]; lra.
Qed.

Section fit.
Context (measureText : string → string → Q).

(** X18. Fitting shows the whole layout: on a canvas more than 120 pixels
    wide and high, the camera that [fitToView] sets has a zoom in (0, 1]
    and maps every block of the layout of the graph into the canvas with
    a padding of 60 pixels on every side; horizontally the bounds are
    centred. *)
Theorem fitToView_shows_layout (cfg : Cfg) (size : Size) (cam0 : Camera) :
  120 < size_width size → 120 < size_height size →
  ∃ lbs, layoutCfg measureText cfg = Some lbs ∧
    let cam := fitToView size (boundsOf lbs) cam0 in
    0 < zoom cam ∧ zoom cam <= 1 ∧
    cam_x cam + bounds_width (boundsOf lbs) * zoom cam / 2 == size_width size / 2 ∧
    ∀ lb, lb ∈ lbs →
      60 <= cam_x cam + x lb * zoom cam ∧
      cam_x cam + (x lb + width lb) * zoom cam <= size_width size - 60 ∧
      60 <= cam_y cam + y lb * zoom cam ∧
      cam_y cam + (y lb + height lb) * zoom cam <= size_height size - 60.
Proof.
  intros HW HH.
  destruct (layoutCfg_inv measureText cfg) as (lay & lbs & _ & Hl & _).
  exists lbs. split; [done|]. simpl.
  assert (fitToView size (boundsOf lbs) cam0 = fitCamera size (boundsOf lbs)) as ->.
  { unfold fitToView.
    destruct (Qeq_bool (size_width size) 0) eqn:H1.
    { apply Qeq_bool_iff in H1. lra. }
    destruct (Qeq_bool (size_height size) 0) eqn:H2; [|done].
    apply Qeq_bool_iff in H2. lra. }
  destruct (boundsOf_spec lbs) as (Hbw & Hbh & Hall & _).
  destruct (fitCamera_fits size (boundsOf lbs) HW HH Hbw Hbh)
    as (Hz0 & Hz1 & HfitW & HfitH).
  split; [done|]. split; [done|]. split.
  { unfold fitCamera. simpl. field. }
  intros lb Hin. destruct (Hall lb Hin) as [Hr Hb].
  destruct (layoutCfg_nonneg measureText cfg lbs lb Hl Hin) as [Hx Hy].
  by apply (fit_block_visible (size_width size) (size_height size)
              (bounds_width (boundsOf lbs)) (bounds_height (boundsOf lbs))).
Qed.
End fit.

Lemma fitToView_shows_layout_witness :
  120 < 800 ∧ 120 < 600 ∧
  ∃ lbs, layoutCfg sevenPerChar loopGraph = Some lbs ∧
    0 < zoom (fitToView {| size_width := 800; size_height := 600 |} (boundsOf lbs)
                        {| cam_x := 0; cam_y := 0; zoom := 1 |}).
Proof.
  split; [lra|]. split; [lra|].
  destruct (fitToView_shows_layout sevenPerChar loopGraph
              {| size_width := 800; size_height := 600 |}
              {| cam_x := 0; cam_y := 0; zoom := 1 |})
    as (lbs & Hl & Hz & _); [simpl; lra..|].
  exists lbs. split; [exact Hl|exact Hz].
Defined.

Section hit.
Context (measureText : string → string → Q).

(** X19. Hit testing a layout is unambiguous: the rectangles of two
    different layout blocks share no point, so a point lies in at most one
    block, and [hitTest] returns a block exactly when the point lies in
    it. *)
Theorem layout_hit_unique (cfg : Cfg) :
  ∃ lbs, layoutCfg measureText cfg = Some lbs ∧
    (∀ px py i j a b, lbs !! i = Some a → lbs !! j = Some b →
       inside a px py = true → inside b px py = true → i = j) ∧
    (∀ px py a, hitTest lbs px py = Some a ↔ a ∈ lbs ∧ inside a px py = true).
Proof.
  destruct (layoutCfg_inv measureText cfg) as (lay & lbs & _ & Hl & _ & Hsep & _).
  pose proof (layoutCfg_stacked measureText cfg lbs Hl) as Hst.
  exists lbs. split; [done|].
  assert (∀ px py i j a b, (i < j)%nat → lbs !! i = Some a → lbs !! j = Some b →
            inside a px py = true → inside b px py = true → False) as Hlt.
  { intros px py i j a b Hij Ha Hb Hia Hib.
    apply inside_spec in Hia as (Hax & Hax' & Hay & Hay').
    apply inside_spec in Hib as (Hbx & Hbx' & Hby & Hby').
    pose proof (list_elem_of_lookup_2 _ _ _ Ha) as Hina.
    pose proof (list_elem_of_lookup_2 _ _ _ Hb) as Hinb.
    destruct (Z.lt_trichotomy (row a) (row b)) as [Hr|[Hr|Hr]].
    - destruct (Hst a b Hina Hinb) as [_ Hy]. specialize (Hy Hr).
      unfold BLOCK_GAP_Y in Hy. lra.
    - pose proof (Hsep i j a b Hij Ha Hb Hr) as Hx. unfold BLOCK_GAP_X in Hx. lra.
    - destruct (Hst b a Hinb Hina) as [_ Hy]. specialize (Hy Hr).
      unfold BLOCK_GAP_Y in Hy. lra. }
  assert (∀ px py i j a b, lbs !! i = Some a → lbs !! j = Some b →
            inside a px py = true → inside b px py = true → i = j) as Huniq.
  { intros px py i j a b Ha Hb Hia Hib.
    destruct (Nat.lt_trichotomy i j) as [Hij|[Hij|Hij]]; [|done|].
    - by destruct (Hlt px py i j a b).
    - by destruct (Hlt px py j i b a). }
  split; [done|]. intros px py a.
  destruct (hitTest_spec lbs px py) as [Hsome _]. rewrite Hsome. split.
  - intros (i & Hi & Hin & _). split; [by eapply list_elem_of_lookup_2|].
    by apply inside_spec.
  - intros [Hin Hia]. apply list_elem_of_lookup in Hin as [i Hi]. exists i.
    split; [done|]. split; [by apply inside_spec|].
    intros j b Hij Hb. destruct (inside b px py) eqn:Hib; [|done].
    pose proof (Huniq px py i j a b Hi Hb Hia Hib). lia.
Qed.
End hit.

(* ================================================================== *)
(** * Adjacency, the block map and back edges *)
(* ================================================================== *)

Local Open Scope Z_scope.

(** The successor lists: for a known id, the targets of the edges out of it
    whose target is known, in edge order. *)
Definition succsFromEdges (bs : list CfgBlock) (es : list CfgEdge) (i : string)
    : list string :=
  to <$> filter (λ e, from e = i ∧ to e ∈ knownIds bs) es.

Lemma foldl_addAdjacency_succs (bs : list CfgBlock) (es : list CfgEdge) (i : string) :
  successors (foldl addAdjacency (initAdjacency bs) es) !! i =
    (if bool_decide (i ∈ knownIds bs) then Some (succsFromEdges bs es i) else None).
Proof.
  revert i. induction es as [|e es IH] using rev_ind; intros i.
  { simpl. by destruct (initAdjacency_lookup bs i) as [-> _]. }
  rewrite foldl_app. simpl.
  pose proof (foldl_addAdjacency bs es) as Hp. simpl in Hp.
  set (adj := foldl addAdjacency (initAdjacency bs) es) in *.
  unfold succsFromEdges. rewrite filter_app, fmap_app.
  fold (succsFromEdges bs es i). unfold addAdjacency.
  destruct (Hp (from e)) as [Hsf _]. destruct (Hp (to e)) as [_ Hpt].
  assert (is_Some (predecessors adj !! to e) ↔ to e ∈ knownIds bs) as Htk.
  { rewrite Hpt. case_bool_decide; split; try done; by intros [? ?]. }
  destruct (bool_decide (is_Some (successors adj !! from e))) eqn:Hf; simpl;
    [apply bool_decide_eq_true in Hf|apply bool_decide_eq_false in Hf].
  - destruct (bool_decide (is_Some (predecessors adj !! to e))) eqn:Ht; simpl;
      [apply bool_decide_eq_true in Ht|apply bool_decide_eq_false in Ht].
    + apply Htk in Ht. unfold push. destruct (decide (from e = i)) as [<-|Hi].
      * rewrite lookup_alter_eq, IH. apply Hsf in Hf.
        rewrite bool_decide_eq_true_2 by done. simpl. by rewrite filter_cons_True.
      * rewrite lookup_alter_ne, IH by done. destruct (bool_decide (i ∈ knownIds bs)) eqn:Hik; [apply bool_decide_eq_true in Hik|done].
        rewrite filter_cons_False, app_nil_r; [done|]. by intros [? _].
    + rewrite IH. destruct (bool_decide (i ∈ knownIds bs)) eqn:Hik; [apply bool_decide_eq_true in Hik|done].
      rewrite filter_cons_False, app_nil_r; [done|]. intros [_ ?]. by apply Ht, Htk.
  - rewrite IH. destruct (bool_decide (i ∈ knownIds bs)) eqn:Hik; [apply bool_decide_eq_true in Hik|done].
    rewrite filter_cons_False, app_nil_r; [done|]. intros [<- _]. by apply Hf, Hsf.
Qed.

(** X20. The adjacency that [layoutCfg] builds has an entry for exactly the
    ids of the blocks; the predecessors of a block are the sources, and its
    successors the targets, of the edges at it whose both endpoints are ids
    of blocks, in the order of the edges and with repetitions kept.  Edges
    with an unknown endpoint are ignored. *)
Theorem buildAdjacency_lists (cfg : Cfg) (i : string) :
  predecessors (buildAdjacency cfg) !! i =
    (if bool_decide (i ∈ id <$> blocks cfg)
     then Some (from <$> filter (λ e, to e = i ∧ from e ∈ id <$> blocks cfg) (edges cfg))
     else None) ∧
  successors (buildAdjacency cfg) !! i =
    (if bool_decide (i ∈ id <$> blocks cfg)
     then Some (to <$> filter (λ e, from e = i ∧ to e ∈ id <$> blocks cfg) (edges cfg))
     else None).
Proof.
  assert (∀ j, j ∈ knownIds (blocks cfg) ↔ j ∈ id <$> blocks cfg) as Hk.
  { intros j. unfold knownIds. apply elem_of_list_to_set. }
  unfold buildAdjacency. rewrite foldl_addAdjacency_succs.
  destruct (foldl_addAdjacency (blocks cfg) (edges cfg) i) as [_ ->].
  rewrite (bool_decide_ext _ _ (Hk i)). split.
  - case_bool_decide; [|done]. f_equal. unfold predsFromEdges. f_equal.
    apply list_filter_iff. intros e. by rewrite Hk.
  - case_bool_decide; [|done]. f_equal. unfold succsFromEdges. f_equal.
    apply list_filter_iff. intros e. by rewrite Hk.
Qed.

Lemma blockMapOf_NoDup (lbs : list LayoutBlock) (lb : LayoutBlock) :
  NoDup (id <$> (block <$> lbs)) → lb ∈ lbs →
  blockMapOf lbs !! id (block lb) = Some lb.
Proof.
  induction lbs as [|lb' lbs IH] using rev_ind; [by intros _ ?%elem_of_nil|].
  rewrite !fmap_app, blockMapOf_snoc. intros Hnd Hin.
  apply NoDup_app in Hnd as (Hnd & Hdisj & _).
  apply elem_of_app in Hin as [Hin|Hin].
  - rewrite lookup_insert_ne; [by apply IH|].
    intros Heq. apply (Hdisj (id (block lb))).
    + by apply list_elem_of_fmap_2, list_elem_of_fmap_2.
    + simpl. rewrite Heq. by left.
  - apply list_elem_of_singleton in Hin as ->. by rewrite lookup_insert_eq.
Qed.

Section view.
Context (measureText : string → string → Q).

(** X21. Every block and every edge of a built graph can be drawn: for the
    graph [buildCfg] returns, the layout has one layout block per block,
    the block map finds under the id of every block the layout block of
    that very block, and it finds both endpoints of every edge, so that the
    renderer skips no edge. *)
Theorem buildCfg_layout_lookup (ast : AstNode) (code : string) :
  ∃ cfg lbs, buildCfg ast code = Some cfg ∧ layoutCfg measureText cfg = Some lbs ∧
    length lbs = length (blocks cfg) ∧
    (∀ b, b ∈ blocks cfg →
       ∃ lb, lb ∈ lbs ∧ blockMapOf lbs !! id b = Some lb ∧ block lb = b) ∧
    (∀ e, e ∈ edges cfg →
       ∃ f t, blockMapOf lbs !! from e = Some f ∧ blockMapOf lbs !! to e = Some t ∧
              id (block f) = from e ∧ id (block t) = to e).
Proof.
  destruct (buildCfg_wf ast code) as (cfg & Hcfg & Hnd & Hok).
  destruct (layoutCfg_inv measureText cfg) as (lay & lbs & _ & Hl & Hperm & _).
  exists cfg, lbs. split; [done|]. split; [done|].
  assert (∀ b, b ∈ blocks cfg →
            ∃ lb, lb ∈ lbs ∧ blockMapOf lbs !! id b = Some lb ∧ block lb = b) as Hblocks.
  { intros b Hb. assert (b ∈ block <$> lbs) as Hin by (by rewrite Hperm).
    apply list_elem_of_fmap in Hin as (lb & -> & Hin). exists lb.
    split; [done|]. split; [|done]. apply blockMapOf_NoDup; [|done]. by rewrite Hperm. }
  split_and!.
  - by rewrite <-(length_fmap block), Hperm.
  - done.
  - intros e He. rewrite Forall_forall in Hok. destruct (Hok e He) as [Hf Ht].
    apply Live_id in Hf.
    apply list_elem_of_fmap in Hf as (bf & Hidf & Hbf).
    apply list_elem_of_fmap in Ht as (bt & Hidt & Hbt).
    destruct (Hblocks bf Hbf) as (f & _ & Hmf & Hf).
    destruct (Hblocks bt Hbt) as (t & _ & Hmt & Ht).
    exists f, t. rewrite Hidf, Hidt, Hf, Ht. done.
Qed.

Lemma layoutCfg_blockMap_rows (cfg : Cfg) (lay : gmap string Z)
    (lbs : list LayoutBlock) (i : string) (lb : LayoutBlock) :
  assignLayers cfg = Some lay → layoutCfg measureText cfg = Some lbs →
  blockMapOf lbs !! i = Some lb →
  row lb = layerOf lay i ∧ i ∈ knownIds (blocks cfg).
Proof.
  intros Hlay Hl Hlb.
  destruct (layoutCfg_inv measureText cfg) as (lay' & lbs' & Hlay' & Hl' & Hperm & _ & Hprops).
  rewrite Hlay in Hlay'. rewrite Hl in Hl'. simplify_eq.
  apply blockMapOf_Some in Hlb as [Hin <-].
  destruct (Hprops lb Hin) as [-> _]. split; [done|].
  unfold knownIds. apply elem_of_list_to_set. apply list_elem_of_fmap_2.
  rewrite <-Hperm. by apply list_elem_of_fmap_2.
Qed.

Lemma backEdges_acyclic (cfg : Cfg) :
  ∃ lay lbs, assignLayers cfg = Some lay ∧ layoutCfg measureText cfg = Some lbs ∧
    (backEdges (edges cfg) (blockMapOf lbs) = ∅ ↔ acyclic (cfgPreds cfg)) ∧
    (acyclic (cfgPreds cfg) →
       ∀ e, e ∈ edges cfg → from e ∈ id <$> blocks cfg → to e ∈ id <$> blocks cfg →
         layerOf lay (from e) < layerOf lay (to e)).
Proof.
  destruct (layoutCfg_inv measureText cfg) as (lay & lbs & Hlay & Hl & Hperm & _ & Hprops).
  exists lay, lbs. split; [done|]. split; [done|].
  assert (∀ i, i ∈ knownIds (blocks cfg) →
            ∃ lb, blockMapOf lbs !! i = Some lb ∧ row lb = layerOf lay i) as Hmap.
  { intros i Hi. unfold knownIds in Hi. apply elem_of_list_to_set in Hi.
    apply list_elem_of_fmap in Hi as (b & -> & Hb).
    assert (b ∈ block <$> lbs) as Hin by (by rewrite Hperm).
    apply list_elem_of_fmap in Hin as (lb0 & -> & Hin).
    destruct (blockMapOf_is_Some lbs lb0 Hin) as [lb Hlb]. exists lb. split; [done|].
    by destruct (layoutCfg_blockMap_rows cfg lay lbs _ lb Hlay Hl Hlb). }
  assert (∀ a b, a ∈ predsOf (cfgPreds cfg) b →
            ∃ e, e ∈ edges cfg ∧ from e = a ∧ to e = b ∧
                 a ∈ knownIds (blocks cfg) ∧ b ∈ knownIds (blocks cfg)) as Hedge.
  { intros a b Hab. unfold cfgPreds in Hab. rewrite predsOf_buildAdjacency in Hab.
    case_bool_decide as Hb; [|by apply elem_of_nil in Hab].
    unfold predsFromEdges in Hab. apply list_elem_of_fmap in Hab as (e & -> & He).
    apply list_elem_of_filter in He as [[<- ?] ?]. by exists e. }
  assert (acyclic (cfgPreds cfg) →
            ∀ e, e ∈ edges cfg → from e ∈ knownIds (blocks cfg) →
              to e ∈ knownIds (blocks cfg) →
              layerOf lay (from e) < layerOf lay (to e)) as Hdown.
  { intros Hac e He Hkf Hkt.
    assert (from e ∈ predsOf (cfgPreds cfg) (to e)) as Hpred.
    { unfold cfgPreds. rewrite predsOf_buildAdjacency.
      rewrite bool_decide_eq_true_2 by done. unfold predsFromEdges.
      apply list_elem_of_fmap_2. by apply list_elem_of_filter. }
    destruct (assignLayers_inv cfg) as (lay' & Hlay' & Hall & Hrule).
    assert (lay' = lay) as -> by congruence.
    assert (∃ b, b ∈ blocks cfg ∧ id b = to e) as (b & Hb & Hidb).
    { unfold knownIds in Hkt. apply elem_of_list_to_set in Hkt.
      apply list_elem_of_fmap in Hkt as (b & ? & ?). by exists b. }
    destruct (Hall b Hb) as [l Hl']. rewrite Hidb in Hl'.
    destruct (Hrule _ _ Hl') as ((cs & Hcs & Hl'') & _).
    apply (Contribution_acyclic _ _ _ _ Hac) in Hcs. subst cs.
    rewrite Hl' in Hl''. inversion Hl'' as [Hleq].
    assert (layerOf lay (to e) = l) as Hlt by (unfold layerOf; by rewrite Hl').
    assert (∀ ps m p, p ∈ ps → layerOf lay p ≤ foldl Z.max m (layerOf lay <$> ps)) as Hmax.
    { induction ps as [|p' ps IH]; intros m p; [by intros ?%elem_of_nil|].
      simpl. intros [->|Hin]%elem_of_cons; [|by apply IH].
      etrans; [|apply foldl_max_ge]. lia. }
    specialize (Hmax _ (-1) _ Hpred). lia. }
  split; [split|].
  - intros Hempty.
    assert (∀ a b, a ∈ predsOf (cfgPreds cfg) b → layerOf lay a < layerOf lay b) as Hup.
    { intros a b Hab. destruct (Hedge a b Hab) as (e & He & <- & <- & Ha & Hb).
      destruct (Hmap _ Ha) as (f & Hf & Hrf). destruct (Hmap _ Hb) as (t & Ht & Hrt).
      destruct (decide (layerOf lay (from e) < layerOf lay (to e))) as [|Hge]; [done|].
      exfalso. apply (not_elem_of_empty (C := gset string) (backKey e)).
      rewrite <-Hempty. apply elem_of_backEdges. exists e. split_and!; [done..|].
      exists f, t. split_and!; [done..|]. lia. }
    intros i Hcyc.
    assert (∀ a b, tc (λ a b, a ∈ predsOf (cfgPreds cfg) b) a b →
              layerOf lay a < layerOf lay b) as Htc.
    { intros a b H. induction H as [a b Hab|a b c Hab _ IH]; [by apply Hup|].
      apply Hup in Hab. lia. }
    specialize (Htc i i Hcyc). lia.
  - intros Hac. apply set_eq. intros k. split; [|by intros ?%not_elem_of_empty].
    intros (e & He & _ & f & t & Hf & Ht & Hrow)%elem_of_backEdges. exfalso.
    destruct (layoutCfg_blockMap_rows cfg lay lbs _ f Hlay Hl Hf) as [Hrf Hkf].
    destruct (layoutCfg_blockMap_rows cfg lay lbs _ t Hlay Hl Ht) as [Hrt Hkt].
    specialize (Hdown Hac e He Hkf Hkt). lia.
  - intros Hac e He Hf Ht. apply (Hdown Hac e He); unfold knownIds;
      by apply elem_of_list_to_set.
Qed.

(** X22. No back edge without a cycle, and no cycle without a back edge:
    the back-edge set computed from the layout of a graph is empty exactly
    when the graph (its edges between known blocks) has no cycle; and in a
    graph without cycles every edge between known blocks leads to a
    strictly higher layer. *)
Theorem backEdges_empty_iff_acyclic (cfg : Cfg) :
  ∃ lay lbs, assignLayers cfg = Some lay ∧ layoutCfg measureText cfg = Some lbs ∧
    (backEdges (edges cfg) (blockMapOf lbs) = ∅ ↔ acyclic (cfgPreds cfg)) ∧
    (acyclic (cfgPreds cfg) →
       ∀ e, e ∈ edges cfg → from e ∈ id <$> blocks cfg → to e ∈ id <$> blocks cfg →
         layerOf lay (from e) < layerOf lay (to e)).
Proof. apply backEdges_acyclic. Qed.
End view.

(* ================================================================== *)
(** * From the tree to the picture *)
(* ================================================================== *)

(** No node of the tree is a loop node. *)
Fixpoint noLoop (n : AstNode) : bool :=
  negb (has LOOP_TYPES (Ast.kind n)) && forallb noLoop (Ast.children n).

Lemma noLoop_descends (root n : AstNode) :
  noLoop root = true → descends root n → has LOOP_TYPES (Ast.kind n) = false.
Proof.
  intros H Hd. induction Hd as [x|x y z Hxy _ IH].
  - destruct x; simpl in *. apply andb_prop in H as [H _]. by apply negb_true_iff.
  - apply IH. destruct x as [k s e sp ep t nm cs]; simpl in *.
    apply andb_prop in H as [_ H]. rewrite forallb_forall in H.
    apply H. by apply list_elem_of_In.
Qed.

Lemma noLoop_blocks (ast : AstNode) (code : string) (cfg : Cfg) :
  noLoop ast = true → buildCfg ast code = Some cfg →
  Forall (λ b, kind b ≠ loop) (blocks cfg).
Proof.
  intros Hnl Hcfg. destruct (buildCfg_blocks_made ast code) as (cfg' & Hcfg' & Hall).
  assert (cfg' = cfg) as -> by congruence.
  apply Forall_forall. intros b Hb Hk.
  destruct (Hall b Hb) as [(n & Hn & Hof)|Hs].
  - pose proof (noLoop_descends ast n Hnl Hn) as Hloop.
    destruct (of_kind _ _ Hof) as [Hr|[Hx _]]; [|congruence].
    unfold ruleKind in Hr. rewrite Hk, Hloop in Hr.
    repeat (destruct (has _ _); [discriminate|]).
    destruct (_ || _); [discriminate|]. destruct (_ && _); discriminate.
  - destruct Hs as (_ & Hx & _). congruence.
Qed.

(** A built graph without loop blocks has no cycle: the rank of the
    blocks grows along every edge. *)
Lemma built_acyclic (ast : AstNode) (code : string) (cfg : Cfg) :
  buildCfg ast code = Some cfg → Forall (λ b, kind b ≠ loop) (blocks cfg) →
  acyclic (cfgPreds cfg).
Proof.
  intros Hcfg Hnl. rewrite Forall_forall in Hnl.
  destruct (buildCfg_edges_ranked ast code) as (cfg' & sentinel & Hcfg' & Hs & Hedges).
  assert (cfg' = cfg) as -> by congruence.
  assert (∀ x y, x ∈ predsOf (cfgPreds cfg) y →
            ∃ a b, x = makeId a ∧ y = makeId b ∧
                   (rank sentinel a < rank sentinel b)%nat) as Hstep.
  { intros x y Hxy. unfold cfgPreds in Hxy. rewrite predsOf_buildAdjacency in Hxy.
    case_bool_decide as Hy; [|by apply elem_of_nil in Hxy].
    unfold predsFromEdges in Hxy. apply list_elem_of_fmap in Hxy as (e & -> & He).
    apply list_elem_of_filter in He as [[<- _] He].
    destruct (Hedges e He) as (_ & a & b & Hf & Ht & _ & _ & Hshape).
    exists a, b. split_and!; [done..|]. unfold rank.
    destruct Hshape as [(Hlt & Hsa & Hsb)|[(_ & _ & _ & blk & Hblk & _ & Hk)
                                          |(Hsa & -> & Hpos & _)]].
    - rewrite !bool_decide_eq_false_2 by done. lia.
    - by destruct (Hnl blk Hblk).
    - rewrite bool_decide_eq_true_2 by done.
      rewrite bool_decide_eq_false_2; [lia|]. rewrite Hsa. intros [= ->]. lia. }
  assert (∀ x y, tc (λ a b, a ∈ predsOf (cfgPreds cfg) b) x y →
            ∃ a b, x = makeId a ∧ y = makeId b ∧
                   (rank sentinel a < rank sentinel b)%nat) as Htc.
  { intros x y H. induction H as [x y Hxy|x y z Hxy _ IH]; [by apply Hstep|].
    destruct (Hstep x y Hxy) as (a & b & -> & -> & Hab).
    destruct IH as (b' & c & Hb' & -> & Hbc). apply makeId_inj in Hb' as <-.
    exists a, c. split_and!; [done..|lia]. }
  intros i Hcyc. destruct (Htc i i Hcyc) as (a & b & -> & Hb & Hlt).
  apply makeId_inj in Hb as <-. lia.
Qed.

Section picture.
Context (measureText : string → string → Q).

(** X23. A program without loops is drawn without back edges: when no
    node of the tree is a loop node, the built graph has no block of kind
    [loop] and no cycle, every edge leads to a strictly higher layer, and
    the back-edge set of its layout is empty. *)
Theorem loop_free_no_back_edges (ast : AstNode) (code : string) :
  noLoop ast = true →
  ∃ cfg lay lbs, buildCfg ast code = Some cfg ∧
    assignLayers cfg = Some lay ∧ layoutCfg measureText cfg = Some lbs ∧
    Forall (λ b, kind b ≠ loop) (blocks cfg) ∧
    acyclic (cfgPreds cfg) ∧
    (∀ e, e ∈ edges cfg → (layerOf lay (from e) < layerOf lay (to e))%Z) ∧
    backEdges (edges cfg) (blockMapOf lbs) = ∅.
Proof.
  intros Hnl. destruct (buildCfg_wf ast code) as (cfg & Hcfg & _ & Hok).
  destruct (backEdges_acyclic measureText cfg) as (lay & lbs & Hlay & Hl & Hiff & Hdown).
  pose proof (noLoop_blocks ast code cfg Hnl Hcfg) as Hblocks.
  pose proof (built_acyclic ast code cfg Hcfg Hblocks) as Hac.
  exists cfg, lay, lbs. split_and!; [done..| |by apply Hiff].
  intros e He. rewrite Forall_forall in Hok. destruct (Hok e He) as [Hf Ht].
  apply Hdown; [done|done|by apply Live_id|done].
Qed.


(** X24. All blocks of a built graph are drawn with the same height: as
    every block carries exactly one statement text, every layout block is
    54 units high, and the rows lie at least 110 units apart. *)
Theorem built_layout_heights (ast : AstNode) (code : string) :
  ∃ cfg lbs, buildCfg ast code = Some cfg ∧ layoutCfg measureText cfg = Some lbs ∧
    (∀ lb, lb ∈ lbs → (height lb == 54)%Q) ∧
    (∀ a b, a ∈ lbs → b ∈ lbs → (row a < row b)%Z → (y a + 110 <= y b)%Q).
Proof.
  destruct (buildCfg_blocks_made ast code) as (cfg & Hcfg & Hall).
  destruct (layoutCfg_inv measureText cfg) as (lay & lbs & _ & Hl & Hperm & _ & Hprops).
  exists cfg, lbs. split; [done|]. split; [done|].
  assert (∀ lb, lb ∈ lbs → (height lb == 54)%Q) as Hh.
  { intros lb Hin. destruct (Hprops lb Hin) as (_ & _ & ->).
    assert (block lb ∈ blocks cfg) as Hb.
    { rewrite <-Hperm. by apply list_elem_of_fmap_2. }
    assert (∃ st, statements (block lb) = [st]) as [st Hst].
    { destruct (Hall _ Hb) as [(n & _ & Hof)|Hs].
      - destruct (of_statements _ _ Hof) as (st & ? & _). by exists st.
      - destruct Hs as (_ & _ & _ & ? & _). by eexists. }
    unfold blockHeight. rewrite Hst. reflexivity. }
  split; [done|]. intros a b Ha Hb Hrow.
  destruct (layoutCfg_stacked measureText cfg lbs Hl a b Ha Hb) as [_ Hst].
  specialize (Hst Hrow). specialize (Hh a Ha). unfold BLOCK_GAP_Y in Hst.
  rewrite Hh in Hst. lra.
Qed.
End picture.

Lemma loop_free_no_back_edges_witness :
  noLoop ifElseProgram = true ∧
  ∃ cfg lay lbs, buildCfg ifElseProgram "if (x) { a } else { b }" = Some cfg ∧
    assignLayers cfg = Some lay ∧ layoutCfg sevenPerChar cfg = Some lbs ∧
    Forall (λ b, kind b ≠ loop) (blocks cfg) ∧
    acyclic (cfgPreds cfg) ∧
    (∀ e, e ∈ edges cfg → (layerOf lay (from e) < layerOf lay (to e))%Z) ∧
    backEdges (edges cfg) (blockMapOf lbs) = ∅.
Proof.
  split; [reflexivity|]. apply (loop_free_no_back_edges sevenPerChar). reflexivity.
Defined.

(* ================================================================== *)
(** * Snapping the bottom sheet *)
(* ================================================================== *)

Local Open Scope Q_scope.

(** The height a snap point stands for, before rounding. *)
Definition snapTarget (windowHeight : Q) (snap : SnapPoint) : Q :=
  match snap with
  | collapsed => COLLAPSED_HEIGHT
  | half => windowHeight * HALF_RATIO
  | full => windowHeight * FULL_RATIO
  end.

Lemma round_near (q : Q) :
  q - (1 # 2) < inject_Z (round q) ∧ inject_Z (round q) <= q + (1 # 2).
Proof.
  unfold round. pose proof (Qfloor_le (q + (1 # 2))) as Hle.
  pose proof (Qlt_floor (q + (1 # 2))) as Hlt.
  rewrite inject_Z_plus in Hlt. change (inject_Z 1) with 1 in Hlt. split; lra.
Qed.

Lemma Qabs_le_half (r q : Q) :
  q - (1 # 2) < r → r <= q + (1 # 2) → Qabs (r - q) <= 1 # 2.
Proof. intros H1 H2. apply Qabs_Qle_condition. split; lra. Qed.

Lemma Qabs_gt (x c : Q) : c < x → c < Qabs x.
Proof. intros H. pose proof (Qle_Qabs x). lra. Qed.

Lemma Qle_bool_false (a b : Q) : b < a → Qle_bool a b = false.
Proof.
  intros H. destruct (Qle_bool a b) eqn:E; [|done].
  apply Qle_bool_iff in E. lra.
Qed.

(** X25. [nearestSnap] picks a nearest snap point: the height it is given
    is at least as close to the target of the snap point it returns as to
    the target of any other. *)
Theorem nearestSnap_nearest (height windowHeight : Q) (snap : SnapPoint) :
  Qabs (height - snapTarget windowHeight (nearestSnap height windowHeight))
    <= Qabs (height - snapTarget windowHeight snap).
Proof.
  unfold nearestSnap. cbv zeta.
  set (dC := Qabs (height - COLLAPSED_HEIGHT)).
  set (dH := Qabs (height - windowHeight * HALF_RATIO)).
  set (dF := Qabs (height - windowHeight * FULL_RATIO)).
  assert (∀ a b, Qle_bool a b = false → b <= a) as Hflip.
  { intros a b E. destruct (Qlt_le_dec b a) as [?|Hle]; [lra|].
    apply Qle_bool_iff in Hle. congruence. }
  destruct (Qle_bool dC dH) eqn:E1; cbn [andb].
  - apply Qle_bool_iff in E1. destruct (Qle_bool dC dF) eqn:E2; cbn [andb].
    + apply Qle_bool_iff in E2. destruct snap; cbn [snapTarget]; fold dC dH dF; lra.
    + apply Hflip in E2. destruct (Qle_bool dH dF) eqn:E3.
      * apply Qle_bool_iff in E3. destruct snap; cbn [snapTarget]; fold dC dH dF; lra.
      * apply Hflip in E3. destruct snap; cbn [snapTarget]; fold dC dH dF; lra.
  - apply Hflip in E1. destruct (Qle_bool dH dF) eqn:E3.
    + apply Qle_bool_iff in E3. destruct snap; cbn [snapTarget]; fold dC dH dF; lra.
    + apply Hflip in E3. destruct snap; cbn [snapTarget]; fold dC dH dF; lra.
Qed.

(** X26. Snapping is stable: for a window at least 98 pixels high, the
    snap point nearest to the height of a snap point is that snap point, so
    that the sheet, once released, stays at the snap point it went to. *)
Theorem nearestSnap_getSnapHeight (snap : SnapPoint) (windowHeight : Q) :
  98 <= windowHeight →
  nearestSnap (getSnapHeight snap windowHeight) windowHeight = snap.
Proof.
  intros Hh. unfold nearestSnap, getSnapHeight, COLLAPSED_HEIGHT, HALF_RATIO, FULL_RATIO.
  cbv zeta. destruct snap.
  - assert (Qabs (48 - 48) == 0) as H0 by reflexivity.
    assert (∀ x, Qle_bool (Qabs (48 - 48)) (Qabs x) = true) as Hle.
    { intros x. apply Qle_bool_iff. rewrite H0. apply Qabs_nonneg. }
    by rewrite !Hle.
  - destruct (round_near (windowHeight * (5 # 10))) as [H1 H2].
    set (r := inject_Z (round (windowHeight * (5 # 10)))) in *.
    pose proof (Qabs_le_half r _ H1 H2) as HdH.
    assert (1 # 2 < Qabs (r - 48)) as HdC by (apply Qabs_gt; lra).
    assert (1 # 2 < Qabs (r - windowHeight * (92 # 100))) as HdF.
    { rewrite <-Qabs_opp. apply Qabs_gt. lra. }
    rewrite (Qle_bool_false (Qabs (r - 48)) (Qabs (r - windowHeight * (5 # 10))))
      by lra.
    cbn [andb].
    assert (Qle_bool (Qabs (r - windowHeight * (5 # 10)))
                     (Qabs (r - windowHeight * (92 # 100))) = true) as ->; [|done].
    apply Qle_bool_iff. lra.
  - destruct (round_near (windowHeight * (92 # 100))) as [H1 H2].
    set (r := inject_Z (round (windowHeight * (92 # 100)))) in *.
    pose proof (Qabs_le_half r _ H1 H2) as HdF.
    assert (1 # 2 < Qabs (r - 48)) as HdC by (apply Qabs_gt; lra).
    assert (1 # 2 < Qabs (r - windowHeight * (5 # 10))) as HdH by (apply Qabs_gt; lra).
    rewrite (Qle_bool_false (Qabs (r - 48)) (Qabs (r - windowHeight * (92 # 100))))
      by lra.
    rewrite andb_false_r.
    by rewrite (Qle_bool_false (Qabs (r - windowHeight * (5 # 10)))) by lra.
Qed.

Lemma nearestSnap_getSnapHeight_witness :
  98 <= 800 ∧ nearestSnap (getSnapHeight full 800) 800 = full.
Proof.
  split; [lra|]. apply nearestSnap_getSnapHeight. lra.
Defined.
